(** * ShinySDR spectrum widgets: coordinate model, averaging, waterfall history

    A shallow embedding of the numeric core of
    [shinysdr/webstatic/client/widget.js]: the helper [mod], the
    [SpectrumView] pan/zoom model, the averaging stage of [SpectrumPlot],
    the colour gradient and the history ring buffer of [WaterfallPlot].

    Numbers.  A JavaScript number is modelled by an exact rational [Q]
    wherever the code computes with finite values, so the arithmetic below
    is the arithmetic of the source without rounding; magnitudes, zoom,
    scroll positions and the view's frequencies are such values.  Where
    the source tests for NaN or a property speaks of non-finite values
    (a frame's centre frequency, the argument of [interpolateColor], the
    arguments of canvas calls) the extended type [JS.number] is used.
    Equality of rationals is [Qeq] ([==]).

    Collaborators.  The radio cells, the scrolling container, the storage
    namespace and the canvas are fields of the state records; a call into
    them is a read or an update of the field.  Notifications
    ([n.notify()], [view.n.listen(draw)]) and the GL calls that only bind
    or upload are left out. *)

From Stdlib Require Import ZArith QArith Qround Qminmax Qabs Qpower.
From Stdlib Require Import List Bool Lia Lqa Morphisms Setoid.
Import ListNotations.

Local Open Scope Q_scope.

(** ** JavaScript numbers *)

Module JS.

(** [Math.trunc]: the integer part, rounding toward zero. *)
Definition Qtrunc (x : Q) : Z :=
  if (0 <=? Qnum x)%Z then Qfloor x else Qceiling x.

(** The [%] operator on finite numbers with a non-zero divisor:
    [n - d * q] where [q] is the quotient [n / d] truncated toward zero,
    so the result takes the sign of the dividend. *)
Definition rem (n d : Q) : Q := n - d * inject_Z (Qtrunc (n / d)).

(** The [%] operator on integers. *)
Definition remZ (n d : Z) : Z := Z.rem n d.

(** [Math.round]: the nearest integer, ties toward positive infinity. *)
Definition round (x : Q) : Z := Qfloor (x + (1 # 2)).

(** Numbers that may be non-finite. *)
Inductive number : Type :=
| Fin (q : Q)
| PInf
| NInf
| NaN.

Definition isNaN (x : number) : bool :=
  match x with NaN => true | _ => false end.

(** [x === y] and [x !== y] on numbers: NaN is different from everything,
    itself included. *)
Definition strict_eq (x y : number) : bool :=
  match x, y with
  | Fin p, Fin q => Qeq_bool p q
  | PInf, PInf => true
  | NInf, NInf => true
  | _, _ => false
  end.

Definition strict_neq (x y : number) : bool := negb (strict_eq x y).

Definition sign_cmp (q : Q) : comparison := (Qnum q ?= 0)%Z.

Definition mul (x y : number) : number :=
  match x, y with
  | NaN, _ | _, NaN => NaN
  | Fin p, Fin q => Fin (p * q)
  | Fin p, PInf | PInf, Fin p =>
      match sign_cmp p with Eq => NaN | Gt => PInf | Lt => NInf end
  | Fin p, NInf | NInf, Fin p =>
      match sign_cmp p with Eq => NaN | Gt => NInf | Lt => PInf end
  | PInf, PInf | NInf, NInf => PInf
  | PInf, NInf | NInf, PInf => NInf
  end.

Definition add (x y : number) : number :=
  match x, y with
  | NaN, _ | _, NaN => NaN
  | Fin p, Fin q => Fin (p + q)
  | PInf, NInf | NInf, PInf => NaN
  | PInf, _ | _, PInf => PInf
  | NInf, _ | _, NInf => NInf
  end.

Definition neg (x : number) : number :=
  match x with
  | Fin p => Fin (- p)
  | PInf => NInf
  | NInf => PInf
  | NaN => NaN
  end.

Definition sub (x y : number) : number := add x (neg y).

(** Division: a finite non-zero number over zero is an infinity. *)
Definition div (x y : number) : number :=
  match x, y with
  | NaN, _ | _, NaN => NaN
  | Fin p, Fin q =>
      match sign_cmp q with
      | Eq => match sign_cmp p with Eq => NaN | Gt => PInf | Lt => NInf end
      | _ => Fin (p / q)
      end
  | Fin _, _ => Fin 0
  | PInf, Fin q => match sign_cmp q with Lt => NInf | _ => PInf end
  | NInf, Fin q => match sign_cmp q with Lt => PInf | _ => NInf end
  | _, _ => NaN
  end.

(** [Math.floor] leaves non-finite values alone. *)
Definition floor (x : number) : number :=
  match x with
  | Fin p => Fin (inject_Z (Qfloor p))
  | _ => x
  end.

(** [Math.round] on numbers that may be non-finite. *)
Definition Math_round (x : number) : number :=
  match x with
  | Fin p => Fin (inject_Z (round p))
  | _ => x
  end.

(** A length or an index as a number; [undefined] converts to NaN. *)
Definition of_nat (n : nat) : number := Fin (inject_Z (Z.of_nat n)).

Definition of_undefined_or (n : option nat) : number :=
  match n with
  | Some k => of_nat k
  | None => NaN
  end.

(** [Math.min] and [Math.max]: NaN if either argument is NaN. *)
Definition min (x y : number) : number :=
  match x, y with
  | NaN, _ | _, NaN => NaN
  | NInf, _ | _, NInf => NInf
  | PInf, z | z, PInf => z
  | Fin p, Fin q => Fin (Qmin p q)
  end.

Definition max (x y : number) : number :=
  match x, y with
  | NaN, _ | _, NaN => NaN
  | PInf, _ | _, PInf => PInf
  | NInf, z | z, NInf => z
  | Fin p, Fin q => Fin (Qmax p q)
  end.

(** The array index a number denotes, if it is one: a non-negative
    integer.  [a[x]] is [undefined] for every other [x]. *)
Definition array_index (x : number) : option nat :=
  match x with
  | Fin p =>
      if Qeq_bool p (inject_Z (Qfloor p)) && (0 <=? Qfloor p)%Z
      then Some (Z.to_nat (Qfloor p)) else None
  | _ => None
  end.

(** [ToInt32], used by the bit operators: truncate, then wrap into
    [[-2^31, 2^31)]; non-finite values become 0. *)
Definition wrap32 (z : Z) : Z := ((z + 2 ^ 31) mod 2 ^ 32 - 2 ^ 31)%Z.

Definition ToInt32 (x : number) : Z :=
  match x with
  | Fin p => wrap32 (Qtrunc p)
  | _ => 0%Z
  end.

(** Element conversion of a [Uint8Array] store: truncate and wrap to a
    byte; and of a [Uint8ClampedArray] store: clamp to [[0, 255]] and round
    to nearest, ties to even.  NaN is stored as 0 in both. *)
Definition ToUint8 (x : number) : Z :=
  match x with
  | Fin p => (Qtrunc p mod 256)%Z
  | _ => 0%Z
  end.

Definition round_half_even (p : Q) : Z :=
  let f := Qfloor p in
  match Qcompare (p - inject_Z f) (1 # 2) with
  | Lt => f
  | Gt => (f + 1)%Z
  | Eq => if Z.even f then f else (f + 1)%Z
  end.

Definition ToUint8Clamp (x : number) : Z :=
  match x with
  | Fin p => Z.max 0 (Z.min 255 (round_half_even p))
  | PInf => 255%Z
  | NInf => 0%Z
  | NaN => 0%Z
  end.

End JS.

(** ** [mod] (widget.js, line 31) *)

(** [function mod(value, modulus) { return (value % modulus + modulus) % modulus; }] *)
Definition mod_ (value modulus : Q) : Q :=
  JS.rem (JS.rem value modulus + modulus) modulus.

(** The same function at integer arguments, where [%] is [Z.rem]. *)
Definition mod_Z (value modulus : Z) : Z :=
  JS.remZ (JS.remZ value modulus + modulus) modulus.


(** ** [SpectrumView] (widget.js, lines 211-391) *)

Module SpectrumView.

(** [var MAX_ZOOM_BINS = 60;] *)
Definition MAX_ZOOM_BINS : Q := 60.

(** [this.minLevel = -60; this.maxLevel = 30;] (lines 273-274). *)
Definition minLevel : Q := -60.
Definition maxLevel : Q := 30.

(** The state the view closes over, together with the collaborators it
    reads and writes: the radio cells, the scrolling container with its
    stub child, and the storage namespace. *)
Record state : Type := mkState {
  (* radio.input_rate, radio.source.freq, radio.spectrum_fft.get().length *)
  radio_input_rate : Q;
  radio_source_freq : Q;
  radio_spectrum_fft_length : Z;
  (* container.offsetWidth, container.scrollLeft, scrollStub.style.width *)
  container_offsetWidth : Q;
  container_scrollLeft : Q;
  scrollStub_width : Q;
  (* storage items 'zoom' and 'scroll', as the numbers their strings denote *)
  storage_zoom : option Q;
  storage_scroll : option Q;
  (* per-drawing-frame parameters *)
  bandwidth : Q;
  centerFreq : Q;
  leftFreq : Q;
  pixelWidth : Q;
  pixelsPerHertz : Q;
  cacheScrollLeft : Q;
  (* zoom state variables *)
  zoom : Q;
  fractionalScroll : Q;
  (* whether [prepare] is waiting in the scheduler's queue *)
  prepare_enqueued : bool
}.

(** [parseFloat(storage.getItem(key)) || dflt]: the default is taken when
    the item is missing or does not parse (NaN), and also when it is 0. *)
Definition parseFloat_or (item : option Q) (dflt : Q) : Q :=
  match item with
  | Some q => if Qeq_bool q 0 then dflt else q
  | None => dflt
  end.

(** An assignment to [container.scrollLeft] keeps the integer part:
    "scrollLeft quantizes to integer" (line 232).  The container is taken
    to leave its scroll position alone otherwise, also when the stub
    changes width. *)
Definition scrollLeft_stored (v : Q) : Q := inject_Z (Qfloor v).

(** [function prepare()] (lines 242-254). *)
Definition prepare (st : state) : state :=
  let bandwidth' := radio_input_rate st in
  let centerFreq' := radio_source_freq st in
  let leftFreq' := centerFreq' - bandwidth' / 2 in
  let pixelWidth' := container_offsetWidth st in
  let pixelsPerHertz' := pixelWidth' / bandwidth' * zoom st in
  let cacheScrollLeft' := container_scrollLeft st in
  mkState (radio_input_rate st) (radio_source_freq st)
    (radio_spectrum_fft_length st)
    (container_offsetWidth st) (container_scrollLeft st) (scrollStub_width st)
    (storage_zoom st) (storage_scroll st)
    bandwidth' centerFreq' leftFreq' pixelWidth' pixelsPerHertz'
    cacheScrollLeft'
    (zoom st) (fractionalScroll st) (prepare_enqueued st).

(** The constructor body (lines 233-256): zoom and scroll are read from
    storage, then [prepare()] runs once. *)
Definition new (input_rate source_freq : Q) (fft_length : Z)
    (offsetWidth : Q) (stored_zoom stored_scroll : option Q) : state :=
  let zoom0 := parseFloat_or stored_zoom 1 in
  let initScroll := parseFloat_or stored_scroll 0 in
  let stub := offsetWidth * zoom0 in
  let scrollLeft0 := scrollLeft_stored (inject_Z (Qfloor initScroll)) in
  let fractionalScroll0 := mod_ initScroll 1 in
  prepare
    (mkState input_rate source_freq fft_length
       offsetWidth scrollLeft0 stub
       stored_zoom stored_scroll
       0 0 0 0 0 0
       zoom0 fractionalScroll0 false).

(** The window 'resize' listener (lines 258-261). *)
Definition on_resize (newOffsetWidth : Q) (st : state) : state :=
  prepare
    (mkState (radio_input_rate st) (radio_source_freq st)
       (radio_spectrum_fft_length st)
       newOffsetWidth (container_scrollLeft st) (scrollStub_width st)
       (storage_zoom st) (storage_scroll st)
       (bandwidth st) (centerFreq st) (leftFreq st) (pixelWidth st)
       (pixelsPerHertz st) (cacheScrollLeft st)
       (zoom st) (fractionalScroll st) (prepare_enqueued st)).

(** The container 'scroll' listener (lines 263-267), run after the
    browser has moved the container to [newScrollLeft]. *)
Definition on_scroll (newScrollLeft : Z) (st : state) : state :=
  let sl := inject_Z newScrollLeft in
  prepare
    (mkState (radio_input_rate st) (radio_source_freq st)
       (radio_spectrum_fft_length st)
       (container_offsetWidth st) sl (scrollStub_width st)
       (storage_zoom st) (Some (sl + fractionalScroll st))
       (bandwidth st) (centerFreq st) (leftFreq st) (pixelWidth st)
       (pixelsPerHertz st) (cacheScrollLeft st)
       (zoom st) (fractionalScroll st) (prepare_enqueued st)).

(** The scheduler runs an enqueued [prepare]. *)
Definition run_enqueued (st : state) : state :=
  if prepare_enqueued st then
    prepare
      (mkState (radio_input_rate st) (radio_source_freq st)
         (radio_spectrum_fft_length st)
         (container_offsetWidth st) (container_scrollLeft st)
         (scrollStub_width st)
         (storage_zoom st) (storage_scroll st)
         (bandwidth st) (centerFreq st) (leftFreq st) (pixelWidth st)
         (pixelsPerHertz st) (cacheScrollLeft st)
         (zoom st) (fractionalScroll st) false)
  else st.

(** Accessors (lines 276-302); the CSS ones without their ['px'] suffix. *)
Definition freqToCSSLeft (st : state) (freq : Q) : Q :=
  (freq - leftFreq st) * pixelsPerHertz st.
Definition freqToCSSRight (st : state) (freq : Q) : Q :=
  pixelWidth st - (freq - leftFreq st) * pixelsPerHertz st.
Definition freqToCSSLength (st : state) (freq : Q) : Q :=
  freq * pixelsPerHertz st.
Definition leftVisibleFreq (st : state) : Q :=
  leftFreq st + cacheScrollLeft st / pixelsPerHertz st.
Definition rightVisibleFreq (st : state) : Q :=
  leftFreq st + (cacheScrollLeft st + pixelWidth st) / pixelsPerHertz st.
Definition getCenterFreq (st : state) : Q := centerFreq st.
Definition getBandwidth (st : state) : Q := bandwidth st.
Definition getVisiblePixelWidth (st : state) : Q := pixelWidth st.
Definition getTotalPixelWidth (st : state) : Q :=
  pixelsPerHertz st * bandwidth st.

(** The pieces of [changeZoom] (lines 304-342), in source order. *)

(** Lines 305-309. *)
Definition maxZoom (st : state) : Q :=
  Qmax 1
    (Qmax (bandwidth st / 100000)
          (inject_Z (radio_spectrum_fft_length st) / MAX_ZOOM_BINS)).

(** Lines 311-312: [cursorX += fractionalScroll; cursor01 = cursorX / pixelWidth]. *)
Definition cursor01 (st : state) (cursorX : Q) : Q :=
  (cursorX + fractionalScroll st) / pixelWidth st.

(** Lines 315 and 325: the frequency at a fraction of the visible span. *)
Definition freqAtFraction (st : state) (c01 : Q) : Q :=
  leftVisibleFreq st * (1 - c01) + rightVisibleFreq st * c01.

(** The frequency the coordinate model puts under viewport pixel
    [cursorX] (lines 311-315). *)
Definition cursorFreq (st : state) (cursorX : Q) : Q :=
  freqAtFraction st (cursor01 st cursorX).

Definition clampZoom (st : state) (z : Q) : Q :=
  Qmin (maxZoom st) (Qmax 1 z).

Definition set_zoom (z : Q) (st : state) : state :=
  mkState (radio_input_rate st) (radio_source_freq st)
    (radio_spectrum_fft_length st)
    (container_offsetWidth st) (container_scrollLeft st) (scrollStub_width st)
    (storage_zoom st) (storage_scroll st)
    (bandwidth st) (centerFreq st) (leftFreq st) (pixelWidth st)
    (pixelsPerHertz st) (cacheScrollLeft st)
    z (fractionalScroll st) (prepare_enqueued st).

Section Zoom.

(** [Math.exp] is not a rational function; the model takes it as given. *)
Variable Math_exp : Q -> Q.

(** Line 319: [zoom *= Math.exp(-delta * 0.0005)], before clamping. *)
Definition rawZoom (st : state) (delta : Q) : Q :=
  zoom st * Math_exp (- delta * (5 # 10000)).

(** The state after line 323, where [prepare()] has run with the new zoom. *)
Definition zoomed (st : state) (delta : Q) : state :=
  prepare (set_zoom (clampZoom st (rawZoom st delta)) st).

(** Lines 328-333: the scroll position that keeps the cursor frequency in
    place, before clamping. *)
Definition rawScroll (st : state) (delta cursorX : Q) : Q :=
  let c01 := cursor01 st cursorX in
  let cursorFreq := freqAtFraction st c01 in
  let st1 := zoomed st delta in
  let unadjustedCursorFreq := freqAtFraction st1 c01 in
  let scroll := container_scrollLeft st1 + fractionalScroll st1 in
  scroll + (cursorFreq - unadjustedCursorFreq) * pixelsPerHertz st1.

Definition changeZoom (st : state) (delta cursorX : Q) : state :=
  let st1 := zoomed st delta in
  let w := pixelWidth st1 * zoom st1 in
  let scroll :=
    Qmax 0 (Qmin (w - pixelWidth st1) (rawScroll st delta cursorX)) in
  let scrollLeft' := scrollLeft_stored scroll in
  mkState (radio_input_rate st1) (radio_source_freq st1)
    (radio_spectrum_fft_length st1)
    (container_offsetWidth st1) scrollLeft' w
    (Some (zoom st1)) (Some scroll)
    (bandwidth st1) (centerFreq st1) (leftFreq st1) (pixelWidth st1)
    (pixelsPerHertz st1) (cacheScrollLeft st1)
    (zoom st1) (scroll - scrollLeft') true.

(** Neither clamp of [changeZoom] changes its argument. *)
Definition zoom_not_clamped (st : state) (delta : Q) : Prop :=
  1 <= rawZoom st delta /\ rawZoom st delta <= maxZoom st.

Definition scroll_not_clamped (st : state) (delta cursorX : Q) : Prop :=
  let st1 := zoomed st delta in
  0 <= rawScroll st delta cursorX /\
  rawScroll st delta cursorX <= pixelWidth st1 * zoom st1 - pixelWidth st1.

End Zoom.

(** The per-frame parameters are those of the last [prepare] pass: no
    collaborator has changed since. *)
Definition prepared (st : state) : Prop := prepare st = st.

(** The virtual scroll position and the range it is meant to stay in. *)
Definition virtualScroll (st : state) : Q :=
  container_scrollLeft st + fractionalScroll st.

Definition scroll_in_range (st : state) : Prop :=
  0 <= virtualScroll st /\
  virtualScroll st <= getTotalPixelWidth st - getVisiblePixelWidth st.

End SpectrumView.

(** ** Arrays *)

(** An indexed store [a[i] = v] into a typed array: a store past the end
    is ignored. *)
Fixpoint store {A : Type} (a : list A) (i : nat) (v : A) : list A :=
  match a, i with
  | [], _ => []
  | _ :: t, O => v :: t
  | h :: t, S j => h :: store t j v
  end.

(** A frame as the FFT cell delivers it: [fftBundle[0].freq] and
    [fftBundle[1]]. *)
Record fftBundle : Type := mkBundle {
  bundle_freq : JS.number;
  bundle_buffer : list Q
}.

(** ** [SpectrumPlot] (widget.js, lines 779-1041) *)

Module SpectrumPlot.

(** The variables of the common logic (lines 788-789). *)
Record avg_state : Type := mkAvg {
  averageBuffer : option (list Q);
  lastDrawnCenterFreq : JS.number
}.

(** [var averageBuffer = null; var lastDrawnCenterFreq = NaN;] *)
Definition avg_init : avg_state := mkAvg None JS.NaN.

(** The condition of lines 799-802. *)
Definition must_reset (st : avg_state) (fftBundle : fftBundle) : bool :=
  match averageBuffer st with
  | None => true
  | Some a =>
      negb (length a =? length (bundle_buffer fftBundle))%nat
      || (JS.strict_neq (lastDrawnCenterFreq st) (bundle_freq fftBundle)
          && negb (JS.isNaN (bundle_freq fftBundle)))
  end.

(** The loop of lines 807-809, from index [i] for [n] more iterations.
    Both arrays have [len] elements when it runs, so every read is of an
    element. *)
Fixpoint average_loop (n i : nat) (invAlpha alpha : Q)
    (averageBuffer buffer : list Q) : list Q :=
  match n with
  | O => averageBuffer
  | S n' =>
      average_loop n' (S i) invAlpha alpha
        (store averageBuffer i
           (nth i averageBuffer 0 * invAlpha + nth i buffer 0 * alpha))
        buffer
  end.

(** [function commonNewData(fftBundle)] (lines 790-810); [alpha] is the
    value [avgAlphaCell.get()] returns during this call. *)
Definition commonNewData (alpha : Q) (fftBundle : fftBundle)
    (st : avg_state) : avg_state :=
  let buffer := bundle_buffer fftBundle in
  let bufferCenterFreq := bundle_freq fftBundle in
  let len := length buffer in
  let invAlpha := 1 - alpha in
  let st1 :=
    if must_reset st fftBundle
    then mkAvg (Some buffer) bufferCenterFreq
    else st in
  match averageBuffer st1 with
  | Some a =>
      mkAvg (Some (average_loop len 0 invAlpha alpha a buffer))
            (lastDrawnCenterFreq st1)
  | None => st1
  end.

(** [averageBuffer[i]], and the state after [n] deliveries of the same
    frame with the same coefficient. *)
Definition avg_at (st : avg_state) (i : nat) : Q :=
  match averageBuffer st with
  | Some a => nth i a 0
  | None => 0
  end.

Definition avg_length (st : avg_state) : option nat :=
  option_map (@length Q) (averageBuffer st).

Definition ingest_n (n : nat) (alpha : Q) (fftBundle : fftBundle)
    (st : avg_state) : avg_state :=
  Nat.iter n (commonNewData alpha fftBundle) st.

(** The raster backend, [build2D(...).newData] (lines 1006-1008). *)
Definition newData_2D (alpha : Q) (fftBundle : fftBundle)
    (st : avg_state) : avg_state :=
  commonNewData alpha fftBundle st.

(** The GPU backend keeps, besides the common variables, the texture
    width, the conversion buffer and the one-row luminance texture. *)
Record gl_state : Type := mkGL {
  gl_avg : avg_state;
  fftSize : nat;
  intConversionBuffer : option (list Z);
  bufferTexture : list Z
}.

(** [buildGL] leaves [fftSize = Math.max(1, config.target.get().length)]
    and the conversion buffer unset (lines 878, 919). *)
Definition gl_init (len : nat) : gl_state :=
  mkGL avg_init (Nat.max 1 len) None (repeat 0%Z (Nat.max 1 len)).

(** The loop of lines 941-943, storing into a [Uint8ClampedArray]; a read
    past the end of [averageBuffer] is [undefined], which makes NaN. *)
Fixpoint convert_loop (n i : nat) (cscale : Q)
    (averageBuffer : list Q) (out : list Z) : list Z :=
  match n with
  | O => out
  | S n' =>
      convert_loop n' (S i) cscale averageBuffer
        (store out i
           (JS.ToUint8Clamp
              (match nth_error averageBuffer i with
               | Some a => JS.Fin ((a - SpectrumView.minLevel) * cscale)
               | None => JS.NaN
               end)))
  end.

(** [buildGL(...).newData] (lines 922-955). *)
Definition newData_GL (alpha : Q) (fftBundle : fftBundle)
    (st : gl_state) : gl_state :=
  let buffer := bundle_buffer fftBundle in
  if (length buffer =? 0)%nat then st
  else
    let reconfigure :=
      negb (length buffer =? fftSize st)%nat
      || match intConversionBuffer st with None => true | Some _ => false end in
    let fftSize1 := if reconfigure then length buffer else fftSize st in
    let conv1 :=
      if reconfigure then repeat 0%Z fftSize1
      else match intConversionBuffer st with Some c => c | None => [] end in
    let avg1 := commonNewData alpha fftBundle (gl_avg st) in
    let cscale := 255 / (SpectrumView.maxLevel - SpectrumView.minLevel) in
    let conv2 :=
      convert_loop fftSize1 0 cscale
        (match averageBuffer avg1 with Some a => a | None => [] end) conv1 in
    mkGL avg1 fftSize1 (Some conv2) conv2.

End SpectrumPlot.

(** ** [WaterfallPlot] (widget.js, lines 1043-1504) *)

Module WaterfallPlot.

(** The gradient control points (lines 1049-1057). *)
Definition colors : list (list Q) :=
  [ [0; 0; 0];
    [0; 0; 255];
    [0; 200; 255];
    [255; 255; 0];
    [255; 0; 0] ].

Definition colorCountForScale : Q := inject_Z (Z.of_nat (length colors)) - 1.
Definition colorCountForIndex : Q := inject_Z (Z.of_nat (length colors)) - 2.

(** Line 1061, on the value already multiplied by [colorCountForScale]. *)
Definition colorIndex (scaled : JS.number) : JS.number :=
  JS.max (JS.Fin 0) (JS.min (JS.Fin colorCountForIndex) (JS.floor scaled)).

(** [colors[k]] for a number [k]; [None] is [undefined]. *)
Definition colors_at (k : JS.number) : option (list Q) :=
  match JS.array_index k with
  | Some i => nth_error colors i
  | None => None
  end.

(** [function interpolateColor(value, outArray, base)] (lines 1059-1070).
    [conv] is the element conversion of the typed array [outArray].  The
    result is [None] when reading a component of [color0] or [color1]
    throws a [TypeError] because the table lookup gave [undefined]; this
    happens before the first store. *)
Definition interpolateColor (conv : JS.number -> Z) (value : JS.number)
    (outArray : list Z) (base : nat) : option (list Z) :=
  let value := JS.mul value (JS.Fin colorCountForScale) in
  let colorIndex := colorIndex value in
  let colorInterp1 := JS.sub value colorIndex in
  let colorInterp0 := JS.sub (JS.Fin 1) colorInterp1 in
  match colors_at colorIndex, colors_at (JS.add colorIndex (JS.Fin 1)) with
  | Some color0, Some color1 =>
      let channel k :=
        JS.add (JS.mul (JS.Fin (nth k color0 0)) colorInterp0)
               (JS.mul (JS.Fin (nth k color1 0)) colorInterp1) in
      let a0 := store outArray base (conv (channel 0%nat)) in
      let a1 := store a0 (base + 1) (conv (channel 1%nat)) in
      let a2 := store a1 (base + 2) (conv (channel 2%nat)) in
      Some (store a2 (base + 3) (conv (JS.Fin 255)))
  | _, _ => None
  end.

(** Lines 1073-1075. *)
Definition historyCount (isCanvas : bool) (height : nat) : nat :=
  Nat.max 1024 (if isCanvas then height else 0).

(** What a draw reads from the view and from layout. *)
Record view : Type := mkView {
  viewCenterFreq : Q;       (* view.getCenterFreq() *)
  viewBandwidth : Q;        (* view.getBandwidth() *)
  canvas_offsetHeight : nat (* canvas.offsetHeight *)
}.

(** The canvas attributes and the flag [cleared], shared by both
    backends. *)
Record canvas : Type := mkCanvas {
  canvas_width : nat;
  canvas_height : nat;
  cleared : bool
}.

(** [function commonBeforeDraw(viewCenterFreq, draw)] (lines 1079-1091),
    as far as it changes the canvas attributes. *)
Definition commonBeforeDraw (hc : nat) (v : view) (c : canvas) : canvas :=
  let newHeight := Nat.min (canvas_offsetHeight v) hc in
  if (newHeight =? canvas_height c)%nat then c
  else mkCanvas (canvas_width c) newHeight true.

(** The view a draw sees, for a coordinate model [sv]. *)
Definition view_of (sv : SpectrumView.state) (offsetHeight : nat) : view :=
  mkView (SpectrumView.getCenterFreq sv) (SpectrumView.getBandwidth sv)
         offsetHeight.

(** The CSS box [commonBeforeDraw] gives the canvas (lines 1082-1083):
    [canvas.style.marginLeft] and [canvas.style.width], in pixels. *)
Definition style_marginLeft (sv : SpectrumView.state) : Q :=
  SpectrumView.freqToCSSLeft sv
    (SpectrumView.getCenterFreq sv - SpectrumView.getBandwidth sv / 2).

Definition style_width (sv : SpectrumView.state) : Q :=
  SpectrumView.freqToCSSLength sv (SpectrumView.getBandwidth sv).

(** The horizontal position both branches of the raster draw hand to
    [putImageData]: [Math.round(offset * offsetScale)] with
    [offset = sliceFreq - viewCenterFreq] (lines 1476-1477, 1485, 1493). *)
Definition paint_x (sliceFreq : JS.number) (viewCenterFreq : Q)
    (offsetScale : JS.number) : JS.number :=
  JS.Math_round
    (JS.mul (JS.sub sliceFreq (JS.Fin viewCenterFreq)) offsetScale).

(** *** The raster backend, [build2D] (lines 1408-1502) *)

Module Raster.

(** The canvas calls a draw makes, with the arguments it passes. *)
Inductive canvas_op : Type :=
| drawImage (sx sy sw sh dx dy dw dh : JS.number)
| putImageData (data : list Z) (dx : JS.number) (dy : JS.number)
| fillRect (x y w h : JS.number).

(** A slice is an [ImageData] (its bytes) paired with a centre
    frequency. *)
Definition slice : Type := (list Z * JS.number)%type.

Record state : Type := mkState {
  hc : nat;                       (* historyCount *)
  slices : list slice;
  slicePtr : nat;
  lastDrawnCenterFreq : JS.number;
  dataToDraw : option fftBundle;
  cv : canvas
}.

(** The variables as [build2D] leaves them. *)
Definition init (hc : nat) (c : canvas) : state :=
  mkState hc [] 0 JS.NaN None c.

(** Exceptions: [None] is a thrown [TypeError]. *)
Definition bind {A B : Type} (m : option A) (f : A -> option B) : option B :=
  match m with
  | Some a => f a
  | None => None
  end.

Notation "x <- m ;; k" := (bind m (fun x => k))
  (at level 61, m at next level, right associativity).
Notation "' p <- m ;; k" := (bind m (fun x => let p := x in k))
  (at level 61, p pattern, m at next level, right associativity).

(** Lines 1423-1440: the canvas is fitted, and a frame of another width
    empties the history. *)
Definition begin_draw (v : view) (st : state) : state :=
  let c1 := commonBeforeDraw (hc st) v (cv st) in
  match dataToDraw st with
  | Some d =>
      let w := length (bundle_buffer d) in
      if (canvas_width c1 =? w)%nat
      then mkState (hc st) (slices st) (slicePtr st)
             (lastDrawnCenterFreq st) (dataToDraw st) c1
      else mkState (hc st) [] 0
             (lastDrawnCenterFreq st) (dataToDraw st)
             (mkCanvas w (canvas_height c1) true)
  | None =>
      mkState (hc st) (slices st) (slicePtr st)
        (lastDrawnCenterFreq st) (dataToDraw st) c1
  end.

(** The slot the next frame is written to: a fresh one while the array is
    short of [historyCount], the one under [slicePtr] afterwards. *)
Definition write_cursor (st : state) : nat :=
  if (length (slices st) <? hc st)%nat then length (slices st)
  else slicePtr st.

(** Lines 1447-1456: the slot is chosen and tagged with the frame's
    centre frequency. *)
Definition take_slot (bufferCenterFreq : JS.number) (w : nat) (st : state)
    : option (state * nat) :=
  if (length (slices st) <? hc st)%nat then
    Some (mkState (hc st)
            (slices st ++ [(repeat 0%Z (w * 4), bufferCenterFreq)])
            (slicePtr st) (lastDrawnCenterFreq st) (dataToDraw st) (cv st),
          length (slices st))
  else
    record <- nth_error (slices st) (slicePtr st) ;;
    Some (mkState (hc st)
            (store (slices st) (slicePtr st) (fst record, bufferCenterFreq))
            (Z.to_nat (mod_Z (Z.of_nat (slicePtr st) + 1)
                             (Z.of_nat (hc st))))
            (lastDrawnCenterFreq st) (dataToDraw st) (cv st),
          slicePtr st).

(** The loop of lines 1463-1468 from column [x] for [n] more columns. *)
Fixpoint render_loop (n x : nat) (xScale cScale cZero : Q)
    (buffer : list Q) (data : list Z) : option (list Z) :=
  match n with
  | O => Some data
  | S n' =>
      let base := (x * 4)%nat in
      let i := JS.round (inject_Z (Z.of_nat x) * xScale) in
      let colorVal :=
        match (if (0 <=? i)%Z then nth_error buffer (Z.to_nat i) else None) with
        | Some b => JS.Fin (b * cScale + cZero)
        | None => JS.NaN
        end in
      data' <- interpolateColor JS.ToUint8Clamp colorVal data base ;;
      render_loop n' (S x) xScale cScale cZero buffer data'
  end.

(** Lines 1459-1468. *)
Definition render (buffer : list Q) (w : nat) (data : list Z)
    : option (list Z) :=
  let xScale := inject_Z (Z.of_nat (length buffer)) / inject_Z (Z.of_nat w) in
  let cScale := 1 / (SpectrumView.maxLevel - SpectrumView.minLevel) in
  let cZero := 1 - SpectrumView.maxLevel * cScale in
  render_loop w 0 xScale cScale cZero buffer data.

(** Lines 1447-1468: the slot's image is redrawn from the frame.  The
    image is shared with the array, so the slice changes with it. *)
Definition write_slice (d : fftBundle) (st : state)
    : option (state * list Z) :=
  let buffer := bundle_buffer d in
  let w := length buffer in
  '(st2, slot) <- take_slot (bundle_freq d) w st ;;
  record <- nth_error (slices st2) slot ;;
  data <- render buffer w (fst record) ;;
  Some (mkState (hc st2) (store (slices st2) slot (data, snd record))
          (slicePtr st2) (lastDrawnCenterFreq st2) (dataToDraw st2) (cv st2),
        data).

(** The loop of lines 1483-1494 with [i] counting down from [n - 1].
    It yields the calls made and the last value assigned to [y]. *)
Fixpoint repaint_loop (n : nat) (sliceCount : nat) (st : state)
    (vcf : Q) (offsetScale w : JS.number) (y0 : option nat)
    : option (list canvas_op * option nat) :=
  match n with
  | O => Some ([], y0)
  | S i =>
      sl <- nth_error (slices st)
              (Z.to_nat (mod_Z (Z.of_nat i + Z.of_nat (slicePtr st))
                               (Z.of_nat sliceCount))) ;;
      let y := (sliceCount - i)%nat in
      if (canvas_height (cv st) <=? y)%nat then Some ([], Some y)
      else
        '(ops, yl) <-
          repaint_loop i sliceCount st vcf offsetScale w (Some y) ;;
        Some (fillRect (JS.Fin 0) (JS.of_nat y) w (JS.Fin 1)
              :: putImageData (fst sl) (paint_x (snd sl) vcf offsetScale)
                              (JS.of_nat y)
              :: ops, yl)
  end.

(** Lines 1471-1499.  [drawn] is the frame being drawn with the image
    made from it, if there is one; [h] is the canvas height read on
    entry. *)
Definition paint (v : view) (h : nat) (drawn : option (fftBundle * list Z))
    (st : state) : option (state * list canvas_op) :=
  let vcf := viewCenterFreq v in
  let w := JS.of_undefined_or
             (option_map (fun d => length (bundle_buffer (fst d))) drawn) in
  let offsetScale := JS.div w (JS.Fin (viewBandwidth v)) in
  let finish last ops :=
    Some (mkState (hc st) (slices st) (slicePtr st) last None
            (mkCanvas (canvas_width (cv st)) (canvas_height (cv st)) false),
          ops) in
  let scrolling :=
    match drawn with
    | Some (d, ibuf) =>
        if JS.strict_eq (lastDrawnCenterFreq st) (JS.Fin vcf)
           && negb (cleared (cv st))
        then Some (d, ibuf) else None
    | None => None
    end in
  match scrolling with
  | Some (d, ibuf) =>
      (* scroll, then paint the newest slice *)
      let hm1 := JS.Fin (inject_Z (Z.of_nat h) - 1) in
      finish (lastDrawnCenterFreq st)
        [ drawImage (JS.Fin 0) (JS.Fin 0) w hm1
                    (JS.Fin 0) (JS.Fin 1) w hm1;
          putImageData ibuf (paint_x (bundle_freq d) vcf offsetScale)
                       (JS.Fin 0) ]
  | None =>
      if cleared (cv st)
         || JS.strict_neq (lastDrawnCenterFreq st) (JS.Fin vcf)
      then
        (* paint all slices onto the canvas *)
        let sliceCount := length (slices st) in
        '(ops, y) <-
          repaint_loop sliceCount sliceCount st vcf offsetScale w None ;;
        finish (JS.Fin vcf)
          (ops ++ [ fillRect (JS.Fin 0)
                      (JS.add (JS.of_undefined_or y) (JS.Fin 1))
                      w (JS.of_nat h) ])
      else finish (lastDrawnCenterFreq st) []
  end.

(** [performDraw] (lines 1422-1500). *)
Definition performDraw (v : view) (st : state)
    : option (state * list canvas_op) :=
  let h := canvas_height (cv st) in
  let st1 := begin_draw v st in
  match dataToDraw st1 with
  | Some d =>
      if (length (bundle_buffer d) =? 0)%nat
      then Some (st1, [])       (* [if (w === 0) return;] *)
      else
        '(st2, ibuf) <- write_slice d st1 ;;
        paint v h (Some (d, ibuf)) st2
  | None => paint v h None st1
  end.

(** [newData] (lines 1418-1421). *)
Definition newData (v : view) (fftBundle : fftBundle) (st : state)
    : option (state * list canvas_op) :=
  performDraw v
    (mkState (hc st) (slices st) (slicePtr st) (lastDrawnCenterFreq st)
       (Some fftBundle) (cv st)).

(** A run of deliveries, each with the view as it is at that moment. *)
Fixpoint run (fs : list (view * fftBundle)) (st : state) : option state :=
  match fs with
  | [] => Some st
  | (v, b) :: rest =>
      '(st', _) <- newData v b st ;;
      run rest st'
  end.

(** The history after the frames [fs], all of [w] bins: the write
    cursor has gone round [length fs] times one step, and each of the
    last [historyCount] frames has its centre frequency in the slot of
    its number. *)
Definition history_of (n w : nat) (fs : list (view * fftBundle))
    (st : state) : Prop :=
  hc st = n /\ dataToDraw st = None /\
  (fs <> [] -> canvas_width (cv st) = w) /\
  length (slices st) = Nat.min (length fs) n /\
  ((length fs < n)%nat -> slicePtr st = 0%nat) /\
  ((n <= length fs)%nat -> slicePtr st = (length fs mod n)%nat) /\
  write_cursor st = (length fs mod n)%nat /\
  forall j vb, nth_error fs j = Some vb ->
    (length fs <= j + n)%nat ->
    exists img, nth_error (slices st) (j mod n)
                = Some (img, bundle_freq (snd vb)).

End Raster.

(** *** The GPU backend, [buildGL] (lines 1106-1406) *)

Module GL.

(** A row of the data texture and a texel of the centre-frequency
    texture, in the float and in the byte format. *)
Inductive row : Type :=
| FloatRow (l : list Q)
| ByteRow (l : list Z).

Inductive freq_texel : Type :=
| FloatFreq (f : JS.number)
| ByteFreq (r g b a : Z).

Record state : Type := mkState {
  useFloatTexture : bool;
  hc : nat;                       (* historyCount *)
  fftSize : nat;
  bufferTexture : list row;
  historyFreqTexture : list freq_texel;
  slicePtr : nat;
  intConversionBuffer : option (list Z);
  cv : canvas
}.

(** [function configureTexture()] (lines 1225-1287): both textures are
    allocated anew. *)
Definition blank_rows (float : bool) (hc fftSize : nat) : list row :=
  if float then repeat (FloatRow (repeat (-100) fftSize)) hc
  else repeat (ByteRow (repeat 0%Z fftSize)) hc.

Definition blank_freqs (float : bool) (hc : nat) : list freq_texel :=
  if float then repeat (FloatFreq (JS.Fin (-1000000))) hc
  else repeat (ByteFreq 0 0 0 0) hc.

(** The variables as [buildGL] leaves them; [len] is
    [config.target.get().length]. *)
Definition init (float : bool) (hc len : nat) (c : canvas) : state :=
  let fftSize := Nat.max 1 len in
  mkState float hc fftSize (blank_rows float hc fftSize)
    (blank_freqs float hc) 0 None c.

(** The loop of lines 1358-1360, storing into a [Uint8ClampedArray]. *)
Fixpoint convert_loop (n i : nat) (cscale : Q)
    (buffer : list Q) (out : list Z) : list Z :=
  match n with
  | O => out
  | S n' =>
      convert_loop n' (S i) cscale buffer
        (store out i
           (JS.ToUint8Clamp
              (match nth_error buffer i with
               | Some b => JS.Fin ((b - SpectrumView.minLevel) * cscale)
               | None => JS.NaN
               end)))
  end.

(** Lines 1372-1375: the four bytes [(f >> k) & 0xFF], each stored into
    the [Uint8Array] [freqWriteBuffer]. *)
Definition freq_byte (f : JS.number) (k : Z) : Z :=
  JS.ToUint8
    (JS.Fin (inject_Z (Z.land (Z.shiftr (JS.ToInt32 f) k) 255))).

Definition pack_freq (float : bool) (f : JS.number) : freq_texel :=
  if float then FloatFreq f
  else ByteFreq (freq_byte f 0) (freq_byte f 8)
                (freq_byte f 16) (freq_byte f 24).

(** What the fragment shader reads back as [historyFreq]
    (lines 1135-1138). *)
Definition historyFreq (t : freq_texel) : JS.number :=
  match t with
  | FloatFreq f => f
  | ByteFreq r g b a =>
      JS.Fin (inject_Z (((a * 256 + b) * 256 + g) * 256 + r))
  end.

(** [newData] (lines 1307-1391). *)
Definition newData (fftBundle : fftBundle) (st : state) : state :=
  let buffer := bundle_buffer fftBundle in
  let bufferCenterFreq := bundle_freq fftBundle in
  if (length buffer =? 0)%nat then st
  else
    let float := useFloatTexture st in
    let reconfigure :=
      negb (length buffer =? fftSize st)%nat
      || (negb float
          && match intConversionBuffer st with
             | None => true
             | Some _ => false
             end) in
    let fftSize1 := if reconfigure then length buffer else fftSize st in
    let rows1 :=
      if reconfigure then blank_rows float (hc st) fftSize1
      else bufferTexture st in
    let freqs1 :=
      if reconfigure then blank_freqs float (hc st)
      else historyFreqTexture st in
    let conv1 :=
      if reconfigure
      then (if float then None else Some (repeat 0%Z fftSize1))
      else intConversionBuffer st in
    let cv1 :=
      if (canvas_width (cv st) =? fftSize1)%nat then cv st
      else mkCanvas fftSize1 (canvas_height (cv st)) true in
    let cscale := 255 / (SpectrumView.maxLevel - SpectrumView.minLevel) in
    let conv2 :=
      if float then conv1
      else Some (convert_loop fftSize1 0 cscale buffer
                   (match conv1 with Some c => c | None => [] end)) in
    let newRow :=
      if float then FloatRow buffer
      else ByteRow (match conv2 with Some c => c | None => [] end) in
    mkState float (hc st) fftSize1
      (store rows1 (slicePtr st) newRow)
      (store freqs1 (slicePtr st) (pack_freq float bufferCenterFreq))
      (Z.to_nat (mod_Z (Z.of_nat (slicePtr st) + 1) (Z.of_nat (hc st))))
      conv2 cv1.

(** A run of deliveries. *)
Definition run (fs : list fftBundle) (st : state) : state :=
  fold_left (fun s b => newData b s) fs st.

(** The row a frame leaves in the data texture: the magnitudes
    themselves, or their bytes. *)
Definition row_of (float : bool) (buffer : list Q) : row :=
  if float then FloatRow buffer
  else ByteRow
         (map (fun b =>
                 JS.ToUint8Clamp
                   (JS.Fin ((b - SpectrumView.minLevel)
                            * (255 / (SpectrumView.maxLevel
                                      - SpectrumView.minLevel)))))
              buffer).

(** The history after the frames [fs], all of [w] bins: the write cursor
    has gone round [length fs] times one step, and each of the last
    [historyCount] frames sits in the slot of its number. *)
Definition history_of (float : bool) (n w : nat) (fs : list fftBundle)
    (st : state) : Prop :=
  useFloatTexture st = float /\ hc st = n /\
  length (historyFreqTexture st) = n /\
  length (bufferTexture st) = n /\
  slicePtr st = (length fs mod n)%nat /\
  (fs <> [] ->
   fftSize st = w /\ (float = false -> intConversionBuffer st <> None)) /\
  (forall c, intConversionBuffer st = Some c -> length c = fftSize st) /\
  forall j b, nth_error fs j = Some b ->
    (length fs <= j + n)%nat ->
    nth_error (historyFreqTexture st) (j mod n)
      = Some (pack_freq float (bundle_freq b)) /\
    nth_error (bufferTexture st) (j mod n)
      = Some (row_of float (bundle_buffer b)).

(** The uniforms [beforeDraw] sets (lines 1392-1404). *)
Record uniforms : Type := mkUniforms {
  u_scroll : Q;
  u_yScale : Q;
  u_freqScale : Q;
  u_currentFreq : Q
}.

Definition beforeDraw (v : view) (st : state) : state * uniforms :=
  let c1 := commonBeforeDraw (hc st) v (cv st) in
  (mkState (useFloatTexture st) (hc st) (fftSize st) (bufferTexture st)
     (historyFreqTexture st) (slicePtr st) (intConversionBuffer st)
     (mkCanvas (canvas_width c1) (canvas_height c1) false),
   mkUniforms
     (inject_Z (Z.of_nat (slicePtr st)) / inject_Z (Z.of_nat (hc st)))
     (inject_Z (Z.of_nat (canvas_height c1)) / inject_Z (Z.of_nat (hc st)))
     (1 / viewBandwidth v)
     (viewCenterFreq v)).

(** The fragment shader (lines 1133-1149), for a fragment whose row
    holds the centre frequency [hFreq]: the horizontal texture coordinate
    it samples the data at, or [None] where it paints the fixed colour
    for "no data". *)
Definition fragment_shift (u : uniforms) (hFreq texLookup_x : Q) : Q :=
  let freqOffset := (u_currentFreq u - hFreq) * u_freqScale u in
  texLookup_x + freqOffset.

Definition fragment_sample (u : uniforms) (hFreq texLookup_x : Q)
    : option Q :=
  let shift := fragment_shift u hFreq texLookup_x in
  if Qlt_le_dec shift 0 then None
  else if Qlt_le_dec 1 shift then None
  else Some shift.

End GL.

End WaterfallPlot.

(** ** Sample inputs *)

Module Sample.

(** A one-megahertz-wide view centred on 100 MHz in a 500-pixel
    container, with nothing in storage. *)
Definition view : SpectrumView.state :=
  SpectrumView.new 1000000 100000000 2048 500 None None.

(** A view built from a stored zoom of one half. *)
Definition view_half_zoom : SpectrumView.state :=
  SpectrumView.new 1000000 100000000 2048 100 (Some (1 # 2)) (Some 0).

(** A view zoomed to 1.5 in a 100-pixel container. *)
Definition view_zoomed : SpectrumView.state :=
  SpectrumView.new 1000000 100000000 2048 100 (Some (3 # 2)) (Some (99 # 2)).

(** A stand-in for [Math.exp]: its Taylor polynomial of degree two. *)
Definition exp2 (x : Q) : Q := 1 + x + x * x / 2.

(** An average of two bins, last reset at 100 Hz. *)
Definition average : SpectrumPlot.avg_state :=
  SpectrumPlot.mkAvg (Some [1; 2]) (JS.Fin 100).

Definition canvas0 : WaterfallPlot.canvas :=
  WaterfallPlot.mkCanvas 300 150 true.

Definition view0 : WaterfallPlot.view := WaterfallPlot.mkView 100 1000 150.

(** A raster waterfall after one frame of two bins. *)
Definition raster_one : option WaterfallPlot.Raster.state :=
  WaterfallPlot.Raster.run
    [ (view0, mkBundle (JS.Fin 100) [-30; -20]) ]
    (WaterfallPlot.Raster.init 1024 canvas0).

(** A raster waterfall after a frame of two bins and one of three. *)
Definition raster_resized : option WaterfallPlot.Raster.state :=
  WaterfallPlot.Raster.run
    [ (view0, mkBundle (JS.Fin 100) [-30; -20]);
      (view0, mkBundle (JS.Fin 200) [-30; -20; -10]) ]
    (WaterfallPlot.Raster.init 1024 canvas0).

(** A byte-texture GPU waterfall after one frame at 100.5 Hz. *)
Definition gl_fractional : WaterfallPlot.GL.state :=
  WaterfallPlot.GL.newData (mkBundle (JS.Fin (201 # 2)) [-30; -20])
    (WaterfallPlot.GL.init false 1024 2 canvas0).

End Sample.

(** * Further parts of the file

    The drawing code of [SpectrumPlot], the shaders and the repaint of
    [WaterfallPlot], [ReceiverMarks], the digit entry of [Knob], the
    number spacing of [FreqScale], the [Map] shim and
    [VisibleItemCache].

    Numbers stay exact rationals, so a loop that adds a step repeatedly
    adds it without rounding.  Canvas calls are kept as the values they
    are given.  An element of the document is a record in a store, named
    by its index, so that the list of children and the map share it.
    For the shaders, a texture sampled with [gl.NEAREST] yields the texel
    whose cell contains the coordinate, and the viewport is the canvas.
    A thrown exception is [None], or a [Throw] where the code throws
    errors of its own. *)

From Stdlib Require Import Ascii Permutation.

(** ** Click-to-tune (widget.js, line 362) *)

Module ClickTune.

(** [var freq = (event.clientX + container.scrollLeft) / pixelsPerHertz + leftFreq;] *)
Definition freq (st : SpectrumView.state) (clientX : Q) : Q :=
  (clientX + SpectrumView.container_scrollLeft st)
    / SpectrumView.pixelsPerHertz st
  + SpectrumView.leftFreq st.

End ClickTune.

(** ** Drawing the spectrum plot (widget.js, lines 812-828, 956-1037) *)

Module PlotDraw.

(** [function freqToCoord(freq)] (lines 991-993, and again 1529-1531). *)
Definition freqToCoord (lvf rvf w freq : Q) : Q :=
  (freq - lvf) / (rvf - lvf) * w.

(** The drawing parameters [performDraw] sets (lines 1015-1028). *)
Record geometry : Type := mkGeometry {
  xZero : Q;
  xAfterLast : Q;
  xScale : Q;
  yScale : Q;
  yZero : Q;
  firstPoint : Z;
  afterLastPoint : Z
}.

(** Lines 1015-1028, for an average buffer of [len] bins on a canvas of
    [w] by [h] pixels; [lvf] and [rvf] are the visible frequencies
    [commonBeforeDraw] has read from the view. *)
Definition geometry_of (sv : SpectrumView.state) (w h : Q) (len : nat)
    : geometry :=
  let lvf := SpectrumView.leftVisibleFreq sv in
  let rvf := SpectrumView.rightVisibleFreq sv in
  let n := Z.of_nat len in
  let viewCenterFreq := SpectrumView.getCenterFreq sv in
  let bandwidth := SpectrumView.getBandwidth sv in
  let halfBinWidth := bandwidth / inject_Z n / 2 in
  let xZero :=
    freqToCoord lvf rvf w (viewCenterFreq - bandwidth / 2 + halfBinWidth) in
  let xAfterLast :=
    freqToCoord lvf rvf w (viewCenterFreq + bandwidth / 2 + halfBinWidth) in
  let xScale := (xAfterLast - xZero) / inject_Z n in
  let yScale := - h / (SpectrumView.maxLevel - SpectrumView.minLevel) in
  let yZero := - SpectrumView.maxLevel * yScale in
  (* choose points to draw *)
  let firstPoint := Z.max 0 (Qfloor (- xZero / xScale) - 1) in
  let afterLastPoint := Z.min n (Qceiling ((w - xZero) / xScale) + 1) in
  mkGeometry xZero xAfterLast xScale yScale yZero firstPoint afterLastPoint.

(** The loop of [path()] (lines 998-1000) from [i] for [n] more points:
    the points of the curve. *)
Fixpoint curve (n : nat) (i : nat) (g : geometry) (averageBuffer : list Q)
    : list (Q * Q) :=
  match n with
  | O => []
  | S n' =>
      (xZero g + inject_Z (Z.of_nat i) * xScale g,
       yZero g + nth i averageBuffer 0 * yScale g)
      :: curve n' (S i) g averageBuffer
  end.

(** [performDraw] of the raster backend (lines 1009-1037), as far as the
    curve goes.  [averageBuffer.length] throws a [TypeError] while the
    buffer is still [null]; [None] is that exception. *)
Definition performDraw (sv : SpectrumView.state) (w h : Q)
    (st : SpectrumPlot.avg_state) : option (geometry * list (Q * Q)) :=
  match SpectrumPlot.averageBuffer st with
  | None => None
  | Some averageBuffer =>
      let g := geometry_of sv w h (length averageBuffer) in
      Some (g,
            curve (Z.to_nat (afterLastPoint g - firstPoint g))
                  (Z.to_nat (firstPoint g)) g averageBuffer)
  end.

(** The uniforms of the GPU backend (lines 963-971) and the horizontal
    texture coordinate its vertex shader gives a vertex at clip
    coordinate [position_x] (lines 838-841). *)
Definition gl_xScale (sv : SpectrumView.state) : Q :=
  let viewCenterFreq := SpectrumView.getCenterFreq sv in
  let bandwidth := SpectrumView.getBandwidth sv in
  let lsf := viewCenterFreq - bandwidth / 2 in
  let rsf := viewCenterFreq + bandwidth / 2 in
  (SpectrumView.rightVisibleFreq sv - SpectrumView.leftVisibleFreq sv)
    / (rsf - lsf).

Definition gl_xZero (sv : SpectrumView.state) : Q :=
  let viewCenterFreq := SpectrumView.getCenterFreq sv in
  let bandwidth := SpectrumView.getBandwidth sv in
  let lsf := viewCenterFreq - bandwidth / 2 in
  let rsf := viewCenterFreq + bandwidth / 2 in
  (SpectrumView.leftVisibleFreq sv - lsf) / (rsf - lsf).

Definition vertex_x (sv : SpectrumView.state) (position_x : Q) : Q :=
  let basePos_x := (position_x + 1) / 2 in
  gl_xScale sv * basePos_x + gl_xZero sv.

(** What [buildGL] keeps true of its variables: the conversion buffer,
    once allocated (line 931), has [fftSize] elements. *)
Definition gl_wf (st : SpectrumPlot.gl_state) : Prop :=
  match SpectrumPlot.intConversionBuffer st with
  | Some c => length c = SpectrumPlot.fftSize st
  | None => True
  end.

End PlotDraw.

(** ** The raster waterfall between draws (widget.js, lines 1408-1502) *)

Module RasterInv.
Import WaterfallPlot.

(** What [build2D] keeps true of its ring between two calls: the array
    never outgrows [historyCount] and the cursor stays inside it. *)
Definition wf (st : Raster.state) : Prop :=
  (0 < Raster.hc st)%nat /\
  (length (Raster.slices st) <= Raster.hc st)%nat /\
  (Raster.slicePtr st < Raster.hc st)%nat.

(** The full repaint of lines 1482-1494, as [paint] runs it. *)
Definition repaint (st : Raster.state) (vcf : Q) (offsetScale w : JS.number)
    : option (list Raster.canvas_op * option nat) :=
  let sliceCount := length (Raster.slices st) in
  Raster.repaint_loop sliceCount sliceCount st vcf offsetScale w None.

End RasterInv.

(** ** The shaders of the GPU waterfall (widget.js, lines 1113-1149, 1164-1165) *)

Module WaterfallShader.
Import WaterfallPlot.

(** GLSL's [mod(x, y)], which is [x - y * floor(x / y)]. *)
Definition glsl_mod (x y : Q) : Q := x - y * inject_Z (Qfloor (x / y)).

(** The vertex shader (lines 1120-1122), vertical component:
    [unitPos = (position.xy + vec2(1.0)) / 2.0],
    [scalePos = 1.0 - (1.0 - unitPos) * vec2(1.0, yScale)],
    [v_position = scalePos + vec2(0.0, scroll)]. *)
Definition unitPos (position : Q) : Q := (position + 1) / 2.

Definition scalePos_y (u : GL.uniforms) (position_y : Q) : Q :=
  1 - (1 - unitPos position_y) * GL.u_yScale u.

Definition v_position_y (u : GL.uniforms) (position_y : Q) : Q :=
  scalePos_y u position_y + GL.u_scroll u.

(** The fragment shader, line 1134: [texLookup = mod(v_position, 1.0)]. *)
Definition texLookup_y (u : GL.uniforms) (position_y : Q) : Q :=
  glsl_mod (v_position_y u position_y) 1.

(** Both history textures are sampled with [gl.NEAREST] (lines 1164-1165):
    of [size] rows, the one whose cell contains the coordinate. *)
Definition nearest (size : nat) (coord : Q) : nat :=
  Z.to_nat (Qfloor (coord * inject_Z (Z.of_nat size))).

(** The clip-space height of a point in row [k] of a canvas of [height]
    rows, counted from the top, at the fraction [f] of the way down the
    row; the viewport is the canvas. *)
Definition row_position (height k : nat) (f : Q) : Q :=
  1 - 2 * (inject_Z (Z.of_nat k) + f) / inject_Z (Z.of_nat height).

End WaterfallShader.

(** ** [ReceiverMarks] (widget.js, lines 1506-1628) *)

Module ReceiverMarks.

(** [function freqToCoord(freq)] (lines 1529-1531), the same text as in
    [SpectrumPlot]. *)
Definition freqToCoord : Q -> Q -> Q -> Q -> Q := PlotDraw.freqToCoord.

(** What [draw] puts on the canvas, horizontally: the strokes of
    [drawHair], the rectangles of [drawBand], and the squelch line with
    its height. *)
Inductive mark : Type :=
| hair (x : Q)
| band (x width : Q)
| squelch_line (l r : Q) (y : JS.number).

(** [function drawHair(freq)] (lines 1532-1539). *)
Definition drawHair (lvf rvf w freq : Q) : mark :=
  let x := freqToCoord lvf rvf w freq in
  hair (inject_Z (Qfloor x) + (1 # 2)).

(** [function drawBand(freq1, freq2)] (lines 1540-1544). *)
Definition drawBand (lvf rvf w freq1 freq2 : Q) : mark :=
  let x1 := freqToCoord lvf rvf w freq1 in
  let x2 := freqToCoord lvf rvf w freq2 in
  band x1 (x2 - x1).

(** A [band_filter_shape] value, and what [draw] reads of a receiver;
    [None] is a cell the demodulator does not have. *)
Record band_filter : Type := mkFilter {
  low : Q;
  high : Q;
  width : Q
}.

Record receiver : Type := mkReceiver {
  rec_freq : Q;
  band_filter_shape : option band_filter;
  squelch_threshold : option Q
}.

(** Lines 1601-1606. *)
Definition squelch_span (squelchL squelchR : Q) : Q * Q :=
  let minSquelchHairWidth := 30 in
  if Qlt_le_dec (squelchR - squelchL) minSquelchHairWidth then
    let squelchMid := (squelchR + squelchL) / 2 in
    (squelchMid - minSquelchHairWidth / 2, squelchMid + minSquelchHairWidth / 2)
  else (squelchL, squelchR).

(** One pass of the loop body (lines 1570-1615), text apart.
    [band_filter_now] is a [var], so it belongs to the function and not
    to the iteration: it keeps its value when the receiver has no
    [band_filter_shape]. *)
Definition draw_receiver (lvf rvf w : Q) (yZero yScale : JS.number)
    (band_filter_now : option band_filter) (r : receiver)
    : option band_filter * list mark :=
  let rec_freq_now := rec_freq r in
  let band_filter_now :=
    match band_filter_shape r with
    | Some f => Some f
    | None => band_filter_now
    end in
  let bands :=
    match band_filter_now with
    | Some f =>
        let fl := low f in
        let fh := high f in
        let fhw := width f / 2 in
        [ drawBand lvf rvf w (rec_freq_now + fl - fhw) (rec_freq_now + fh + fhw);
          drawBand lvf rvf w (rec_freq_now + fl + fhw) (rec_freq_now + fh - fhw) ]
    | None => []
    end in
  let squelch_marks :=
    match squelch_threshold r with
    | Some threshold =>
        let squelch :=
          JS.add (JS.floor (JS.add yZero (JS.mul (JS.Fin threshold) yScale)))
                 (JS.Fin (1 # 2)) in
        let ends :=
          match band_filter_now with
          | Some f =>
              (freqToCoord lvf rvf w (rec_freq_now + low f),
               freqToCoord lvf rvf w (rec_freq_now + high f))
          | None => (0, w)
          end in
        let span := squelch_span (fst ends) (snd ends) in
        [ squelch_line (fst span) (snd span) squelch ]
    | None => []
    end in
  (band_filter_now,
   bands ++ squelch_marks ++ [ drawHair lvf rvf w rec_freq_now ]).

(** The loop of lines 1569-1623. *)
Fixpoint draw_receivers (lvf rvf w : Q) (yZero yScale : JS.number)
    (band_filter_now : option band_filter) (receivers : list receiver)
    : list mark :=
  match receivers with
  | [] => []
  | r :: rest =>
      let '(now, marks) :=
        draw_receiver lvf rvf w yZero yScale band_filter_now r in
      marks ++ draw_receivers lvf rvf w yZero yScale now rest
  end.

(** [function draw()] (lines 1546-1624).  [h] is the variable [h] on
    entry, NaN for [undefined]: [yScale] is computed (line 1550) before
    [h] is assigned (line 1555).  The result is the marks and the new
    [h]. *)
Definition draw (sv : SpectrumView.state) (offsetWidth offsetHeight : Q)
    (receivers : list receiver) (h : JS.number) : list mark * JS.number :=
  let lvf := SpectrumView.leftVisibleFreq sv in
  let rvf := SpectrumView.rightVisibleFreq sv in
  let yScale :=
    JS.div (JS.neg h)
      (JS.Fin (SpectrumView.maxLevel - SpectrumView.minLevel)) in
  let yZero := JS.mul (JS.neg (JS.Fin SpectrumView.maxLevel)) yScale in
  let w := offsetWidth in
  (drawHair lvf rvf w (SpectrumView.getCenterFreq sv)
     :: draw_receivers lvf rvf w yZero yScale None receivers,
   JS.Fin offsetHeight).

(** [canvas.style.marginLeft] (line 1553, and line 819 of
    [SpectrumPlot]), in pixels. *)
Definition style_marginLeft (sv : SpectrumView.state) : Q :=
  SpectrumView.freqToCSSLeft sv (SpectrumView.leftVisibleFreq sv).

End ReceiverMarks.

(** ** [Knob]: typing a digit (widget.js, lines 1630-1757) *)

Module Knob.

(** The knob's value: a finite number as sign and magnitude, which keeps
    [-0] apart from [0] as the handler does (line 1741). *)
Record number : Type := mkNumber {
  negative : bool;
  magnitude : Q
}.

Definition of_Q (q : Q) : number :=
  if Qlt_le_dec q 0 then mkNumber true (- q) else mkNumber false q.

Definition neg (v : number) : number :=
  mkNumber (negb (negative v)) (magnitude v).

(** [parseInt(ch, 10)] of a one-character string; [None] is NaN. *)
Definition parseInt (ch : ascii) : option Z :=
  let c := Z.of_nat (nat_of_ascii ch) in
  if ((48 <=? c) && (c <=? 57))%Z then Some (c - 48)%Z else None.

Section Target.

(** [type.round] when the target's type is a [values.Range], which is
    defined in another file; [None] when it is not a range. *)
Variable type_round : option (number -> Z -> number).

(** [function clamp(value, direction)] (lines 1635-1641). *)
Definition clamp (value : number) (direction : Z) : number :=
  match type_round with
  | Some round => round value direction
  | None => value
  end.

(** The 'keypress' listener of the digit at place [i] (lines 1720-1757):
    the value it hands to [target.set], or [None] when it returns without
    setting one.  [scale] is [Math.pow(10, i)]. *)
Definition keypress (i : nat) (ch : ascii) (value : number) : option number :=
  if ((ch =? "-") || (ch =? "_"))%char then
    Some (mkNumber true (magnitude value))     (* -Math.abs(value) *)
  else if ((ch =? "+") || (ch =? "="))%char then
    Some (mkNumber false (magnitude value))    (* Math.abs(value) *)
  else
    match parseInt ch with
    | None => None
    | Some input =>
        let scale := inject_Z (10 ^ Z.of_nat i) in
        let negative := negative value in
        (* if (negative) { value = -value; } *)
        let value := magnitude value in
        let currentDigitValue :=
          if Qeq_bool scale 1
          then JS.rem (value / scale) 10
          else JS.rem (inject_Z (Qfloor (value / scale))) 10 in
        let value := of_Q (value + (inject_Z input - currentDigitValue) * scale) in
        let value := if negative then neg value else value in
        Some (clamp value 0)
    end.

End Target.

(** The decimal digit of a magnitude at place [j]. *)
Definition digit_at (j : nat) (m : Q) : Z :=
  (Qfloor (m / inject_Z (10 ^ Z.of_nat j)) mod 10)%Z.

End Knob.

(** ** [FreqScale]: the numbers of the scale (widget.js, lines 1912-2047) *)

Module FreqScale.

Definition labelWidth : Q := 60.
Definition scale_coarse : Q := 10.
Definition scale_fine1 : Q := 4.
Definition scale_fine2 : Q := 2.

(** Line 2010; [bandwidth] is [states.input_rate]. *)
Definition MinHzPerLabel (sv : SpectrumView.state) : Q :=
  SpectrumView.radio_input_rate sv * labelWidth
    / SpectrumView.getTotalPixelWidth sv.

(** The loop of lines 2015-2017, for [n] more tests of its condition.
    A number stops being finite once it passes 1.8e308, so the loop
    multiplies at most 309 times; [None] is the step [Infinity] it ends
    with then. *)
Fixpoint widen (n : nat) (step Min : Q) : option Q :=
  match n with
  | O => None
  | S n' =>
      if Qlt_le_dec step Min then widen n' (step * scale_coarse) Min
      else Some step
  end.

(** Lines 2019-2023. *)
Definition narrow (step Min : Q) : Q :=
  if Qlt_le_dec Min (step / scale_fine1) then step / scale_fine1
  else if Qlt_le_dec Min (step / scale_fine2) then step / scale_fine2
  else step.

(** Lines 2012-2023. *)
Definition choose_step (Min : Q) : option Q :=
  match widen 309 1 Min with
  | Some step => Some (narrow step Min)
  | None => None
  end.

(** The loop of lines 2025-2029: the keys handed to [numberCache.add],
    with [sanity] tests left. *)
Fixpoint ticks (sanity : nat) (i upper step : Q) : list Q :=
  match sanity with
  | O => []
  | S sanity' =>
      if Qle_bool i upper then i :: ticks sanity' (i + step) upper step
      else []
  end.

Definition numbers (lower upper step : Q) : list Q :=
  ticks 1000 (lower - mod_ lower step) upper step.

End FreqScale.

(** ** The [Map] shim (widget.js, lines 1828-1871) *)

Module MapShim.

Section Shim.

Variable K V : Type.
Variable K_eq_dec : forall x y : K, {x = y} + {x <> y}.

(** [_keys] and [_values] are pushed to and cut back together, so the two
    arrays are kept as one list of pairs, in array order. *)
Definition t : Type := list (K * V).

(** [new Map()] *)
Definition empty : t := [].

(** [this._keys.indexOf(key)]; [None] is [-1]. *)
Fixpoint indexOf (m : t) (key : K) : option nat :=
  match m with
  | [] => None
  | (k, _) :: rest =>
      if K_eq_dec k key then Some 0%nat
      else option_map S (indexOf rest key)
  end.

(** [Map.prototype.delete] (lines 1833-1847): the last entry is moved
    into the gap and both arrays lose their last element. *)
Definition delete (m : t) (key : K) : t * bool :=
  match indexOf m key with
  | Some i =>
      let last := (length m - 1)%nat in
      let m1 :=
        if (i <? last)%nat then
          match nth_error m last with
          | Some e => store m i e
          | None => m
          end
        else m in
      (firstn last m1, true)
  | None => (m, false)
  end.

(** [Map.prototype.get] (lines 1848-1855); [None] is [undefined]. *)
Definition get (m : t) (key : K) : option V :=
  match indexOf m key with
  | Some i => option_map snd (nth_error m i)
  | None => None
  end.

(** [Map.prototype.set] (lines 1856-1864). *)
Definition set (m : t) (key : K) (value : V) : t :=
  match indexOf m key with
  | Some i =>
      match nth_error m i with
      | Some e => store m i (fst e, value)
      | None => m
      end
  | None => m ++ [(key, value)]
  end.

(** The [size] getter (lines 1865-1869). *)
Definition size (m : t) : nat := length m.

(** No key is stored twice. *)
Definition wf (m : t) : Prop := NoDup (map fst m).

End Shim.

Arguments empty {K V}.
Arguments indexOf {K V} K_eq_dec m key.
Arguments delete {K V} K_eq_dec m key.
Arguments get {K V} K_eq_dec m key.
Arguments set {K V} K_eq_dec m key value.
Arguments size {K V} m.
Arguments wf {K V} m.

End MapShim.

(** ** [VisibleItemCache] (widget.js, lines 1875-1910) *)

Module VisibleItemCache.

(** What a call ends in: a result, or one of the errors thrown. *)
Inductive error : Type :=
| oops
| oops3
| TypeError.

Inductive outcome (A : Type) : Type :=
| Return (a : A)
| Throw (e : error).

Arguments Return {A} a.
Arguments Throw {A} e.

Section Cache.

Variable K : Type.
Variable K_eq_dec : forall x y : K, {x = y} + {x <> y}.

(** [maker(key)]: whether it returns an element, or something falsy. *)
Variable maker : K -> bool.

(** The properties of an element the cache reads and writes.  Elements
    are objects shared between [parent.childNodes] and the map, so they
    live in a store and are referred to by their index in it. *)
Record element : Type := mkElement {
  my_cacheKey : K;
  my_inUse : bool;
  parentNode : bool       (* whether [element.parentNode] is set *)
}.

Record state : Type := mkState {
  heap : list element;
  childNodes : list nat;            (* parent.childNodes, in order *)
  cache : MapShim.t K nat;
  count : nat
}.

(** [new VisibleItemCache(parent, maker)] on a parent without children. *)
Definition init : state := mkState [] [] MapShim.empty 0.

(** [this.add] (lines 1879-1894).  The result is the element returned,
    [None] for [undefined]. *)
Definition add (key : K) (st : state) : outcome (state * option nat) :=
  let count1 := S (count st) in
  match MapShim.get K_eq_dec (cache st) key with
  | Some id =>
      match nth_error (heap st) id with
      | Some e =>
          if parentNode e then
            Return
              (mkState
                 (store (heap st) id
                    (mkElement (my_cacheKey e) true (parentNode e)))
                 (childNodes st) (cache st) count1,
               Some id)
          else Throw oops
      | None => Throw TypeError
      end
  | None =>
      if maker key then
        let id := length (heap st) in
        Return
          (mkState (heap st ++ [mkElement key true true])
             (childNodes st ++ [id])
             (MapShim.set K_eq_dec (cache st) key id) count1,
           Some id)
      else Return (mkState (heap st) (childNodes st) (cache st) count1, None)
  end.

(** [parent.removeChild(active[i])] on the list of children. *)
Definition remove_nth (i : nat) (l : list nat) : list nat :=
  firstn i l ++ skipn (S i) l.

(** One pass of the loop body of [flush] (lines 1898-1905).  The test of
    line 1903 applies [in] to [false] and never throws. *)
Definition flush_step (i : nat) (st : state) : outcome state :=
  match nth_error (childNodes st) i with
  | Some id =>
      match nth_error (heap st) id with
      | Some e =>
          if my_inUse e then
            Return
              (mkState
                 (store (heap st) id
                    (mkElement (my_cacheKey e) false (parentNode e)))
                 (childNodes st) (cache st) (count st))
          else
            Return
              (mkState
                 (store (heap st) id
                    (mkElement (my_cacheKey e) (my_inUse e) false))
                 (remove_nth i (childNodes st))
                 (fst (MapShim.delete K_eq_dec (cache st) (my_cacheKey e)))
                 (count st))
      | None => Throw TypeError
      end
  | None => Throw TypeError
  end.

(** The loop of line 1897, with [i] counting down from [n - 1]. *)
Fixpoint flush_loop (n : nat) (st : state) : outcome state :=
  match n with
  | O => Return st
  | S i =>
      match flush_step i st with
      | Return st' => flush_loop i st'
      | Throw e => Throw e
      end
  end.

(** [this.flush] (lines 1895-1909). *)
Definition flush (st : state) : outcome state :=
  match flush_loop (length (childNodes st)) st with
  | Return st' =>
      if negb (length (childNodes st') =? count st')%nat
         || negb (length (childNodes st') =? MapShim.size (cache st'))%nat
      then Throw oops3
      else Return (mkState (heap st') (childNodes st') (cache st') 0)
  | Throw e => Throw e
  end.

(** A run of [add] calls, as a draw makes them before it calls
    [flush]. *)
Fixpoint adds (keys : list K) (st : state) : outcome state :=
  match keys with
  | [] => Return st
  | key :: rest =>
      match add key st with
      | Return (st', _) => adds rest st'
      | Throw e => Throw e
      end
  end.

(** One cycle of a draw: the keys are added, then [flush] runs. *)
Definition cycle (keys : list K) (st : state) : outcome state :=
  match adds keys st with
  | Return st' => flush st'
  | Throw e => Throw e
  end.

(** [element.my_inUse] for the element at [id]. *)
Definition in_use (st : state) (id : nat) : bool :=
  match nth_error (heap st) id with
  | Some e => my_inUse e
  | None => false
  end.

(** The state between two draws: the children are attached elements,
    each registered in the map under its own key and no other element
    is, none is marked as in use, and [count] is 0. *)
Definition consistent (st : state) : Prop :=
  NoDup (childNodes st) /\
  (forall id, In id (childNodes st) ->
     exists e, nth_error (heap st) id = Some e /\ parentNode e = true) /\
  MapShim.wf (cache st) /\
  Permutation (map snd (cache st)) (childNodes st) /\
  (forall k id, In (k, id) (cache st) ->
     exists e, nth_error (heap st) id = Some e /\ my_cacheKey e = k).

Definition idle (st : state) : Prop :=
  consistent st /\ count st = 0%nat /\
  forall id, In id (childNodes st) -> in_use st id = false.

(** A key for which [add] can return an element: one that is cached
    already, or one [maker] accepts. *)
Definition accepted (st : state) (key : K) : Prop :=
  MapShim.get K_eq_dec (cache st) key <> None \/ maker key = true.

(** The state in the middle of a draw that started idle in [st0] and has
    called [add] for [keys] so far: the elements in use are those whose
    key was added, the map has grown by the keys [maker] accepted, the
    elements of [st0] are still registered, and [count] is ahead of the
    number of elements in use unless every call was for a fresh accepted
    key. *)
Definition during (st0 : state) (keys : list K) (st : state) : Prop :=
  consistent st /\
  count st = length keys /\
  (forall id e, In id (childNodes st) -> nth_error (heap st) id = Some e ->
     (my_inUse e = true <-> In (my_cacheKey e) keys)) /\
  (forall k, In k (map fst (cache st)) <->
     In k (map fst (cache st0)) \/ (In k keys /\ maker k = true)) /\
  (forall k id, In (k, id) (cache st0) -> In (k, id) (cache st)) /\
  (length (filter (in_use st) (childNodes st)) <= count st)%nat /\
  (length (filter (in_use st) (childNodes st)) = count st <->
   NoDup keys /\ Forall (accepted st0) keys).

End Cache.

Arguments mkElement {K} my_cacheKey my_inUse parentNode.
Arguments my_cacheKey {K} e.
Arguments my_inUse {K} e.
Arguments parentNode {K} e.
Arguments mkState {K} heap childNodes cache count.
Arguments heap {K} s.
Arguments childNodes {K} s.
Arguments cache {K} s.
Arguments count {K} s.
Arguments init {K}.
Arguments add {K} K_eq_dec maker key st.
Arguments flush_step {K} K_eq_dec i st.
Arguments flush_loop {K} K_eq_dec n st.
Arguments flush {K} K_eq_dec st.
Arguments adds {K} K_eq_dec maker keys st.
Arguments cycle {K} K_eq_dec maker keys st.
Arguments in_use {K} st id.
Arguments consistent {K} st.
Arguments idle {K} st.
Arguments accepted {K} K_eq_dec maker st key.
Arguments during {K} K_eq_dec maker st0 keys st.

End VisibleItemCache.

(** ** Further sample inputs *)

Module Example.

(** A frame of two bins whose centre frequency is not known. *)
Definition frame_nan : fftBundle := mkBundle JS.NaN [3; 4].

(** A frame of three bins, and one of two. *)
Definition frame3 : fftBundle := mkBundle (JS.Fin 200) [7; 8; 9].
Definition frame2 : fftBundle := mkBundle (JS.Fin 100) [10; -70].

(** The GPU plot as [buildGL] leaves it for a cell of two bins. *)
Definition gl_plot : SpectrumPlot.gl_state := SpectrumPlot.gl_init 2.

(** A raster waterfall as [build2D] leaves it. *)
Definition raster : WaterfallPlot.Raster.state :=
  WaterfallPlot.Raster.init 1024 Sample.canvas0.

(** The frames of a short run, for the raster and for the GPU. *)
Definition raster_frames : list (WaterfallPlot.view * fftBundle) :=
  [ (Sample.view0, mkBundle (JS.Fin 100) [-30; -20]);
    (Sample.view0, mkBundle (JS.Fin 101) [-31; -21]) ].

Definition gl_frames : list fftBundle :=
  [ mkBundle (JS.Fin 100) [-30; -20]; mkBundle (JS.Fin 101) [-31; -21] ].

Definition gl_waterfall : WaterfallPlot.GL.state :=
  WaterfallPlot.GL.run gl_frames
    (WaterfallPlot.GL.init true 1024 2 Sample.canvas0).

(** A receiver with a band filter, followed by one without. *)
Definition filter : ReceiverMarks.band_filter :=
  ReceiverMarks.mkFilter (-3000) 3000 1000.

Definition with_filter : ReceiverMarks.receiver :=
  ReceiverMarks.mkReceiver 100000000 (Some filter) (Some (-40)).

Definition without_filter : ReceiverMarks.receiver :=
  ReceiverMarks.mkReceiver 100200000 None None.

(** A knob showing 1234. *)
Definition knob_value : Knob.number := Knob.mkNumber false 1234.

(** A map with one entry, and a cache whose [maker] accepts every key. *)
Definition one_entry : MapShim.t Z nat := [(5%Z, 0%nat)].

Definition accept_all (key : Z) : bool := true.

End Example.
(** * Properties *)

(** Case analysis on the boolean comparisons of indices in a goal. *)
Ltac case_bounds :=
  repeat match goal with
  | |- context [(?a <=? ?b)%nat] => destruct (Nat.leb_spec a b)
  | |- context [(?a <? ?b)%nat] => destruct (Nat.ltb_spec a b)
  end;
  simpl; try reflexivity; try lia.


(** ** Arithmetic of [%] and [mod] *)

Section RemFacts.

Lemma Qtrunc_nonneg (x : Q) : 0 <= x -> JS.Qtrunc x = Qfloor x.
Proof.
  intros H. unfold JS.Qtrunc.
  destruct (Z.leb_spec 0 (Qnum x)) as [_|Hn]; [reflexivity|].
  exfalso. unfold Qle in H. simpl in H. lia.
Qed.

Lemma Qtrunc_neg (x : Q) : x < 0 -> JS.Qtrunc x = Qceiling x.
Proof.
  intros H. unfold JS.Qtrunc.
  destruct (Z.leb_spec 0 (Qnum x)) as [Hn|_]; [|reflexivity].
  exfalso. unfold Qlt in H. simpl in H. lia.
Qed.

(** The truncated quotient is within one of the quotient, on its side
    of zero. *)
Lemma Qtrunc_bounds (x : Q) :
  (0 <= x -> inject_Z (JS.Qtrunc x) <= x /\ x < inject_Z (JS.Qtrunc x) + 1) /\
  (x < 0 -> inject_Z (JS.Qtrunc x) - 1 < x /\ x <= inject_Z (JS.Qtrunc x)).
Proof.
  split; intros H.
  - rewrite (Qtrunc_nonneg _ H). split; [apply Qfloor_le|].
    generalize (Qlt_floor x). rewrite inject_Z_plus. trivial.
  - rewrite (Qtrunc_neg _ H). split; [|apply Qle_ceiling].
    generalize (Qceiling_lt x).
    unfold Z.sub. rewrite inject_Z_plus. trivial.
Qed.

Lemma rem_quotient (n d : Q) :
  ~ d == 0 -> JS.rem n d == d * (n / d - inject_Z (JS.Qtrunc (n / d))).
Proof. intros Hd. unfold JS.rem. field. exact Hd. Qed.

Lemma rem_nonneg_range (n d : Q) :
  0 <= n -> 0 < d -> 0 <= JS.rem n d /\ JS.rem n d < d.
Proof.
  intros Hn Hd.
  assert (Hq : 0 <= n / d).
  { apply Qle_shift_div_l; [exact Hd|]. lra. }
  destruct (Qtrunc_bounds (n / d)) as [Hb _]. specialize (Hb Hq).
  rewrite rem_quotient by lra.
  set (q := n / d) in *. set (t := inject_Z (JS.Qtrunc q)) in *.
  split; nra.
Qed.

Lemma rem_range (n d : Q) :
  0 < d -> - d < JS.rem n d /\ JS.rem n d < d.
Proof.
  intros Hd.
  destruct (Qlt_le_dec n 0) as [Hn|Hn].
  - assert (Hq : n / d < 0).
    { apply Qlt_shift_div_r; [exact Hd|]. lra. }
    destruct (Qtrunc_bounds (n / d)) as [_ Hb]. specialize (Hb Hq).
    rewrite rem_quotient by lra.
    set (q := n / d) in *. set (t := inject_Z (JS.Qtrunc q)) in *.
    split; nra.
  - destruct (rem_nonneg_range n d Hn Hd). split; lra.
Qed.

Lemma mod_range (v m : Q) : 0 < m -> 0 <= mod_ v m /\ mod_ v m < m.
Proof.
  intros Hm. unfold mod_.
  destruct (rem_range v m Hm) as [Hlo _].
  apply rem_nonneg_range; lra.
Qed.

Lemma inject_Z_sign (a : Z) :
  ((0 < a)%Z -> 0 < inject_Z a) /\ ((0 <= a)%Z -> 0 <= inject_Z a) /\
  ((a < 0)%Z -> inject_Z a < 0).
Proof. unfold Qlt, Qle; simpl; lia. Qed.

Lemma Qtrunc_inject_div (a b : Z) :
  (0 < b)%Z -> JS.Qtrunc (inject_Z a / inject_Z b) = Z.quot a b.
Proof.
  intros Hb.
  assert (Hb' : 0 < inject_Z b) by (apply inject_Z_sign; exact Hb).
  destruct (Z_lt_le_dec a 0) as [Ha|Ha].
  - rewrite Qtrunc_neg.
    + unfold Qceiling.
      assert (E : - (inject_Z a / inject_Z b) == inject_Z (- a) / inject_Z b).
      { rewrite inject_Z_opp. field. lra. }
      rewrite E, <- Zdiv_Qdiv.
      rewrite <- (Z.opp_involutive a) at 2.
      rewrite Z.quot_opp_l by lia.
      rewrite Z.quot_div_nonneg by lia. reflexivity.
    + apply Qlt_shift_div_r; [exact Hb'|].
      rewrite Qmult_0_l. apply inject_Z_sign. exact Ha.
  - rewrite Qtrunc_nonneg.
    + rewrite <- Zdiv_Qdiv. rewrite Z.quot_div_nonneg by lia. reflexivity.
    + apply Qle_shift_div_l; [exact Hb'|].
      rewrite Qmult_0_l. apply inject_Z_sign. exact Ha.
Qed.

Lemma rem_inject_Z (a b : Z) :
  (0 < b)%Z -> JS.rem (inject_Z a) (inject_Z b) == inject_Z (JS.remZ a b).
Proof.
  intros Hb. unfold JS.rem, JS.remZ.
  rewrite Qtrunc_inject_div by exact Hb.
  rewrite (Z.rem_eq a b) by lia.
  unfold Z.sub. rewrite inject_Z_plus, inject_Z_opp, inject_Z_mult. ring.
Qed.

Lemma mod_Z_is_modulo (v m : Z) : (0 < m)%Z -> mod_Z v m = (v mod m)%Z.
Proof.
  intros Hm. unfold mod_Z, JS.remZ.
  assert (Hr : (- m < Z.rem v m < m)%Z).
  { generalize (Z.rem_bound_pos_pos (Z.abs v) m), (Z.rem_abs_l v m), (Z.abs_nonneg v). lia. }
  rewrite (Z.rem_mod_nonneg (Z.rem v m + m) m) by lia.
  rewrite Z.add_mod by lia. rewrite Z.mod_same by lia. rewrite Z.add_0_r.
  rewrite Z.mod_mod by lia.
  rewrite (Z.rem_eq v m) by lia.
  replace (v - m * Z.quot v m)%Z with (v + (- Z.quot v m) * m)%Z by ring.
  apply Z.mod_add. lia.
Qed.

#[global] Instance Qtrunc_comp : Proper (Qeq ==> eq) JS.Qtrunc.
Proof.
  intros x y E.
  destruct (Qlt_le_dec x 0) as [H|H].
  - rewrite (Qtrunc_neg x H), (Qtrunc_neg y) by (rewrite <- E; exact H).
    unfold Qceiling. rewrite E. reflexivity.
  - rewrite (Qtrunc_nonneg x H), (Qtrunc_nonneg y) by (rewrite <- E; exact H).
    rewrite E. reflexivity.
Qed.

#[global] Instance rem_comp : Proper (Qeq ==> Qeq ==> Qeq) JS.rem.
Proof.
  intros n n' En d d' Ed. unfold JS.rem.
  assert (Et : JS.Qtrunc (n / d) = JS.Qtrunc (n' / d')).
  { apply Qtrunc_comp. rewrite En, Ed. reflexivity. }
  rewrite Et, En, Ed. reflexivity.
Qed.

#[global] Instance mod_comp : Proper (Qeq ==> Qeq ==> Qeq) mod_.
Proof.
  intros v v' Ev m m' Em. unfold mod_. rewrite Ev, Em. reflexivity.
Qed.

Lemma mod_inject_Z (v m : Z) :
  (0 < m)%Z -> mod_ (inject_Z v) (inject_Z m) == inject_Z (mod_Z v m).
Proof.
  intros Hm. unfold mod_, mod_Z.
  rewrite (rem_inject_Z v m Hm), <- inject_Z_plus.
  apply rem_inject_Z. exact Hm.
Qed.

(** Claim C9.  For every value [v] and every modulus [m > 0], [mod(v, m)]
    lies in [[0, m)], also when [v] is negative.  At integer arguments
    the result is the integer [i mod n] of floored division, so a slot
    index [mod(slicePtr + 1, historyCount)] or [mod(i + slicePtr,
    sliceCount)] is a whole number in [[0, n)], inside the array. *)
Theorem mod_in_range (v m : Q) :
  0 < m ->
  (0 <= mod_ v m /\ mod_ v m < m) /\
  (forall i n : Z, v == inject_Z i -> m == inject_Z n ->
     mod_ v m == inject_Z (mod_Z i n) /\
     mod_Z i n = (i mod n)%Z /\ (0 <= mod_Z i n < n)%Z).
Proof.
  intros Hm. split; [apply mod_range; exact Hm|].
  intros i n Hv Hn.
  assert (Hn' : (0 < n)%Z).
  { rewrite Hn in Hm. unfold Qlt in Hm. simpl in Hm. lia. }
  split; [|split].
  - rewrite Hv, Hn. apply mod_inject_Z. exact Hn'.
  - apply mod_Z_is_modulo. exact Hn'.
  - rewrite mod_Z_is_modulo by exact Hn'. apply Z.mod_pos_bound. exact Hn'.
Qed.

(** The operator [%] alone does leave the range on a negative value. *)
Example rem_negative : JS.rem (-1) 1024 == -1 /\ mod_ (-1) 1024 == 1023.
Proof. split; reflexivity. Qed.


End RemFacts.

(** ** The coordinate model *)

Section ViewFacts.
Import SpectrumView.

(** A view of 500 pixels over 1 MHz around 100 MHz, unzoomed, shows
    99.5 MHz to 100.5 MHz and has the centre at pixel 250. *)
Example sample_view_span :
  leftVisibleFreq Sample.view == 99500000 /\
  rightVisibleFreq Sample.view == 100500000 /\
  freqToCSSLeft Sample.view 100000000 == 250.
Proof. repeat split. Qed.

Lemma clamp_id (lo hi x : Q) : lo <= x -> x <= hi -> Qmin hi (Qmax lo x) == x.
Proof.
  intros H1 H2. rewrite (Q.max_r lo x H1). apply Q.min_r. exact H2.
Qed.

Lemma clamp_range (lo hi x : Q) :
  lo <= hi -> lo <= Qmin hi (Qmax lo x) /\ Qmin hi (Qmax lo x) <= hi.
Proof.
  intros H. split.
  - apply Q.min_glb; [exact H|apply Q.le_max_l].
  - apply Q.le_min_l.
Qed.

Lemma clamp_range' (lo hi x : Q) :
  lo <= hi -> lo <= Qmax lo (Qmin hi x) /\ Qmax lo (Qmin hi x) <= hi.
Proof.
  intros H. split.
  - apply Q.le_max_l.
  - apply Q.max_lub; [exact H|apply Q.le_min_l].
Qed.

Lemma maxZoom_ge_1 st : 1 <= maxZoom st.
Proof. unfold maxZoom. apply Q.le_max_l. Qed.

(** Claim C2.  After [changeZoom(delta, cursorX)], whatever [delta] is,
    the zoom is at least 1 and at most
    [max(1, bandwidth / 100000, totalBins / 60)]. *)
Theorem changeZoom_zoom_bounds (Math_exp : Q -> Q) (st : state) (delta cursorX : Q) :
  let st' := changeZoom Math_exp st delta cursorX in
  1 <= zoom st' /\
  zoom st' <=
    Qmax 1 (Qmax (bandwidth st / 100000)
                 (inject_Z (radio_spectrum_fft_length st) / 60)).
Proof.
  simpl. apply (clamp_range 1 (maxZoom st)). apply maxZoom_ge_1.
Qed.

Lemma prepared_fields st :
  prepared st ->
  bandwidth st = radio_input_rate st /\
  centerFreq st = radio_source_freq st /\
  leftFreq st = radio_source_freq st - radio_input_rate st / 2 /\
  pixelWidth st = container_offsetWidth st /\
  pixelsPerHertz st = container_offsetWidth st / radio_input_rate st * zoom st /\
  cacheScrollLeft st = container_scrollLeft st.
Proof.
  unfold prepared. intros H.
  repeat split; rewrite <- H at 1; reflexivity.
Qed.


Lemma clamp_id' (lo hi x : Q) : lo <= x -> x <= hi -> Qmax lo (Qmin hi x) == x.
Proof.
  intros H1 H2. rewrite (Q.min_r hi x H2). apply Q.max_r. exact H1.
Qed.

Lemma cursorFreq_affine (st : state) (x : Q) :
  ~ pixelWidth st == 0 -> ~ pixelsPerHertz st == 0 ->
  cursorFreq st x ==
  leftFreq st + (cacheScrollLeft st + fractionalScroll st + x) / pixelsPerHertz st.
Proof.
  intros HW Hp.
  unfold cursorFreq, freqAtFraction, cursor01, leftVisibleFreq, rightVisibleFreq.
  field. split; assumption.
Qed.

Lemma changeZoom_virtualScroll (Math_exp : Q -> Q) (st : state) (delta x : Q) :
  let st1 := zoomed Math_exp st delta in
  virtualScroll (changeZoom Math_exp st delta x) ==
  Qmax 0 (Qmin (pixelWidth st1 * zoom st1 - pixelWidth st1)
               (rawScroll Math_exp st delta x)).
Proof. unfold virtualScroll, changeZoom. cbn. ring. Qed.


Lemma rawScroll_anchor (Math_exp : Q -> Q) (st : state) (delta x : Q) :
  prepared st ->
  ~ pixelWidth st == 0 -> ~ bandwidth st == 0 -> ~ zoom st == 0 ->
  ~ zoom (zoomed Math_exp st delta) == 0 ->
  rawScroll Math_exp st delta x + x ==
  (virtualScroll st + x) * (zoom (zoomed Math_exp st delta) / zoom st).
Proof.
  intros Hp HW HB Hz Hz1.
  destruct (prepared_fields st Hp) as (Eb & Ec & El & Ew & Ep & Es).
  unfold rawScroll, freqAtFraction, cursor01, leftVisibleFreq, rightVisibleFreq,
    virtualScroll.
  set (z1 := zoom (zoomed Math_exp st delta)) in *.
  change (pixelsPerHertz (zoomed Math_exp st delta))
    with (container_offsetWidth st / radio_input_rate st * z1).
  change (leftFreq (zoomed Math_exp st delta))
    with (radio_source_freq st - radio_input_rate st / 2).
  change (cacheScrollLeft (zoomed Math_exp st delta)) with (container_scrollLeft st).
  change (pixelWidth (zoomed Math_exp st delta)) with (container_offsetWidth st).
  change (container_scrollLeft (zoomed Math_exp st delta)) with (container_scrollLeft st).
  change (fractionalScroll (zoomed Math_exp st delta)) with (fractionalScroll st).
  rewrite Ep, El, Es. rewrite Ew in *. rewrite Eb in *.
  field. repeat split; assumption.
Qed.

Lemma changeZoom_anchor_exact (Math_exp : Q -> Q) (st : state) (delta cursorX : Q) :
  prepared st ->
  0 < pixelWidth st -> 0 < bandwidth st -> 1 <= zoom st ->
  zoom_not_clamped Math_exp st delta ->
  scroll_not_clamped Math_exp st delta cursorX ->
  cursorFreq (run_enqueued (changeZoom Math_exp st delta cursorX)) cursorX
  == cursorFreq st cursorX.
Proof.
  intros Hp HW HB Hz [Hz1 Hz2] [Hs1 Hs2].
  assert (Ezoom : zoom (zoomed Math_exp st delta) == rawZoom Math_exp st delta).
  { simpl. apply clamp_id; assumption. }
  pose proof (changeZoom_virtualScroll Math_exp st delta cursorX) as Ev.
  cbv zeta in Ev. rewrite (clamp_id' _ _ _ Hs1 Hs2) in Ev.
  assert (Ha := rawScroll_anchor Math_exp st delta cursorX Hp).
  destruct (prepared_fields st Hp) as (Eb & Ec & El & Ew & Ep & Es).
  set (z1 := zoom (zoomed Math_exp st delta)) in *.
  assert (Hz1' : 0 < z1) by lra.
  rewrite <- Ev in Ha.
  set (st' := changeZoom Math_exp st delta cursorX) in *.
  assert (Hpph : pixelsPerHertz st == pixelWidth st / bandwidth st * zoom st).
  { rewrite Ep, Ew, Eb. reflexivity. }
  assert (Hpph' : pixelsPerHertz (run_enqueued st') ==
                  pixelWidth st / bandwidth st * z1).
  { cbn. rewrite Ew, Eb. reflexivity. }
  assert (HWB : 0 < pixelWidth st / bandwidth st).
  { apply Qlt_shift_div_l; lra. }
  assert (Hp0 : 0 < pixelsPerHertz st) by (rewrite Hpph; nra).
  assert (Hp1 : 0 < pixelsPerHertz (run_enqueued st')) by (rewrite Hpph'; nra).
  assert (HW' : pixelWidth (run_enqueued st') = pixelWidth st).
  { cbn. symmetry. exact Ew. }
  rewrite !cursorFreq_affine by (rewrite ?HW'; lra).
  assert (El' : leftFreq (run_enqueued st') = leftFreq st).
  { cbn. symmetry. exact El. }
  assert (Evs : cacheScrollLeft (run_enqueued st') + fractionalScroll (run_enqueued st')
                == virtualScroll st').
  { cbn. reflexivity. }
  rewrite El', Evs, Hpph', Hpph.
  unfold virtualScroll in Ha at 2. rewrite <- Es in Ha.
  rewrite Ha by lra.
  field. repeat split; lra.
Qed.

(** Claim C1.  For a viewport of width [W > 0], a bandwidth [B > 0] and a
    zoom of at least 1, if [changeZoom(delta, x)] clamps neither the zoom
    nor the scroll, the frequency the coordinate model puts under pixel
    [x] once the scheduled recompute has run is the one it put there
    before the call: exactly so in this arithmetic, hence within a
    relative tolerance of [1e-6]. *)
Theorem changeZoom_anchor (Math_exp : Q -> Q) (st : state) (delta cursorX : Q) :
  prepared st ->
  0 < pixelWidth st -> 0 < bandwidth st -> 1 <= zoom st ->
  zoom_not_clamped Math_exp st delta ->
  scroll_not_clamped Math_exp st delta cursorX ->
  let before := cursorFreq st cursorX in
  let after :=
    cursorFreq (run_enqueued (changeZoom Math_exp st delta cursorX)) cursorX in
  after == before /\
  Qabs (after - before) <= (1 # 1000000) * Qabs before.
Proof.
  intros Hp HW HB Hz Hzc Hsc before after.
  assert (E : after == before)
    by (apply changeZoom_anchor_exact; assumption).
  split; [exact E|].
  assert (E0 : after - before == 0) by (rewrite E; ring).
  rewrite E0. simpl Qabs at 1.
  apply Qmult_le_0_compat; [discriminate|apply Qabs_nonneg].
Qed.

(** [changeZoom] leaves the virtual scroll position inside its range,
    whatever it was before. *)
Lemma changeZoom_scroll_in_range (Math_exp : Q -> Q) (st : state) (delta cursorX : Q) :
  ~ radio_input_rate st == 0 -> 0 <= container_offsetWidth st ->
  scroll_in_range (changeZoom Math_exp st delta cursorX).
Proof.
  intros HB HW. unfold scroll_in_range.
  rewrite changeZoom_virtualScroll. cbv zeta.
  set (st1 := zoomed Math_exp st delta).
  assert (Hz : 1 <= zoom st1).
  { apply (clamp_range 1 (maxZoom st)). apply maxZoom_ge_1. }
  assert (Hw : pixelWidth st1 = container_offsetWidth st) by reflexivity.
  assert (Hr : 0 <= pixelWidth st1 * zoom st1 - pixelWidth st1).
  { rewrite Hw. nra. }
  assert (Et : getTotalPixelWidth (changeZoom Math_exp st delta cursorX)
                 - getVisiblePixelWidth (changeZoom Math_exp st delta cursorX)
               == pixelWidth st1 * zoom st1 - pixelWidth st1).
  { unfold getTotalPixelWidth, getVisiblePixelWidth, changeZoom. cbn.
    fold st1. field. exact HB. }
  rewrite Et. apply clamp_range'. exact Hr.
Qed.

(** Claim C8, at construction.  A stored zoom of one half is taken as it
    is (line 236 has no clamp), the stub is half the container wide, and
    the virtual scroll position 0 is above the upper end
    [totalPixelWidth - visiblePixelWidth = -50] of its range. *)
Theorem construction_leaves_scroll_range :
  let st := Sample.view_half_zoom in
  zoom st == 1 # 2 /\
  virtualScroll st == 0 /\
  getTotalPixelWidth st - getVisiblePixelWidth st == - (50) /\
  ~ scroll_in_range st.
Proof.
  cbv zeta. split; [reflexivity|]. split; [reflexivity|]. split; [reflexivity|].
  intros [_ H]. vm_compute in H. apply H. reflexivity.
Qed.

(** A scroll event keeps the stored fraction: scrolling the zoomed sample
    view to its last whole pixel, 50, gives the virtual position 50.5. *)
Example scroll_event_leaves_scroll_range :
  scroll_in_range Sample.view_zoomed /\
  ~ scroll_in_range (on_scroll 50 Sample.view_zoomed).
Proof.
  split.
  - split; vm_compute; discriminate.
  - intros [_ H]. vm_compute in H. apply H. reflexivity.
Qed.

End ViewFacts.

(** ** Arrays *)

Section StoreFacts.
Context {A : Type}.

Lemma store_length (a : list A) i v : length (store a i v) = length a.
Proof.
  revert i; induction a as [|h t IH]; intros [|j]; simpl; auto.
Qed.

Lemma nth_store_same (a : list A) i v d :
  (i < length a)%nat -> nth i (store a i v) d = v.
Proof.
  revert i; induction a as [|h t IH]; intros [|j] H; simpl in *; try lia; auto.
  apply IH. lia.
Qed.

Lemma nth_store_other (a : list A) i j v d :
  i <> j -> nth j (store a i v) d = nth j a d.
Proof.
  revert i j; induction a as [|h t IH]; intros [|i] [|j] H; simpl; auto; try lia.
Qed.

Lemma store_out_of_range (a : list A) i v :
  (length a <= i)%nat -> store a i v = a.
Proof.
  revert i; induction a as [|h t IH]; intros [|j] H; simpl in *; auto; try lia.
  f_equal. apply IH. lia.
Qed.
End StoreFacts.

(** ** The averaging stage *)

Section AveragingFacts.
Import SpectrumPlot.


Lemma average_loop_length n : forall i ia al a b,
  length (average_loop n i ia al a b) = length a.
Proof.
  induction n as [|n IH]; intros; simpl; [reflexivity|].
  rewrite IH. apply store_length.
Qed.

Lemma average_loop_nth n : forall i ia al a b j,
  (i + n <= length a)%nat ->
  nth j (average_loop n i ia al a b) 0 =
  if (i <=? j)%nat && (j <? i + n)%nat
  then nth j a 0 * ia + nth j b 0 * al
  else nth j a 0.
Proof.
  induction n as [|n IH]; intros i ia al a b j H; simpl.
  - case_bounds.
  - rewrite IH by (rewrite store_length; lia).
    destruct (Nat.eq_dec i j) as [->|Hne].
    + rewrite nth_store_same by lia. case_bounds.
    + rewrite !nth_store_other by exact Hne. case_bounds.
Qed.

(** With a coefficient of one half, a first frame of 10 is taken as it
    is, and a frame of 0 at the same frequency then halves it. *)
Example first_frames :
  let st1 := commonNewData (1 # 2) (mkBundle (JS.Fin 100) [10]) avg_init in
  let st2 := commonNewData (1 # 2) (mkBundle (JS.Fin 100) [0]) st1 in
  avg_at st1 0 == 10 /\ avg_at st2 0 == 5.
Proof. split; reflexivity. Qed.

Lemma commonNewData_reset alpha b st :
  must_reset st b = true ->
  commonNewData alpha b st =
  mkAvg (Some (average_loop (length (bundle_buffer b)) 0 (1 - alpha) alpha
                 (bundle_buffer b) (bundle_buffer b)))
        (bundle_freq b).
Proof. intros H. unfold commonNewData. rewrite H. reflexivity. Qed.

Lemma commonNewData_blend alpha b st a :
  must_reset st b = false -> averageBuffer st = Some a ->
  commonNewData alpha b st =
  mkAvg (Some (average_loop (length (bundle_buffer b)) 0 (1 - alpha) alpha
                 a (bundle_buffer b)))
        (lastDrawnCenterFreq st).
Proof. intros H Ha. unfold commonNewData. rewrite H, Ha. reflexivity. Qed.

Lemma must_reset_freq_change st b :
  JS.strict_neq (lastDrawnCenterFreq st) (bundle_freq b) = true ->
  JS.isNaN (bundle_freq b) = false ->
  must_reset st b = true.
Proof.
  intros H1 H2. unfold must_reset. rewrite H1, H2.
  destruct (averageBuffer st); [apply orb_true_r|reflexivity].
Qed.

(** Claim C3.  When [commonNewData] receives a frame whose centre
    frequency is not NaN and differs from [lastDrawnCenterFreq], the
    average buffer afterwards has the frame's length and equals the
    frame's magnitudes in every bin: nothing of the old buffer is blended
    in. *)
Theorem reset_on_frequency_change (alpha : Q) (b : fftBundle) (st : avg_state) :
  JS.strict_neq (lastDrawnCenterFreq st) (bundle_freq b) = true ->
  JS.isNaN (bundle_freq b) = false ->
  let st' := commonNewData alpha b st in
  avg_length st' = Some (length (bundle_buffer b)) /\
  forall i, (i < length (bundle_buffer b))%nat ->
    avg_at st' i == nth i (bundle_buffer b) 0.
Proof.
  intros H1 H2 st'. subst st'.
  rewrite (commonNewData_reset _ _ _ (must_reset_freq_change _ _ H1 H2)).
  unfold avg_length, avg_at. simpl. split.
  - rewrite average_loop_length. reflexivity.
  - intros i Hi. rewrite average_loop_nth by (simpl; lia).
    destruct (Nat.ltb_spec i (0 + length (bundle_buffer b))); [|simpl in *; lia].
    simpl. ring.
Qed.

Lemma Qpower_succ (r : Q) (n : nat) :
  r ^ Z.of_nat (S n) == r ^ Z.of_nat n * r.
Proof.
  rewrite Nat2Z.inj_succ. unfold Z.succ.
  rewrite Qpower_plus' by lia. reflexivity.
Qed.

(** Bernoulli's bound, which gives the rate of the decay. *)
Lemma decay_bound (alpha : Q) (n : nat) :
  0 < alpha -> alpha <= 1 ->
  0 <= (1 - alpha) ^ Z.of_nat n /\
  (1 - alpha) ^ Z.of_nat n * (1 + inject_Z (Z.of_nat n) * alpha) <= 1.
Proof.
  intros H0 H1. induction n as [|n [IHp IH]].
  - cbn. change (inject_Z 0) with 0. split; lra.
  - rewrite Qpower_succ. rewrite Nat2Z.inj_succ. unfold Z.succ.
    rewrite inject_Z_plus.
    set (p := (1 - alpha) ^ Z.of_nat n) in *.
    set (k := inject_Z (Z.of_nat n)) in *.
    assert (Hk : 0 <= k).
    { unfold k. change 0 with (inject_Z 0). rewrite <- Zle_Qle. lia. }
    change (inject_Z 1) with 1.
    split; [apply Qmult_le_0_compat; lra|].
    assert (Hy : 0 <= (1 + k * alpha) - (1 - alpha) * (1 + (k + 1) * alpha)).
    { assert (0 <= alpha * alpha * (k + 1)).
      { repeat apply Qmult_le_0_compat; lra. }
      lra. }
    pose proof (Qmult_le_0_compat _ _ IHp Hy) as Hz.
    lra.
Qed.

Lemma ingest_n_succ n alpha b st :
  ingest_n (S n) alpha b st = commonNewData alpha b (ingest_n n alpha b st).
Proof. reflexivity. Qed.

Lemma blend_keeps_shape alpha b st a :
  must_reset st b = false -> averageBuffer st = Some a ->
  let st' := commonNewData alpha b st in
  must_reset st' b = false /\
  exists a', averageBuffer st' = Some a' /\ length a' = length a.
Proof.
  intros Hr Ha st'. subst st'.
  rewrite (commonNewData_blend _ _ _ _ Hr Ha).
  unfold must_reset in *. rewrite Ha in Hr. simpl.
  rewrite average_loop_length. split; [exact Hr|].
  eexists; split; [reflexivity|apply average_loop_length].
Qed.

Lemma ingest_n_shape n alpha b st a :
  must_reset st b = false -> averageBuffer st = Some a ->
  must_reset (ingest_n n alpha b st) b = false /\
  exists a', averageBuffer (ingest_n n alpha b st) = Some a' /\
             length a' = length a.
Proof.
  intros Hr Ha. induction n as [|n (IHr & a' & IHa & IHl)].
  - split; [exact Hr|]. exists a. split; [exact Ha|reflexivity].
  - rewrite ingest_n_succ.
    destruct (blend_keeps_shape alpha b _ a' IHr IHa) as (Hr' & a'' & Ha'' & Hl'').
    split; [exact Hr'|]. exists a''. split; [exact Ha''|congruence].
Qed.

Lemma must_reset_false_length st b a :
  must_reset st b = false -> averageBuffer st = Some a ->
  length a = length (bundle_buffer b).
Proof.
  unfold must_reset. intros H Ha. rewrite Ha in H.
  apply orb_false_elim in H. destruct H as [H _].
  apply negb_false_iff, Nat.eqb_eq in H. exact H.
Qed.

Lemma blend_at alpha b st i :
  must_reset st b = false ->
  (i < length (bundle_buffer b))%nat ->
  avg_at (commonNewData alpha b st) i =
  avg_at st i * (1 - alpha) + nth i (bundle_buffer b) 0 * alpha.
Proof.
  intros Hr Hi.
  destruct (averageBuffer st) as [a|] eqn:Ha.
  - rewrite (commonNewData_blend _ _ _ _ Hr Ha).
    pose proof (must_reset_false_length _ _ _ Hr Ha) as Hl.
    unfold avg_at. rewrite Ha. simpl.
    rewrite average_loop_nth by lia.
    destruct (Nat.ltb_spec i (0 + length (bundle_buffer b))); [reflexivity|simpl in *; lia].
  - unfold must_reset in Hr. rewrite Ha in Hr. discriminate.
Qed.

Lemma constant_frame_error (n : nat) alpha b st v i :
  bundle_buffer b = repeat v (length (bundle_buffer b)) ->
  must_reset st b = false ->
  (i < length (bundle_buffer b))%nat ->
  avg_at (ingest_n n alpha b st) i - v ==
  (avg_at st i - v) * (1 - alpha) ^ Z.of_nat n.
Proof.
  intros Hb Hr Hi. induction n as [|n IH].
  - simpl. ring.
  - rewrite ingest_n_succ.
    destruct (averageBuffer st) as [a|] eqn:Ha.
    2:{ unfold must_reset in Hr. rewrite Ha in Hr. discriminate. }
    destruct (ingest_n_shape n alpha b st a Hr Ha) as (Hr' & _).
    rewrite (blend_at _ _ _ _ Hr' Hi), Qpower_succ.
    assert (Hv : nth i (bundle_buffer b) 0 = v).
    { rewrite Hb. apply nth_repeat_lt. exact Hi. }
    rewrite Hv.
    set (x := avg_at (ingest_n n alpha b st) i) in *.
    assert (E : x * (1 - alpha) + v * alpha - v == (x - v) * (1 - alpha)) by ring.
    rewrite E, IH. ring.
Qed.


End AveragingFacts.

(** ** The colour gradient *)

Section ColourFacts.
Import WaterfallPlot.

Lemma array_index_integer (p : Q) (k : Z) :
  p == inject_Z k -> (0 <= k)%Z -> JS.array_index (JS.Fin p) = Some (Z.to_nat k).
Proof.
  intros E Hk. unfold JS.array_index.
  assert (Ef : Qfloor p = k) by (rewrite E; apply Qfloor_Z).
  rewrite Ef.
  assert (Eb : Qeq_bool p (inject_Z k) = true) by (apply Qeq_bool_iff; exact E).
  rewrite Eb. destruct (Z.leb_spec 0 k); [reflexivity|lia].
Qed.

Lemma colorIndex_finite (q : Q) :
  exists k : nat, (k <= 3)%nat /\
    JS.array_index (colorIndex (JS.Fin q)) = Some k /\
    JS.array_index (JS.add (colorIndex (JS.Fin q)) (JS.Fin 1)) = Some (S k).
Proof.
  unfold colorIndex. cbn [JS.floor JS.min JS.max JS.add].
  set (z := Qfloor q).
  set (c := Qmax 0 (Qmin colorCountForIndex (inject_Z z))).
  assert (Hc : exists k : Z, (0 <= k <= 3)%Z /\ c == inject_Z k).
  { subst c.
    assert (E3 : colorCountForIndex == inject_Z 3) by reflexivity.
    destruct (Q.min_spec colorCountForIndex (inject_Z z)) as [[Hm Em]|[Hm Em]];
      destruct (Q.max_spec 0 (Qmin colorCountForIndex (inject_Z z))) as [[Hx Ex]|[Hx Ex]].
    - exists 3%Z. split; [lia|]. rewrite Ex, Em. exact E3.
    - exists 0%Z. split; [lia|]. rewrite Ex. reflexivity.
    - exists z. split; [|rewrite Ex, Em; reflexivity].
      rewrite Em in Hx. rewrite E3 in Hm.
      change 0 with (inject_Z 0) in Hx.
      rewrite <- Zlt_Qlt in Hx. rewrite <- Zle_Qle in Hm. lia.
    - exists 0%Z. split; [lia|]. rewrite Ex. reflexivity. }
  destruct Hc as (k & Hk & Ek).
  exists (Z.to_nat k). split; [lia|].
  rewrite (array_index_integer c k Ek) by lia.
  assert (Ek1 : c + 1 == inject_Z (k + 1)).
  { rewrite inject_Z_plus, Ek. reflexivity. }
  rewrite (array_index_integer (c + 1) (k + 1) Ek1) by lia.
  replace (Z.to_nat (k + 1)) with (S (Z.to_nat k)) by lia.
  split; reflexivity.
Qed.

(** The value scaled by [colorCountForScale] has the index of a finite
    number, unless it is NaN. *)
Lemma scaled_index (value : JS.number) :
  JS.isNaN value = false ->
  exists q, colorIndex (JS.mul value (JS.Fin colorCountForScale))
            = colorIndex (JS.Fin q).
Proof.
  intros Hv. destruct value as [q| | |]; try discriminate.
  - exists (q * colorCountForScale). reflexivity.
  - exists 3. reflexivity.
  - exists 0. reflexivity.
Qed.

(** On every number but NaN the clamp keeps both table reads inside the
    table, and the fourth store is 255. *)
Lemma interpolateColor_defined (conv : JS.number -> Z) (value : JS.number)
    (outArray : list Z) (base : nat) :
  JS.isNaN value = false ->
  exists out, interpolateColor conv value outArray base = Some out /\
    length out = length outArray /\
    ((base + 3 < length outArray)%nat -> nth (base + 3) out 0%Z = conv (JS.Fin 255)).
Proof.
  intros Hv. unfold interpolateColor, colors_at.
  destruct (scaled_index value Hv) as (q & Eq). rewrite Eq.
  destruct (colorIndex_finite q) as (k & Hk & E0 & E1).
  rewrite E0, E1.
  assert (H0 : exists c0, nth_error colors k = Some c0).
  { destruct (nth_error colors k) eqn:E; [eauto|].
    apply nth_error_None in E. simpl in E. lia. }
  assert (H1 : exists c1, nth_error colors (S k) = Some c1).
  { destruct (nth_error colors (S k)) eqn:E; [eauto|].
    apply nth_error_None in E. simpl in E. lia. }
  destruct H0 as (c0 & ->). destruct H1 as (c1 & ->).
  eexists. split; [reflexivity|]. split.
  - rewrite !store_length. reflexivity.
  - intros Hb. apply nth_store_same. rewrite !store_length. exact Hb.
Qed.

(** Claim C10, amended.  For every value that is not NaN, finite or
    infinite, below 0 or above 1, the index is a whole number in
    [[0, colors.length - 2]], both table reads succeed, and the call
    stores 255 in the fourth byte, in a [Uint8Array] and in a
    [Uint8ClampedArray] alike. *)
Theorem interpolateColor_clamps (value : JS.number) (outArray : list Z) (base : nat) :
  JS.isNaN value = false ->
  (exists k : nat,
     JS.array_index (colorIndex (JS.mul value (JS.Fin colorCountForScale)))
       = Some k /\
     (k <= length colors - 2)%nat /\
     nth_error colors k <> None /\ nth_error colors (S k) <> None) /\
  (forall conv, conv = JS.ToUint8 \/ conv = JS.ToUint8Clamp ->
     exists out, interpolateColor conv value outArray base = Some out /\
       length out = length outArray /\
       ((base + 3 < length outArray)%nat -> nth (base + 3) out 0%Z = 255%Z)).
Proof.
  intros Hv. split.
  - destruct (scaled_index value Hv) as (q & Eq). rewrite Eq.
    destruct (colorIndex_finite q) as (k & Hk & E0 & _).
    exists k. split; [exact E0|]. split; [simpl; lia|].
    split; apply nth_error_Some; simpl; lia.
  - intros conv Hc.
    destruct (interpolateColor_defined conv value outArray base Hv)
      as (out & Eo & Hl & Ha).
    exists out. split; [exact Eo|]. split; [exact Hl|].
    intros Hb. rewrite (Ha Hb). destruct Hc as [-> | ->]; reflexivity.
Qed.



(** Claim C10 as stated fails at NaN.  [Math.min] and [Math.max] give
    NaN when given NaN, so the index is NaN, [colors[NaN]] is
    [undefined], and reading its first component throws before anything
    is stored. *)
Lemma interpolateColor_NaN_throws :
  colorIndex (JS.mul JS.NaN (JS.Fin colorCountForScale)) = JS.NaN /\
  JS.array_index (colorIndex (JS.mul JS.NaN (JS.Fin colorCountForScale)))
    = None /\
  interpolateColor JS.ToUint8Clamp JS.NaN [0; 0; 0; 0]%Z 0 = None.
Proof. repeat split. Qed.

End ColourFacts.

(** ** The history ring *)

Section RingFacts.

Lemma nth_error_store {A : Type} (a : list A) i j v :
  nth_error (store a i v) j =
  if (i =? j)%nat then (if (i <? length a)%nat then Some v else None)
  else nth_error a j.
Proof.
  revert i j; induction a as [|h t IH]; intros i j.
  - destruct i, j; simpl; try reflexivity. destruct (i =? j)%nat; reflexivity.
  - destruct i as [|i], j as [|j]; simpl; try reflexivity.
    rewrite IH. destruct (Nat.eqb_spec i j); [|reflexivity].
    change (S i <? S (length t))%nat with (i <? length t)%nat. reflexivity.
Qed.

Lemma next_slot (p n : nat) :
  (0 < n)%nat ->
  Z.to_nat (mod_Z (Z.of_nat p + 1) (Z.of_nat n)) = ((p + 1) mod n)%nat.
Proof.
  intros Hn. rewrite mod_Z_is_modulo by lia.
  replace (Z.of_nat p + 1)%Z with (Z.of_nat (p + 1)) by lia.
  rewrite <- Nat2Z.inj_mod. apply Nat2Z.id.
Qed.

Lemma slot_step (k n : nat) :
  (0 < n)%nat -> ((k mod n + 1) mod n = (k + 1) mod n)%nat.
Proof. intros Hn. apply Nat.Div0.add_mod_idemp_l. Qed.

(** Two frames less than [n] apart never share a slot. *)
Lemma slots_distinct (j k n : nat) :
  (j < k)%nat -> (k < j + n)%nat -> (j mod n <> k mod n)%nat.
Proof.
  intros H1 H2 E.
  pose proof (Nat.div_mod_eq j n) as Ej.
  pose proof (Nat.div_mod_eq k n) as Ek.
  rewrite E in Ej.
  assert (Hd : (k - j = n * (k / n - j / n))%nat) by nia.
  assert (Hq : (k / n - j / n = 0 \/ 1 <= k / n - j / n)%nat) by lia.
  destruct Hq as [Hq|Hq]; [rewrite Hq in Hd; lia|nia].
Qed.

End RingFacts.


Section WaterfallFacts.
Import WaterfallPlot.

Section GLFacts.
Import GL.

Lemma convert_loop_length n : forall i cs buf out,
  length (convert_loop n i cs buf out) = length out.
Proof.
  induction n as [|n IH]; intros; simpl; [reflexivity|].
  rewrite IH. apply store_length.
Qed.

Lemma convert_loop_nth_error n : forall i cs buf out j,
  (i + n <= length out)%nat ->
  nth_error (convert_loop n i cs buf out) j =
  if (i <=? j)%nat && (j <? i + n)%nat
  then Some (JS.ToUint8Clamp
               (match nth_error buf j with
                | Some b => JS.Fin ((b - SpectrumView.minLevel) * cs)
                | None => JS.NaN
                end))
  else nth_error out j.
Proof.
  induction n as [|n IH]; intros i cs buf out j H; simpl.
  - case_bounds.
  - rewrite IH by (rewrite store_length; lia).
    rewrite nth_error_store.
    destruct (Nat.eqb_spec i j) as [->|Hne]; case_bounds.
Qed.

(** The conversion loop overwrites the whole conversion buffer. *)
Lemma convert_loop_all (buf : list Q) (out : list Z) :
  length out = length buf ->
  ByteRow (convert_loop (length buf) 0
             (255 / (SpectrumView.maxLevel - SpectrumView.minLevel)) buf out)
  = row_of false buf.
Proof.
  intros Hl. unfold row_of. f_equal.
  apply nth_error_ext. intros j.
  rewrite convert_loop_nth_error by lia.
  rewrite nth_error_map.
  destruct (Nat.ltb_spec j (0 + length buf)) as [Hj|Hj]; simpl.
  - destruct (nth_error buf j) eqn:E; [reflexivity|].
    apply nth_error_None in E. simpl in Hj. lia.
  - simpl in Hj.
    assert (E1 : nth_error out j = None) by (apply nth_error_None; lia).
    assert (E2 : nth_error buf j = None) by (apply nth_error_None; lia).
    rewrite E1, E2. reflexivity.
Qed.

Lemma blank_rows_length float n w : length (blank_rows float n w) = n.
Proof. unfold blank_rows. destruct float; apply repeat_length. Qed.

Lemma blank_freqs_length float n : length (blank_freqs float n) = n.
Proof. unfold blank_freqs. destruct float; apply repeat_length. Qed.

Lemma gl_history_init float n len c w :
  history_of float n w [] (init float n len c).
Proof.
  unfold history_of, init. cbn.
  rewrite blank_rows_length, blank_freqs_length.
  split; [reflexivity|]. split; [reflexivity|]. split; [reflexivity|].
  split; [reflexivity|]. split; [symmetry; apply Nat.Div0.mod_0_l|].
  split; [intros H; contradiction|]. split; [discriminate|].
  intros j b H. destruct j; discriminate.
Qed.

Lemma gl_history_step float n w fs st b :
  (0 < n)%nat -> (0 < w)%nat ->
  length (bundle_buffer b) = w ->
  history_of float n w fs st ->
  history_of float n w (fs ++ [b]) (newData b st).
Proof.
  intros Hn Hw Hb (Hf & Hhc & Hlf & Hlr & Hp & Hsz & Hcl & Hwin).
  unfold newData.
  destruct (Nat.eqb_spec (length (bundle_buffer b)) 0) as [E0|_]; [lia|].
  set (reconfigure := negb (length (bundle_buffer b) =? fftSize st)%nat
      || (negb (useFloatTexture st)
          && match intConversionBuffer st with None => true | Some _ => false end)).
  assert (Hrec : reconfigure = true -> fs = []).
  { intros Hr. destruct fs as [|f0 fs']; [reflexivity|exfalso].
    destruct Hsz as [Hs Hc]; [discriminate|].
    unfold reconfigure in Hr. rewrite Hs, Hb, Nat.eqb_refl in Hr. simpl in Hr.
    rewrite Hf in Hr. destruct float; simpl in Hr; [discriminate|].
    destruct (intConversionBuffer st); [discriminate|]. apply Hc; reflexivity. }
  set (fftSize1 := if reconfigure then length (bundle_buffer b) else fftSize st).
  assert (Hfs1 : fftSize1 = w).
  { unfold fftSize1. destruct reconfigure eqn:Er; [exact Hb|].
    unfold reconfigure in Er. apply orb_false_elim in Er. destruct Er as [Er _].
    apply negb_false_iff, Nat.eqb_eq in Er. congruence. }
  set (rows1 := if reconfigure then blank_rows (useFloatTexture st) (hc st) fftSize1
                else bufferTexture st).
  set (freqs1 := if reconfigure then blank_freqs (useFloatTexture st) (hc st)
                 else historyFreqTexture st).
  assert (Hlr1 : length rows1 = n).
  { unfold rows1. destruct reconfigure; [rewrite blank_rows_length|]; congruence. }
  assert (Hlf1 : length freqs1 = n).
  { unfold freqs1. destruct reconfigure; [rewrite blank_freqs_length|]; congruence. }
  set (conv1 := if reconfigure
      then (if useFloatTexture st then None else Some (repeat 0%Z fftSize1))
      else intConversionBuffer st).
  assert (Hconv1 : float = false -> exists c, conv1 = Some c /\ length c = w).
  { intros Hfl. unfold conv1. destruct reconfigure eqn:Er.
    - rewrite Hf, Hfl. eexists; split; [reflexivity|]. rewrite repeat_length. exact Hfs1.
    - unfold reconfigure in Er. apply orb_false_elim in Er. destruct Er as [_ Er].
      rewrite Hf, Hfl in Er. simpl in Er.
      destruct (intConversionBuffer st) as [c|] eqn:Ec; [|discriminate].
      exists c. split; [reflexivity|]. rewrite (Hcl c eq_refl). exact Hfs1. }
  set (cscale := 255 / (SpectrumView.maxLevel - SpectrumView.minLevel)).
  set (conv2 := if useFloatTexture st then conv1
      else Some (convert_loop fftSize1 0 cscale (bundle_buffer b)
                   (match conv1 with Some c => c | None => [] end))).
  set (newRow := if useFloatTexture st then FloatRow (bundle_buffer b)
      else ByteRow (match conv2 with Some c => c | None => [] end)).
  assert (HnewRow : newRow = row_of float (bundle_buffer b)).
  { unfold newRow, conv2. rewrite Hf. destruct float; [reflexivity|].
    destruct (Hconv1 eq_refl) as (c & Ec & Hc). rewrite Ec.
    rewrite Hfs1, <- Hb. apply convert_loop_all. congruence. }
  assert (Hold : forall j b', nth_error fs j = Some b' ->
            (length fs <= j + n)%nat ->
            nth_error freqs1 (j mod n) = Some (pack_freq float (bundle_freq b')) /\
            nth_error rows1 (j mod n) = Some (row_of float (bundle_buffer b'))).
  { intros j b' Hj Hjw. destruct reconfigure eqn:Er.
    - rewrite (Hrec eq_refl) in Hj. destruct j; discriminate.
    - unfold freqs1, rows1. apply Hwin; assumption. }
  unfold history_of. cbn.
  fold reconfigure. fold fftSize1. fold rows1. fold freqs1. fold conv1.
  fold cscale. fold conv2. fold newRow.
  rewrite !store_length, length_app. simpl length.
  split; [exact Hf|]. split; [exact Hhc|]. split; [exact Hlf1|]. split; [exact Hlr1|].
  split.
  { rewrite Hhc, Hp, next_slot by exact Hn. apply slot_step. exact Hn. }
  split.
  { intros _. split; [exact Hfs1|].
    intros Hfl. unfold conv2. rewrite Hf, Hfl. discriminate. }
  split.
  { intros c Hc. unfold conv2 in Hc. destruct (useFloatTexture st) eqn:Eu.
    - unfold conv1 in Hc. destruct reconfigure; [discriminate|].
      rewrite (Hcl c Hc). unfold fftSize1. reflexivity.
    - injection Hc as <-. rewrite convert_loop_length.
      destruct (Hconv1 (eq_sym Hf)) as (c' & Ec' & Hl').
      rewrite Ec'. congruence. }
  intros j b' Hj Hjw.
  rewrite !nth_error_store, Hlf1, Hlr1, Hp.
  assert (Hjl : (j < length fs + 1)%nat).
  { assert (Hs : nth_error (fs ++ [b]) j <> None) by congruence.
    apply nth_error_Some in Hs. rewrite length_app in Hs. exact Hs. }
  destruct (Nat.eq_dec j (length fs)) as [->|Hne].
  - rewrite Nat.eqb_refl.
    destruct (Nat.ltb_spec (length fs mod n) n) as [_|Hx];
      [|pose proof (Nat.mod_upper_bound (length fs) n); lia].
    rewrite nth_error_app2, Nat.sub_diag in Hj by lia. simpl in Hj.
    injection Hj as <-. rewrite HnewRow, Hf. split; reflexivity.
  - assert (Hd : (j mod n <> length fs mod n)%nat) by (apply slots_distinct; lia).
    destruct (Nat.eqb_spec (length fs mod n) (j mod n)) as [E|_]; [congruence|].
    rewrite nth_error_app1 in Hj by lia.
    apply Hold; [exact Hj|lia].
Qed.

Lemma gl_history_run float n w fs : forall pre st,
  (0 < n)%nat -> (0 < w)%nat ->
  Forall (fun b => length (bundle_buffer b) = w) fs ->
  history_of float n w pre st ->
  history_of float n w (pre ++ fs) (run fs st).
Proof.
  induction fs as [|b fs IH]; intros pre st Hn Hw Hall Hinv.
  - rewrite app_nil_r. exact Hinv.
  - apply Forall_cons_iff in Hall. destruct Hall as [Hb Hrest].
    change (pre ++ b :: fs) with (pre ++ [b] ++ fs). rewrite app_assoc.
    apply IH; try assumption.
    apply gl_history_step; assumption.
Qed.

End GLFacts.

Section PackFacts.
Import GL.

Lemma Qtrunc_inject_Z (z : Z) : JS.Qtrunc (inject_Z z) = z.
Proof.
  unfold JS.Qtrunc. simpl.
  destruct (0 <=? z)%Z; [apply Qfloor_Z|apply Qceiling_Z].
Qed.

Lemma byte_of_wrap32 (t k : Z) :
  (k = 0 \/ k = 8 \/ k = 16 \/ k = 24)%Z ->
  Z.land (Z.shiftr (JS.wrap32 t) k) 255 = ((t mod 2 ^ 32) / 2 ^ k mod 256)%Z.
Proof.
  intros Hk.
  change 255%Z with (Z.ones 8).
  rewrite Z.land_ones by lia.
  rewrite Z.shiftr_div_pow2 by lia.
  unfold JS.wrap32.
  destruct Hk as [->|[->|[->| ->]]];
    change (2 ^ 8)%Z with 256%Z; change (2 ^ 0)%Z with 1%Z;
    change (2 ^ 16)%Z with 65536%Z; change (2 ^ 24)%Z with 16777216%Z;
    change (2 ^ 31)%Z with 2147483648%Z; change (2 ^ 32)%Z with 4294967296%Z;
    Z.to_euclidean_division_equations; lia.
Qed.

Lemma freq_byte_spec (q : Q) (k : Z) :
  (k = 0 \/ k = 8 \/ k = 16 \/ k = 24)%Z ->
  freq_byte (JS.Fin q) k = ((JS.Qtrunc q mod 2 ^ 32) / 2 ^ k mod 256)%Z.
Proof.
  intros Hk. unfold freq_byte, JS.ToUint8, JS.ToInt32.
  rewrite Qtrunc_inject_Z, byte_of_wrap32 by exact Hk.
  apply Z.mod_mod. lia.
Qed.

(** The four bytes hold the frequency truncated to an integer, modulo
    [2^32]. *)
Lemma historyFreq_bytes (q : Q) :
  historyFreq (pack_freq false (JS.Fin q))
  = JS.Fin (inject_Z (JS.Qtrunc q mod 2 ^ 32)).
Proof.
  unfold pack_freq, historyFreq.
  rewrite !freq_byte_spec by lia.
  do 2 f_equal.
  set (t := (JS.Qtrunc q mod 2 ^ 32)%Z).
  assert (Ht : (0 <= t < 2 ^ 32)%Z) by (apply Z.mod_pos_bound; lia).
  change (2 ^ 8)%Z with 256%Z; change (2 ^ 0)%Z with 1%Z;
    change (2 ^ 16)%Z with 65536%Z; change (2 ^ 24)%Z with 16777216%Z;
    change (2 ^ 32)%Z with 4294967296%Z in *.
  Z.to_euclidean_division_equations; lia.
Qed.

Lemma historyFreq_bytes_exact (z : Z) :
  (0 <= z < 2 ^ 32)%Z ->
  historyFreq (pack_freq false (JS.Fin (inject_Z z))) = JS.Fin (inject_Z z).
Proof.
  intros Hz. rewrite historyFreq_bytes, Qtrunc_inject_Z.
  rewrite Z.mod_small by exact Hz. reflexivity.
Qed.

End PackFacts.

Section RasterFacts.
Import Raster.

Lemma round_column (x w : nat) :
  (0 < w)%nat ->
  JS.round (inject_Z (Z.of_nat x) * (inject_Z (Z.of_nat w) / inject_Z (Z.of_nat w)))
  = Z.of_nat x.
Proof.
  intros Hw. unfold JS.round.
  assert (Hw' : 0 < inject_Z (Z.of_nat w)).
  { change 0 with (inject_Z 0). rewrite <- Zlt_Qlt. lia. }
  assert (E : inject_Z (Z.of_nat x) * (inject_Z (Z.of_nat w) / inject_Z (Z.of_nat w)) + (1 # 2)
              == inject_Z (Z.of_nat x) + (1 # 2)) by (field; lra).
  rewrite E.
  apply Z.le_antisymm.
  - assert (H : inject_Z (Qfloor (inject_Z (Z.of_nat x) + (1 # 2))) < inject_Z (Z.of_nat x + 1)).
    { eapply Qle_lt_trans; [apply Qfloor_le|]. rewrite inject_Z_plus.
      change (inject_Z 1) with 1. lra. }
    rewrite <- Zlt_Qlt in H. lia.
  - rewrite <- (Qfloor_Z (Z.of_nat x)) at 1. apply Qfloor_resp_le. lra.
Qed.

Lemma render_loop_total n : forall x xScale cScale cZero buffer data,
  (forall k, (x <= k < x + n)%nat ->
     JS.round (inject_Z (Z.of_nat k) * xScale) = Z.of_nat k) ->
  (x + n <= length buffer)%nat ->
  exists data', render_loop n x xScale cScale cZero buffer data = Some data' /\
                length data' = length data.
Proof.
  induction n as [|n IH]; intros x xScale cScale cZero buffer data Hr Hl; simpl.
  - eexists; split; reflexivity.
  - rewrite (Hr x) by lia.
    destruct (Z.leb_spec 0 (Z.of_nat x)); [|lia].
    rewrite Nat2Z.id.
    destruct (nth_error buffer x) as [b|] eqn:Eb.
    2:{ apply nth_error_None in Eb. lia. }
    destruct (interpolateColor_defined JS.ToUint8Clamp
                (JS.Fin (b * cScale + cZero)) data (x * 4) eq_refl)
      as (out & Eo & Hlo & _).
    rewrite Eo. simpl.
    destruct (IH (S x) xScale cScale cZero buffer out) as (d' & Ed & Hd).
    + intros k Hk. apply Hr. lia.
    + lia.
    + exists d'. split; [exact Ed|congruence].
Qed.

Lemma render_total (buffer : list Q) (data : list Z) :
  (0 < length buffer)%nat ->
  exists data', render buffer (length buffer) data = Some data'.
Proof.
  intros Hw. unfold render.
  destruct (render_loop_total (length buffer) 0
              (inject_Z (Z.of_nat (length buffer)) / inject_Z (Z.of_nat (length buffer)))
              (1 / (SpectrumView.maxLevel - SpectrumView.minLevel))
              (1 - SpectrumView.maxLevel * (1 / (SpectrumView.maxLevel - SpectrumView.minLevel)))
              buffer data) as (d & Ed & _).
  - intros k _. apply round_column. exact Hw.
  - lia.
  - exists d. exact Ed.
Qed.

Lemma slot_in_range (i p n : nat) :
  (0 < n)%nat ->
  (Z.to_nat (mod_Z (Z.of_nat i + Z.of_nat p) (Z.of_nat n)) < n)%nat.
Proof.
  intros Hn. rewrite mod_Z_is_modulo by lia.
  pose proof (Z.mod_pos_bound (Z.of_nat i + Z.of_nat p) (Z.of_nat n)). lia.
Qed.

Lemma repaint_loop_total n : forall st vcf os w y0,
  (n <= length (slices st))%nat ->
  exists r, repaint_loop n (length (slices st)) st vcf os w y0 = Some r.
Proof.
  induction n as [|i IH]; intros st vcf os w y0 Hn; simpl.
  - eexists; reflexivity.
  - destruct (nth_error (slices st) _) as [sl|] eqn:E.
    2:{ apply nth_error_None in E.
        pose proof (slot_in_range i (slicePtr st) (length (slices st))). lia. }
    simpl.
    destruct (canvas_height (cv st) <=? length (slices st) - i)%nat;
      [eexists; reflexivity|].
    destruct (IH st vcf os w (Some (length (slices st) - i)%nat)) as ([ops yl] & Er); [lia|].
    rewrite Er. simpl. eexists; reflexivity.
Qed.

Lemma paint_total v h drawn st :
  exists st' ops, paint v h drawn st = Some (st', ops) /\
    hc st' = hc st /\ slices st' = slices st /\ slicePtr st' = slicePtr st /\
    dataToDraw st' = None /\ canvas_width (cv st') = canvas_width (cv st).
Proof.
  unfold paint.
  set (w := JS.of_undefined_or _).
  set (os := JS.div w _).
  destruct (repaint_loop_total (length (slices st)) st (viewCenterFreq v) os w None
              (le_n _)) as ([ops y] & Er).
  destruct (match drawn with
            | Some (d, ibuf) =>
                if JS.strict_eq (lastDrawnCenterFreq st) (JS.Fin (viewCenterFreq v))
                   && negb (cleared (cv st))
                then Some (d, ibuf) else None
            | None => None
            end) as [[d ibuf]|].
  - do 2 eexists. split; [reflexivity|]. repeat split.
  - destruct (cleared (cv st) || JS.strict_neq _ _).
    + rewrite Er. simpl. do 2 eexists. split; [reflexivity|]. repeat split.
    + do 2 eexists. split; [reflexivity|]. repeat split.
Qed.

(** What [write_slice] does to the array, for a state whose cursor is in
    range. *)
Lemma write_slice_spec (d : fftBundle) (st : state) :
  (0 < length (bundle_buffer d))%nat ->
  (0 < hc st)%nat ->
  (length (slices st) <= hc st)%nat ->
  (slicePtr st < hc st)%nat ->
  exists st' data,
    write_slice d st = Some (st', data) /\
    hc st' = hc st /\ dataToDraw st' = dataToDraw st /\ cv st' = cv st /\
    lastDrawnCenterFreq st' = lastDrawnCenterFreq st /\
    length (slices st') = Nat.min (S (length (slices st))) (hc st) /\
    slicePtr st' =
      (if (length (slices st) <? hc st)%nat then slicePtr st
       else ((slicePtr st + 1) mod hc st)%nat) /\
    nth_error (slices st') (write_cursor st) = Some (data, bundle_freq d) /\
    (forall k, k <> write_cursor st -> (k < length (slices st))%nat ->
       nth_error (slices st') k = nth_error (slices st) k).
Proof.
  intros Hw Hn Hlen Hptr. unfold write_slice, take_slot, write_cursor.
  destruct (Nat.ltb_spec (length (slices st)) (hc st)) as [Hlt|Hge].
  - cbn [bind hc slices slicePtr lastDrawnCenterFreq dataToDraw cv].
    rewrite nth_error_app2, Nat.sub_diag by lia.
    cbn [nth_error bind fst snd].
    destruct (render_total (bundle_buffer d)
                (repeat 0%Z (length (bundle_buffer d) * 4)) Hw) as (data & Er).
    rewrite Er. cbn [bind].
    do 2 eexists. split; [reflexivity|].
    cbn [hc slices slicePtr lastDrawnCenterFreq dataToDraw cv].
    rewrite store_length, length_app. simpl length.
    repeat split; try reflexivity.
    + lia.
    + rewrite nth_error_store, Nat.eqb_refl, length_app. simpl length.
      destruct (Nat.ltb_spec (length (slices st)) (length (slices st) + 1)); [reflexivity|lia].
    + intros k Hk Hkl. rewrite nth_error_store.
      destruct (Nat.eqb_spec (length (slices st)) k); [congruence|].
      apply nth_error_app1. exact Hkl.
  - assert (Hl : length (slices st) = hc st) by lia.
    destruct (nth_error (slices st) (slicePtr st)) as [record|] eqn:Erec.
    2:{ apply nth_error_None in Erec. lia. }
    cbn [bind hc slices slicePtr lastDrawnCenterFreq dataToDraw cv].
    rewrite nth_error_store, Nat.eqb_refl.
    destruct (Nat.ltb_spec (slicePtr st) (length (slices st))); [|lia].
    cbn [bind fst snd].
    destruct (render_total (bundle_buffer d) (fst record) Hw) as (data & Er).
    rewrite Er. cbn [bind].
    do 2 eexists. split; [reflexivity|].
    cbn [hc slices slicePtr lastDrawnCenterFreq dataToDraw cv].
    rewrite !store_length.
    repeat split; try reflexivity.
    + lia.
    + apply next_slot. exact Hn.
    + rewrite nth_error_store, Nat.eqb_refl, store_length.
      destruct (Nat.ltb_spec (slicePtr st) (length (slices st))); [reflexivity|lia].
    + intros k Hk Hkl. rewrite !nth_error_store.
      destruct (Nat.eqb_spec (slicePtr st) k); [congruence|reflexivity].
Qed.

Lemma raster_history_init n c w : (0 < n)%nat -> history_of n w [] (init n c).
Proof.
  intros Hn. destruct n as [|m]; [lia|].
  unfold history_of, init, write_cursor.
  cbn [hc slices slicePtr lastDrawnCenterFreq dataToDraw cv length].
  rewrite Nat.Div0.mod_0_l.
  split; [reflexivity|]. split; [reflexivity|]. split; [intros H'; contradiction|].
  split; [reflexivity|]. split; [reflexivity|]. split; [lia|]. split; [reflexivity|].
  intros j vb Hj. destruct j; discriminate.
Qed.

Lemma commonBeforeDraw_width n v c :
  canvas_width (commonBeforeDraw n v c) = canvas_width c.
Proof.
  unfold commonBeforeDraw. destruct (_ =? _)%nat; reflexivity.
Qed.

Lemma raster_history_step n w fs st v b :
  (0 < n)%nat -> (0 < w)%nat ->
  length (bundle_buffer b) = w ->
  history_of n w fs st ->
  exists st' ops,
    newData v b st = Some (st', ops) /\
    history_of n w (fs ++ [(v, b)]) st'.
Proof.
  intros Hn Hw Hb (Hhc & Hdd & Hcw & Hlen & Hp0 & Hp1 & Hcur & Hwin).
  unfold newData, performDraw.
  set (st0 := mkState (hc st) (slices st) (slicePtr st) (lastDrawnCenterFreq st)
                (Some b) (cv st)).
  set (st1 := begin_draw v st0).
  assert (H1 : hc st1 = n /\ slices st1 = slices st /\ slicePtr st1 = slicePtr st /\
               dataToDraw st1 = Some b /\ canvas_width (cv st1) = w).
  { unfold st1, begin_draw, st0.
    cbn [dataToDraw hc cv slices slicePtr lastDrawnCenterFreq].
    rewrite commonBeforeDraw_width.
    destruct (Nat.eqb_spec (canvas_width (cv st)) (length (bundle_buffer b))) as [E|E].
    - cbn. rewrite commonBeforeDraw_width. repeat split; congruence.
    - cbn. destruct fs as [|f0 fs'].
      + simpl in Hlen. destruct (slices st); [|discriminate].
        rewrite (Hp0 ltac:(simpl; lia)). repeat split; congruence.
      + exfalso. apply E. rewrite Hcw by discriminate. congruence. }
  destruct H1 as (H1hc & H1s & H1p & H1d & H1w).
  rewrite H1d.
  destruct (Nat.eqb_spec (length (bundle_buffer b)) 0) as [E0|_]; [lia|].
  assert (Hptr : (slicePtr st < n)%nat).
  { destruct (Nat.lt_ge_cases (length fs) n) as [Hl|Hl].
    - rewrite (Hp0 Hl). exact Hn.
    - rewrite (Hp1 Hl). apply Nat.mod_upper_bound. lia. }
  destruct (write_slice_spec b st1) as
      (st2 & data & Ews & H2hc & H2d & H2cv & _ & H2len & H2p & H2slot & H2other).
  { lia. } { lia. } { rewrite H1s, Hlen, H1hc. lia. } { rewrite H1p, H1hc. exact Hptr. }
  rewrite Ews. cbn [bind].
  destruct (paint_total v (canvas_height (cv st)) (Some (b, data)) st2)
    as (st3 & ops & Ep & H3hc & H3s & H3p & H3d & H3w).
  unfold st0 at 1. cbn [cv]. rewrite Ep.
  exists st3, ops. split; [reflexivity|].
  assert (Hcur1 : write_cursor st1 = (length fs mod n)%nat).
  { unfold write_cursor in *. rewrite H1s, H1hc, H1p. rewrite Hhc in Hcur. exact Hcur. }
  rewrite Hcur1 in H2slot, H2other.
  rewrite H1s, H1hc, H1p in *.
  unfold history_of. rewrite length_app. simpl length.
  rewrite H3hc, H2hc, H3d, H3w, H2cv, H3s, H3p, H2p, H2len, Hlen.
  split; [reflexivity|]. split; [reflexivity|]. split; [intros _; exact H1w|].
  split; [lia|].
  assert (Hslice : (length fs + 1 < n ->
            (if Nat.min (length fs) n <? n then slicePtr st
             else (slicePtr st + 1) mod n) = 0)%nat).
  { intros Hl. destruct (Nat.ltb_spec (Nat.min (length fs) n) n); [|lia].
    apply Hp0. lia. }
  assert (Hslice' : (n <= length fs + 1 ->
            (if Nat.min (length fs) n <? n then slicePtr st
             else (slicePtr st + 1) mod n) = (length fs + 1) mod n)%nat).
  { intros Hl. destruct (Nat.ltb_spec (Nat.min (length fs) n) n) as [Hm|Hm].
    - assert (length fs + 1 = n)%nat by lia.
      rewrite (Hp0 ltac:(lia)). replace (length fs + 1)%nat with n by lia.
      symmetry. apply Nat.Div0.mod_same.
    - rewrite (Hp1 ltac:(lia)). apply slot_step. exact Hn. }
  split; [exact Hslice|]. split; [exact Hslice'|].
  split.
  { unfold write_cursor. rewrite H3s, H3hc, H2hc, H3p, H2p, H2len, Hlen.
    destruct (Nat.ltb_spec (Nat.min (S (Nat.min (length fs) n)) n) n) as [Hm|Hm].
    - symmetry. replace (Nat.min (S (Nat.min (length fs) n)) n) with (length fs + 1)%nat by lia.
      apply Nat.mod_small. lia.
    - apply Hslice'. lia. }
  intros j vb Hj Hjw.
  assert (Hjl : (j < length fs + 1)%nat).
  { assert (Hs : nth_error (fs ++ [(v, b)]) j <> None) by congruence.
    apply nth_error_Some in Hs. rewrite length_app in Hs. exact Hs. }
  destruct (Nat.eq_dec j (length fs)) as [->|Hne].
  - rewrite nth_error_app2, Nat.sub_diag in Hj by lia. simpl in Hj.
    injection Hj as <-. exists data. exact H2slot.
  - assert (Hd : (j mod n <> length fs mod n)%nat) by (apply slots_distinct; lia).
    rewrite nth_error_app1 in Hj by lia.
    destruct (Hwin j vb Hj ltac:(lia)) as (img & Hi).
    exists img. rewrite H2other; [exact Hi|exact Hd|].
    assert (Hs : nth_error (slices st) (j mod n) <> None) by congruence.
    apply nth_error_Some in Hs. lia.
Qed.

Lemma raster_history_run n w fs : forall pre st,
  (0 < n)%nat -> (0 < w)%nat ->
  Forall (fun vb => length (bundle_buffer (snd vb)) = w) fs ->
  history_of n w pre st ->
  exists st', run fs st = Some st' /\ history_of n w (pre ++ fs) st'.
Proof.
  induction fs as [|[v b] fs IH]; intros pre st Hn Hw Hall Hinv.
  - exists st. rewrite app_nil_r. split; [reflexivity|exact Hinv].
  - apply Forall_cons_iff in Hall. destruct Hall as [Hb Hrest]. simpl in Hb.
    destruct (raster_history_step n w pre st v b Hn Hw Hb Hinv) as (st1 & ops & E1 & Hinv1).
    destruct (IH (pre ++ [(v, b)]) st1 Hn Hw Hrest Hinv1) as (st' & E' & Hinv').
    exists st'. split.
    + simpl. rewrite E1. simpl. exact E'.
    + change (pre ++ (v, b) :: fs) with (pre ++ [(v, b)] ++ fs). rewrite app_assoc.
      exact Hinv'.
Qed.
End RasterFacts.

(** ** Drift compensation *)

Lemma div_finite (p q : Q) : 0 < q -> JS.div (JS.Fin p) (JS.Fin q) = JS.Fin (p / q).
Proof.
  intros Hq. unfold JS.div, JS.sign_cmp.
  assert (H : (Qnum q ?= 0)%Z = Gt).
  { apply Z.compare_gt_iff. unfold Qlt in Hq. simpl in Hq. lia. }
  rewrite H. reflexivity.
Qed.

Lemma round_near (r : Q) :
  inject_Z (JS.round r) - (1 # 2) <= r /\ r < inject_Z (JS.round r) + (1 # 2).
Proof.
  unfold JS.round.
  pose proof (Qfloor_le (r + (1 # 2))) as H1.
  pose proof (Qlt_floor (r + (1 # 2))) as H2.
  rewrite inject_Z_plus in H2. change (inject_Z 1) with 1 in H2.
  split; lra.
Qed.



(** ** The history as a whole *)

(** One delivery on the GPU path, for any width of the frame: the row
    under the cursor takes the frame and the cursor moves on by one. *)
Lemma gl_newData_writes_cursor (st : GL.state) (b : fftBundle) :
  (0 < GL.hc st)%nat -> (GL.slicePtr st < GL.hc st)%nat ->
  length (GL.historyFreqTexture st) = GL.hc st ->
  (0 < length (bundle_buffer b))%nat ->
  nth_error (GL.historyFreqTexture (GL.newData b st)) (GL.slicePtr st)
    = Some (GL.pack_freq (GL.useFloatTexture st) (bundle_freq b)) /\
  GL.slicePtr (GL.newData b st) = ((GL.slicePtr st + 1) mod GL.hc st)%nat.
Proof.
  intros Hn Hp Hl Hw. unfold GL.newData.
  destruct (Nat.eqb_spec (length (bundle_buffer b)) 0) as [E0|_]; [lia|].
  cbn [GL.historyFreqTexture GL.slicePtr]. split.
  - rewrite nth_error_store, Nat.eqb_refl.
    match goal with |- context [(_ <? length ?l)%nat] =>
      assert (Hl1 : length l = GL.hc st)
        by (destruct (_ || _); [apply blank_freqs_length|exact Hl])
    end.
    rewrite Hl1. destruct (Nat.ltb_spec (GL.slicePtr st) (GL.hc st)); [reflexivity|lia].
  - apply next_slot. exact Hn.
Qed.


(** ** Frames without bins *)

(** The GPU backends return at once on a frame without bins. *)
Lemma plot_GL_newData_empty alpha f st :
  SpectrumPlot.newData_GL alpha (mkBundle f []) st = st.
Proof. reflexivity. Qed.

Lemma waterfall_GL_newData_empty f st :
  GL.newData (mkBundle f []) st = st.
Proof. reflexivity. Qed.

(** Claim C7, on the raster backends.  The spectrum plot has no test for
    an empty frame: its length differs from the buffer's, so the average
    of two bins is replaced by an empty one.  The waterfall tests for
    [w === 0] only after it has reallocated: the one slice it holds is
    discarded, and the frame stays in [dataToDraw]. *)
Theorem empty_frame_is_not_skipped :
  SpectrumPlot.newData_2D (1 # 2) (mkBundle (JS.Fin 100) []) Sample.average
    = SpectrumPlot.mkAvg (Some []) (JS.Fin 100) /\
  option_map (fun st => length (Raster.slices st)) Sample.raster_one
    = Some 1%nat /\
  option_map
    (fun st =>
       option_map
         (fun r => (Raster.slices (fst r), Raster.dataToDraw (fst r), snd r))
         (Raster.newData Sample.view0 (mkBundle (JS.Fin 100) []) st))
    Sample.raster_one
    = Some (Some ([], Some (mkBundle (JS.Fin 100) []), [])).
Proof.
  split; [reflexivity|]. split; vm_compute; reflexivity.
Qed.

End WaterfallFacts.

(** ** Instances *)

Lemma mod_in_range_witness :
  0 < 1024 /\ 0 <= mod_ (-1) 1024 /\ mod_ (-1) 1024 < 1024.
Proof.
  split; [reflexivity|].
  apply (mod_in_range (-1) 1024). reflexivity.
Defined.

Lemma changeZoom_anchor_witness :
  SpectrumView.cursorFreq
    (SpectrumView.run_enqueued
       (SpectrumView.changeZoom Sample.exp2 Sample.view (-2000) 250)) 250
  == SpectrumView.cursorFreq Sample.view 250.
Proof.
  apply (changeZoom_anchor Sample.exp2 Sample.view (-2000) 250).
  - reflexivity.
  - reflexivity.
  - reflexivity.
  - vm_compute. discriminate.
  - split; vm_compute; discriminate.
  - split; vm_compute; discriminate.
Defined.

Lemma reset_on_frequency_change_witness :
  SpectrumPlot.avg_length
    (SpectrumPlot.commonNewData (1 # 2) (mkBundle (JS.Fin 200) [7; 8])
       Sample.average) = Some 2%nat.
Proof.
  apply (reset_on_frequency_change (1 # 2) (mkBundle (JS.Fin 200) [7; 8])
           Sample.average); reflexivity.
Defined.


Lemma interpolateColor_clamps_witness :
  exists k : nat,
    JS.array_index
      (WaterfallPlot.colorIndex
         (JS.mul JS.PInf (JS.Fin WaterfallPlot.colorCountForScale))) = Some k /\
    (k <= length WaterfallPlot.colors - 2)%nat /\
    nth_error WaterfallPlot.colors k <> None /\
    nth_error WaterfallPlot.colors (S k) <> None.
Proof.
  apply (interpolateColor_clamps JS.PInf [0; 0; 0; 0]%Z 0).
  reflexivity.
Defined.





(** * Further properties *)

(** ** The coordinate model, continued *)

Section ViewMore.
Import SpectrumView.

(** [mod(v, m)] is what is left of [v] above the largest multiple of [m]
    that does not exceed it. *)
Lemma mod_floor (v m : Q) :
  0 < m -> mod_ v m == v - m * inject_Z (Qfloor (v / m)).
Proof.
  intros Hm.
  destruct (mod_range v m Hm) as [H0 H1].
  (* the result differs from [v] by a whole multiple of [m] *)
  assert (Hk : exists k : Z, mod_ v m == v - m * inject_Z k).
  { unfold mod_, JS.rem.
    set (t1 := JS.Qtrunc (v / m)).
    set (t2 := JS.Qtrunc ((v - m * inject_Z t1 + m) / m)).
    exists (t1 + t2 - 1)%Z.
    unfold Z.sub. rewrite !inject_Z_plus, inject_Z_opp.
    change (inject_Z 1) with 1. ring. }
  destruct Hk as (k & Ek).
  assert (Hf : Qfloor (v / m) = k).
  { assert (Hq : inject_Z k <= v / m /\ v / m < inject_Z k + 1).
    { rewrite Ek in H0, H1. split.
      - apply Qle_shift_div_l; [exact Hm|]. lra.
      - apply Qlt_shift_div_r; [exact Hm|]. lra. }
    destruct Hq as [Hq1 Hq2].
    apply Z.le_antisymm.
    - assert (H : inject_Z (Qfloor (v / m)) < inject_Z (k + 1)).
      { eapply Qle_lt_trans; [apply Qfloor_le|].
        rewrite inject_Z_plus. exact Hq2. }
      rewrite <- Zlt_Qlt in H. lia.
    - rewrite <- (Qfloor_Z k). apply Qfloor_resp_le. exact Hq1. }
  rewrite Hf. exact Ek.
Qed.

Lemma mod_one (v : Q) : mod_ v 1 == v - inject_Z (Qfloor v).
Proof.
  rewrite mod_floor by reflexivity.
  assert (E : v / 1 == v) by (field).
  rewrite E. ring.
Qed.


#[global] Instance scrollLeft_stored_comp :
  Proper (Qeq ==> Qeq) scrollLeft_stored.
Proof.
  intros x y E. unfold scrollLeft_stored.
  assert (Ef : Qfloor x = Qfloor y) by (rewrite E; reflexivity).
  rewrite Ef. reflexivity.
Qed.

(** X1.  Pixels and frequencies are inverse to each other: the frequency
    click-to-tune finds under a pixel is sent back to that pixel (plus
    the scroll offset) by [freqToCSSLeft], and the left visible frequency
    sits at the cached scroll offset. *)
Theorem pixel_frequency_inverse (st : state) (clientX freq : Q) :
  ~ pixelsPerHertz st == 0 ->
  freqToCSSLeft st (ClickTune.freq st clientX)
    == clientX + container_scrollLeft st /\
  ClickTune.freq st (freqToCSSLeft st freq - container_scrollLeft st) == freq /\
  freqToCSSLeft st (leftVisibleFreq st) == cacheScrollLeft st /\
  freqToCSSLeft st (rightVisibleFreq st) == cacheScrollLeft st + pixelWidth st.
Proof.
  intros Hp.
  unfold freqToCSSLeft, ClickTune.freq, leftVisibleFreq, rightVisibleFreq.
  repeat split; field; exact Hp.
Qed.

(** X2.  In a prepared view the visible span is [bandwidth / zoom] wide,
    the whole scale is [pixelWidth * zoom] pixels wide with the centre
    frequency in its middle, and the two CSS offsets of a frequency add
    up to the viewport width. *)
Theorem visible_span (st : state) (freq : Q) :
  prepared st ->
  ~ pixelWidth st == 0 -> ~ bandwidth st == 0 -> ~ zoom st == 0 ->
  rightVisibleFreq st - leftVisibleFreq st == bandwidth st / zoom st /\
  getTotalPixelWidth st == pixelWidth st * zoom st /\
  freqToCSSLeft st (getCenterFreq st) == getTotalPixelWidth st / 2 /\
  freqToCSSLeft st freq + freqToCSSRight st freq == pixelWidth st.
Proof.
  intros Hp HW HB Hz.
  destruct (prepared_fields st Hp) as (Eb & Ec & El & Ew & Ep & Es).
  unfold rightVisibleFreq, leftVisibleFreq, getTotalPixelWidth, freqToCSSLeft,
    freqToCSSRight, getCenterFreq.
  rewrite Ep, El, Ec. rewrite Ew in *. rewrite Eb in *.
  repeat split; field; repeat split; assumption.
Qed.

(** The virtual scroll position a new view takes from storage. *)
Lemma new_virtualScroll rate freq len W z s :
  virtualScroll (new rate freq len W z s) == parseFloat_or s 0.
Proof.
  unfold virtualScroll, new. cbn [container_scrollLeft fractionalScroll prepare].
  unfold scrollLeft_stored. rewrite Qfloor_Z, mod_one. ring.
Qed.

Lemma parseFloat_or_some (q d : Q) :
  parseFloat_or (Some q) d == (if Qeq_bool q 0 then d else q).
Proof. reflexivity. Qed.


(** X4.  Zooming all the way out puts the scale back at its left end:
    when the zoom comes out as 1 the virtual scroll position is 0. *)
Theorem zoom_out_resets_scroll (Math_exp : Q -> Q) (st : state) (delta cursorX : Q) :
  rawZoom Math_exp st delta <= 1 ->
  let st' := changeZoom Math_exp st delta cursorX in
  zoom st' == 1 /\ virtualScroll st' == 0 /\ fractionalScroll st' == 0.
Proof.
  intros Hr st'.
  assert (Hz : zoom st' == 1).
  { unfold st'. cbn [zoom changeZoom zoomed prepare set_zoom]. unfold clampZoom.
    rewrite (Q.max_l 1 _ Hr). apply Q.min_r. apply maxZoom_ge_1. }
  assert (Hv : virtualScroll st' == 0).
  { unfold st'. rewrite changeZoom_virtualScroll. cbv zeta.
    set (st1 := zoomed Math_exp st delta).
    assert (Hw : pixelWidth st1 * zoom st1 - pixelWidth st1 == 0).
    { change (zoom st1) with (zoom st'). rewrite Hz. ring. }
    apply Q.max_l. eapply Qle_trans; [apply Q.le_min_l|].
    rewrite Hw. apply Qle_refl. }
  split; [exact Hz|]. split; [exact Hv|].
  unfold st' in *. unfold virtualScroll in Hv.
  cbn [container_scrollLeft fractionalScroll changeZoom] in *.
  set (s := Qmax 0 _) in *.
  assert (Hs : s == 0).
  { assert (E : s == scrollLeft_stored s + (s - scrollLeft_stored s)) by ring.
    rewrite E. exact Hv. }
  rewrite Hs. reflexivity.
Qed.

(** X5.  The split into a whole scroll offset and a fraction: after
    [changeZoom] and after construction the container's offset is a whole
    number and the fraction kept beside it lies in [[0, 1)]. *)
Theorem fractional_scroll_split (Math_exp : Q -> Q) (st : state) (delta cursorX : Q)
    (rate freq : Q) (len : Z) (W : Q) (z s : option Q) :
  let st' := changeZoom Math_exp st delta cursorX in
  let st0 := new rate freq len W z s in
  (container_scrollLeft st' == inject_Z (Qfloor (virtualScroll st')) /\
   0 <= fractionalScroll st' /\ fractionalScroll st' < 1) /\
  (container_scrollLeft st0 == inject_Z (Qfloor (parseFloat_or s 0)) /\
   0 <= fractionalScroll st0 /\ fractionalScroll st0 < 1).
Proof.
  cbv zeta. split.
  - assert (E : virtualScroll (changeZoom Math_exp st delta cursorX)
                == Qmax 0 (Qmin (pixelWidth (zoomed Math_exp st delta)
                                 * zoom (zoomed Math_exp st delta)
                                 - pixelWidth (zoomed Math_exp st delta))
                                (rawScroll Math_exp st delta cursorX)))
      by apply changeZoom_virtualScroll.
    cbn [container_scrollLeft fractionalScroll changeZoom].
    set (sc := Qmax 0 _) in *.
    rewrite E.
    pose proof (Qfloor_le sc) as H1. pose proof (Qlt_floor sc) as H2.
    rewrite inject_Z_plus in H2. change (inject_Z 1) with 1 in H2.
    unfold scrollLeft_stored.
    split; [reflexivity|]. split; lra.
  - cbn [container_scrollLeft fractionalScroll new prepare].
    unfold scrollLeft_stored. rewrite Qfloor_Z.
    split; [reflexivity|]. apply mod_range. reflexivity.
Qed.

(** X6.  A wheel event of delta 0 changes nothing: with [Math.exp(0) = 1],
    a prepared view whose zoom and scroll are in range keeps its zoom and
    its virtual scroll position, wherever the cursor is. *)
Theorem zero_delta_is_identity (Math_exp : Q -> Q) (st : state) (cursorX : Q) :
  (forall x, x == 0 -> Math_exp x == 1) ->
  prepared st -> 0 < pixelWidth st -> 0 < bandwidth st ->
  1 <= zoom st -> zoom st <= maxZoom st ->
  scroll_in_range st ->
  let st' := changeZoom Math_exp st 0 cursorX in
  zoom st' == zoom st /\ virtualScroll st' == virtualScroll st.
Proof.
  intros Hexp Hp HW HB Hz1 Hz2 [Hs1 Hs2] st'.
  assert (Hraw : rawZoom Math_exp st 0 == zoom st).
  { unfold rawZoom. rewrite (Hexp (- 0 * (5 # 10000))) by reflexivity. ring. }
  assert (Ez : zoom (zoomed Math_exp st 0) == zoom st).
  { cbn [zoom zoomed prepare set_zoom]. unfold clampZoom. rewrite Hraw.
    apply clamp_id; assumption. }
  split; [exact Ez|].
  unfold st'. rewrite changeZoom_virtualScroll. cbv zeta.
  pose proof (rawScroll_anchor Math_exp st 0 cursorX Hp) as Ha.
  destruct (prepared_fields st Hp) as (Eb & Ec & El & Ew & Ep & Es).
  set (z1 := zoom (zoomed Math_exp st 0)) in *.
  assert (Hr : rawScroll Math_exp st 0 cursorX == virtualScroll st).
  { assert (Hx : rawScroll Math_exp st 0 cursorX + cursorX
                 == (virtualScroll st + cursorX) * (z1 / zoom st))
      by (apply Ha; lra).
    assert (E1 : z1 / zoom st == 1) by (rewrite Ez; field; lra).
    rewrite E1 in Hx. lra. }
  assert (Hw : pixelWidth (zoomed Math_exp st 0) = pixelWidth st)
    by (cbn; symmetry; exact Ew).
  rewrite Hw, Hr.
  apply clamp_id'; [exact Hs1|].
  unfold getTotalPixelWidth, getVisiblePixelWidth in Hs2.
  assert (Et : pixelsPerHertz st * bandwidth st == pixelWidth st * zoom st).
  { rewrite Ep, Ew, Eb. rewrite Ew in HW. rewrite Eb in HB. field. lra. }
  rewrite Et in Hs2. rewrite Ez. exact Hs2.
Qed.

End ViewMore.

(** ** The averaging stage, continued *)

Section AveragingMore.
Import SpectrumPlot.

(** X7.  A frame whose centre frequency is unknown (NaN) never resets an
    average of the same length: it is blended in, and the frequency
    remembered from the last reset stays. *)
Theorem nan_frequency_blends (alpha : Q) (b : fftBundle) (st : avg_state) (a : list Q) :
  averageBuffer st = Some a ->
  length a = length (bundle_buffer b) ->
  bundle_freq b = JS.NaN ->
  let st' := commonNewData alpha b st in
  lastDrawnCenterFreq st' = lastDrawnCenterFreq st /\
  avg_length st' = Some (length a) /\
  forall i, (i < length a)%nat ->
    avg_at st' i = nth i a 0 * (1 - alpha) + nth i (bundle_buffer b) 0 * alpha.
Proof.
  intros Ha Hl Hf st'.
  assert (Hr : must_reset st b = false).
  { unfold must_reset. rewrite Ha, Hl, Nat.eqb_refl, Hf.
    simpl. apply andb_false_r. }
  unfold st'. rewrite (commonNewData_blend _ _ _ _ Hr Ha).
  unfold avg_length, avg_at. cbn [averageBuffer lastDrawnCenterFreq option_map].
  rewrite average_loop_length.
  split; [reflexivity|]. split; [reflexivity|].
  intros i Hi. rewrite average_loop_nth by lia.
  rewrite <- Hl. case_bounds.
Qed.

(** X8.  The first frame, and every frame whose length differs from the
    buffer's, replaces the average by the frame, whatever its centre
    frequency, and that frequency (NaN included) is the one remembered. *)
Theorem length_change_resets (alpha : Q) (b : fftBundle) (st : avg_state) :
  avg_length st <> Some (length (bundle_buffer b)) ->
  let st' := commonNewData alpha b st in
  lastDrawnCenterFreq st' = bundle_freq b /\
  avg_length st' = Some (length (bundle_buffer b)) /\
  forall i, (i < length (bundle_buffer b))%nat ->
    avg_at st' i == nth i (bundle_buffer b) 0.
Proof.
  intros Hl st'.
  assert (Hr : must_reset st b = true).
  { unfold must_reset. unfold avg_length in Hl.
    destruct (averageBuffer st) as [a|]; [|reflexivity].
    simpl in Hl.
    destruct (Nat.eqb_spec (length a) (length (bundle_buffer b))) as [E|E];
      [congruence|reflexivity]. }
  unfold st'. rewrite (commonNewData_reset _ _ _ Hr).
  unfold avg_length, avg_at. cbn [averageBuffer lastDrawnCenterFreq option_map].
  rewrite average_loop_length.
  split; [reflexivity|]. split; [reflexivity|].
  intros i Hi. rewrite average_loop_nth by lia.
  destruct (Nat.ltb_spec i (0 + length (bundle_buffer b))); [|simpl in *; lia].
  simpl. ring.
Qed.

(** X9.  Blending never overshoots: with a coefficient in [[0, 1]] the
    new average of a bin lies between its old average and the incoming
    value. *)
Theorem blend_between (alpha : Q) (b : fftBundle) (st : avg_state) (i : nat) :
  0 <= alpha -> alpha <= 1 ->
  must_reset st b = false ->
  (i < length (bundle_buffer b))%nat ->
  let old := avg_at st i in
  let incoming := nth i (bundle_buffer b) 0 in
  let new := avg_at (commonNewData alpha b st) i in
  Qmin old incoming <= new /\ new <= Qmax old incoming.
Proof.
  intros H0 H1 Hr Hi old incoming new.
  unfold new. rewrite (blend_at alpha b st i Hr Hi). fold old incoming.
  assert (Hlo1 := Q.le_min_l old incoming).
  assert (Hlo2 := Q.le_min_r old incoming).
  assert (Hhi1 := Q.le_max_l old incoming).
  assert (Hhi2 := Q.le_max_r old incoming).
  set (lo := Qmin old incoming) in *. set (hi := Qmax old incoming) in *.
  split; nra.
Qed.

End AveragingMore.

(** ** Drawing the spectrum plot *)

Section PlotDrawFacts.
Import PlotDraw.

Lemma commonNewData_shape alpha b st :
  exists a, SpectrumPlot.averageBuffer (SpectrumPlot.commonNewData alpha b st) = Some a
            /\ length a = length (bundle_buffer b).
Proof.
  destruct (SpectrumPlot.must_reset st b) eqn:Hr.
  - rewrite (commonNewData_reset _ _ _ Hr). eexists. split; [reflexivity|].
    apply average_loop_length.
  - destruct (SpectrumPlot.averageBuffer st) as [a|] eqn:Ha.
    + rewrite (commonNewData_blend _ _ _ _ Hr Ha). eexists. split; [reflexivity|].
      rewrite average_loop_length. eapply must_reset_false_length; eassumption.
    + unfold SpectrumPlot.must_reset in Hr. rewrite Ha in Hr. discriminate.
Qed.

Lemma plot_convert_loop_length n : forall i cs buf out,
  length (SpectrumPlot.convert_loop n i cs buf out) = length out.
Proof.
  induction n as [|n IH]; intros; simpl; [reflexivity|].
  rewrite IH. apply store_length.
Qed.

Lemma plot_convert_loop_nth_error n : forall i cs buf out j,
  (i + n <= length out)%nat ->
  nth_error (SpectrumPlot.convert_loop n i cs buf out) j =
  if (i <=? j)%nat && (j <? i + n)%nat
  then Some (JS.ToUint8Clamp
               (match nth_error buf j with
                | Some b => JS.Fin ((b - SpectrumView.minLevel) * cs)
                | None => JS.NaN
                end))
  else nth_error out j.
Proof.
  induction n as [|n IH]; intros i cs buf out j H; simpl.
  - case_bounds.
  - rewrite IH by (rewrite store_length; lia).
    rewrite nth_error_store.
    destruct (Nat.eqb_spec i j) as [->|Hne]; case_bounds.
Qed.

Lemma round_half_even_mono_0 (p : Q) : p <= 0 -> (JS.round_half_even p <= 0)%Z.
Proof.
  intros Hp. unfold JS.round_half_even.
  assert (Hz : (Qfloor p <= 0)%Z).
  { apply Qfloor_resp_le in Hp. exact Hp. }
  destruct (Z.eq_dec (Qfloor p) 0) as [Hi|Hi].
  - rewrite Hi.
    destruct (Qcompare_spec (p - inject_Z 0) (1 # 2)) as [E|E|E].
    + exfalso. unfold inject_Z in E. lra.
    + lia.
    + exfalso. unfold inject_Z in E. lra.
  - destruct (Qcompare _ _); [destruct (Z.even _)| |]; lia.
Qed.

Lemma round_half_even_ge (p : Q) (k : Z) :
  inject_Z k <= p -> (k <= JS.round_half_even p)%Z.
Proof.
  intros Hp. unfold JS.round_half_even.
  assert (Hz : (k <= Qfloor p)%Z).
  { rewrite <- (Qfloor_Z k). apply Qfloor_resp_le. exact Hp. }
  destruct (Qcompare _ _); [destruct (Z.even _)| |]; lia.
Qed.

Lemma curve_In n : forall i g a k,
  (i <= k < i + n)%nat ->
  In (xZero g + inject_Z (Z.of_nat k) * xScale g,
      yZero g + nth k a 0 * yScale g) (curve n i g a).
Proof.
  induction n as [|n IH]; intros i g a k Hk; [lia|].
  simpl. destruct (Nat.eq_dec i k) as [->|Hne]; [left; reflexivity|].
  right. apply IH. lia.
Qed.

(** X10.  Bin [i] of the average is drawn at the pixel of its centre
    frequency, [viewCenterFreq - bandwidth/2 + (i + 1/2) * bandwidth/len]. *)
Theorem bin_is_drawn_at_its_frequency (sv : SpectrumView.state) (w h : Q)
    (len : nat) (i : Z) :
  (0 < len)%nat ->
  ~ SpectrumView.rightVisibleFreq sv == SpectrumView.leftVisibleFreq sv ->
  let g := geometry_of sv w h len in
  xZero g + inject_Z i * xScale g ==
  freqToCoord (SpectrumView.leftVisibleFreq sv) (SpectrumView.rightVisibleFreq sv) w
    (SpectrumView.getCenterFreq sv - SpectrumView.getBandwidth sv / 2
     + (inject_Z i + (1 # 2))
       * (SpectrumView.getBandwidth sv / inject_Z (Z.of_nat len))).
Proof.
  intros Hlen Hv g.
  assert (Hn : 0 < inject_Z (Z.of_nat len)).
  { change 0 with (inject_Z 0). rewrite <- Zlt_Qlt. lia. }
  unfold g, geometry_of, freqToCoord. cbn [xZero xScale].
  set (n := inject_Z (Z.of_nat len)) in *.
  field. split; [lra|].
  intros E. apply Hv. lra.
Qed.

(** X11.  Levels map linearly to rows: [maxLevel] is drawn at the top
    row 0, [minLevel] at the bottom row [h], and a higher level is never
    drawn lower. *)
Theorem level_to_row (sv : SpectrumView.state) (w h : Q) (len : nat) (l1 l2 : Q) :
  0 <= h -> l1 <= l2 ->
  let g := geometry_of sv w h len in
  yZero g + SpectrumView.maxLevel * yScale g == 0 /\
  yZero g + SpectrumView.minLevel * yScale g == h /\
  yZero g + l2 * yScale g <= yZero g + l1 * yScale g.
Proof.
  intros Hh Hl g. unfold g, geometry_of. cbn [yZero yScale].
  unfold SpectrumView.maxLevel, SpectrumView.minLevel.
  split; [field|]. split; [field|].
  assert (E : forall l, - (30) * (- h / (30 - -60)) + l * (- h / (30 - -60))
                        == (30 - l) * h / 90) by (intros l; field).
  rewrite !E.
  apply Qmult_le_r with (z := 90); [reflexivity|].
  assert (E2 : forall l, (30 - l) * h / 90 * 90 == (30 - l) * h) by (intros l; field).
  rewrite !E2. nra.
Qed.

(** X12.  The points chosen for drawing are bins of the buffer, and no
    bin that falls on the canvas is left out: every point index lies in
    [[0, len)], and every bin drawn at an [x] in [[0, w]] is a point of
    the curve. *)
Theorem curve_covers_canvas (sv : SpectrumView.state) (w h : Q)
    (st : SpectrumPlot.avg_state) (a : list Q) :
  SpectrumPlot.averageBuffer st = Some a ->
  (0 < length a)%nat ->
  0 < xScale (geometry_of sv w h (length a)) ->
  exists g pts,
    performDraw sv w h st = Some (g, pts) /\
    (0 <= firstPoint g)%Z /\
    (afterLastPoint g <= Z.of_nat (length a))%Z /\
    forall i, (i < length a)%nat ->
      0 <= xZero g + inject_Z (Z.of_nat i) * xScale g ->
      xZero g + inject_Z (Z.of_nat i) * xScale g <= w ->
      (firstPoint g <= Z.of_nat i < afterLastPoint g)%Z /\
      In (xZero g + inject_Z (Z.of_nat i) * xScale g,
          yZero g + nth i a 0 * yScale g) pts.
Proof.
  intros Ha Hlen Hs. unfold performDraw. rewrite Ha.
  set (g := geometry_of sv w h (length a)) in *.
  do 2 eexists. split; [reflexivity|].
  assert (Hf : (0 <= firstPoint g)%Z) by (unfold g, geometry_of; cbn; lia).
  assert (Hl : (afterLastPoint g <= Z.of_nat (length a))%Z)
    by (unfold g, geometry_of; cbn [afterLastPoint]; lia).
  split; [exact Hf|]. split; [exact Hl|].
  intros i Hi Hx0 Hxw.
  assert (Hrange : (firstPoint g <= Z.of_nat i < afterLastPoint g)%Z).
  { set (x := inject_Z (Z.of_nat i)) in *.
    assert (Hlo : - xZero g / xScale g <= x).
    { apply Qle_shift_div_r; [exact Hs|]. lra. }
    assert (Hhi : x <= (w - xZero g) / xScale g).
    { apply Qle_shift_div_l; [exact Hs|]. lra. }
    assert (H1 : (Qfloor (- xZero g / xScale g) <= Z.of_nat i)%Z).
    { rewrite <- (Qfloor_Z (Z.of_nat i)). apply Qfloor_resp_le. exact Hlo. }
    assert (H2 : (Z.of_nat i <= Qceiling ((w - xZero g) / xScale g))%Z).
    { rewrite <- (Qceiling_Z (Z.of_nat i)). apply Qceiling_resp_le. exact Hhi. }
    change (firstPoint g) with (Z.max 0 (Qfloor (- xZero g / xScale g) - 1)).
    change (afterLastPoint g)
      with (Z.min (Z.of_nat (length a))
                  (Qceiling ((w - xZero g) / xScale g) + 1)).
    lia. }
  split; [exact Hrange|].
  apply curve_In. lia.
Qed.

(** X13.  The raster plot cannot be drawn before a frame has arrived:
    [performDraw] throws while the average buffer is still [null], and
    never again once [newData] has been called, whatever the frame. *)
Theorem draw_needs_a_frame (sv : SpectrumView.state) (w h alpha : Q)
    (b : fftBundle) (st : SpectrumPlot.avg_state) :
  performDraw sv w h SpectrumPlot.avg_init = None /\
  performDraw sv w h (SpectrumPlot.newData_2D alpha b st) <> None.
Proof.
  split; [reflexivity|].
  destruct (commonNewData_shape alpha b st) as (a & Ha & _).
  unfold performDraw, SpectrumPlot.newData_2D. rewrite Ha. discriminate.
Qed.

(** X14.  What the GPU plot uploads.  After [newData] with a frame that
    is not empty, the texture is as wide as the frame and texel [i] is the
    averaged level of bin [i] on the byte scale: 0 at [minLevel] and
    below, 255 at [maxLevel] and above, and within [[0, 255]] always.
    The buffer invariant is kept. *)
Theorem texture_holds_average (alpha : Q) (b : fftBundle)
    (st : SpectrumPlot.gl_state) (i : nat) :
  gl_wf st ->
  (i < length (bundle_buffer b))%nat ->
  let st' := SpectrumPlot.newData_GL alpha b st in
  let v := SpectrumPlot.avg_at (SpectrumPlot.gl_avg st') i in
  let t := nth i (SpectrumPlot.bufferTexture st') 0%Z in
  gl_wf st' /\
  SpectrumPlot.fftSize st' = length (bundle_buffer b) /\
  length (SpectrumPlot.bufferTexture st') = length (bundle_buffer b) /\
  t = JS.ToUint8Clamp
        (JS.Fin ((v - SpectrumView.minLevel)
                 * (255 / (SpectrumView.maxLevel - SpectrumView.minLevel)))) /\
  (0 <= t <= 255)%Z /\
  (v <= SpectrumView.minLevel -> t = 0%Z) /\
  (SpectrumView.maxLevel <= v -> t = 255%Z).
Proof.
  intros Hwf Hi st' v t.
  destruct (commonNewData_shape alpha b (SpectrumPlot.gl_avg st)) as (a & Ha & Hla).
  assert (Hne : (length (bundle_buffer b) =? 0)%nat = false)
    by (apply Nat.eqb_neq; lia).
  set (reconfigure :=
         negb (length (bundle_buffer b) =? SpectrumPlot.fftSize st)%nat
         || match SpectrumPlot.intConversionBuffer st with
            | None => true | Some _ => false end).
  set (fftSize1 := if reconfigure then length (bundle_buffer b)
                   else SpectrumPlot.fftSize st).
  set (conv1 := if reconfigure then repeat 0%Z fftSize1
                else match SpectrumPlot.intConversionBuffer st with
                     | Some c => c | None => [] end).
  assert (Hf : fftSize1 = length (bundle_buffer b)).
  { unfold fftSize1. destruct reconfigure eqn:E; [reflexivity|].
    unfold reconfigure in E. apply orb_false_elim in E. destruct E as [E _].
    apply negb_false_iff, Nat.eqb_eq in E. congruence. }
  assert (Hc : length conv1 = fftSize1).
  { unfold conv1. destruct reconfigure eqn:E; [apply repeat_length|].
    unfold reconfigure in E. apply orb_false_elim in E. destruct E as [_ E].
    unfold gl_wf in Hwf. destruct (SpectrumPlot.intConversionBuffer st);
      [|discriminate].
    unfold fftSize1. rewrite Hwf. reflexivity. }
  assert (Hst : st' = SpectrumPlot.mkGL
            (SpectrumPlot.commonNewData alpha b (SpectrumPlot.gl_avg st))
            fftSize1
            (Some (SpectrumPlot.convert_loop fftSize1 0
                     (255 / (SpectrumView.maxLevel - SpectrumView.minLevel)) a conv1))
            (SpectrumPlot.convert_loop fftSize1 0
               (255 / (SpectrumView.maxLevel - SpectrumView.minLevel)) a conv1)).
  { unfold st', SpectrumPlot.newData_GL. rewrite Hne.
    fold reconfigure. fold fftSize1. fold conv1. rewrite Ha. reflexivity. }
  assert (Ht : t = JS.ToUint8Clamp
        (JS.Fin ((v - SpectrumView.minLevel)
                 * (255 / (SpectrumView.maxLevel - SpectrumView.minLevel))))).
  { unfold t, v. rewrite Hst. cbn [SpectrumPlot.bufferTexture SpectrumPlot.gl_avg].
    unfold SpectrumPlot.avg_at. rewrite Ha.
    apply nth_error_nth.
    rewrite plot_convert_loop_nth_error by lia.
    destruct (Nat.leb_spec 0 i); [|lia].
    destruct (Nat.ltb_spec i (0 + fftSize1)); [|simpl in *; lia].
    simpl andb. cbv iota.
    rewrite (nth_error_nth' a 0) by lia. reflexivity. }
  split.
  { rewrite Hst. unfold gl_wf. cbn [SpectrumPlot.intConversionBuffer SpectrumPlot.fftSize].
    rewrite plot_convert_loop_length. exact Hc. }
  split; [rewrite Hst; exact Hf|].
  split.
  { rewrite Hst. cbn [SpectrumPlot.bufferTexture].
    rewrite plot_convert_loop_length. congruence. }
  split; [exact Ht|].
  rewrite Ht. unfold JS.ToUint8Clamp, SpectrumView.minLevel, SpectrumView.maxLevel.
  split; [lia|]. split.
  - intros Hv.
    assert (Hp : (v - -60) * (255 / (30 - -60)) <= 0).
    { assert (E : (v - -60) * (255 / (30 - -60)) == (v + 60) * (17 # 6)) by field.
      rewrite E. nra. }
    pose proof (round_half_even_mono_0 _ Hp). lia.
  - intros Hv.
    assert (Hp : inject_Z 255 <= (v - -60) * (255 / (30 - -60))).
    { assert (E : (v - -60) * (255 / (30 - -60)) == (v + 60) * (17 # 6)) by field.
      rewrite E. change (inject_Z 255) with 255. nra. }
    pose proof (round_half_even_ge _ _ Hp). lia.
Qed.

(** X15.  On the GPU path the canvas spans the visible frequencies and
    the texture the whole bandwidth around the view's centre: the texture
    coordinate the vertex shader gives the screen fraction [s] is that of
    the frequency [lvf + s * (rvf - lvf)]. *)
Theorem vertex_maps_visible_span (sv : SpectrumView.state) (s : Q) :
  ~ SpectrumView.getBandwidth sv == 0 ->
  let lsf := SpectrumView.getCenterFreq sv - SpectrumView.getBandwidth sv / 2 in
  lsf + vertex_x sv (2 * s - 1) * SpectrumView.getBandwidth sv ==
  SpectrumView.leftVisibleFreq sv
  + s * (SpectrumView.rightVisibleFreq sv - SpectrumView.leftVisibleFreq sv).
Proof.
  intros HB lsf. unfold lsf, vertex_x, gl_xScale, gl_xZero.
  set (B := SpectrumView.getBandwidth sv) in *.
  field. intros E. apply HB. lra.
Qed.

End PlotDrawFacts.

(** ** The colour gradient *)

Section GradientFacts.
Import WaterfallPlot.

#[global] Instance round_half_even_comp : Proper (Qeq ==> eq) JS.round_half_even.
Proof.
  intros p q E. unfold JS.round_half_even.
  assert (Ef : Qfloor q = Qfloor p) by (rewrite E; reflexivity).
  rewrite Ef.
  assert (Ec : Qcompare (p - inject_Z (Qfloor p)) (1 # 2)
               = Qcompare (q - inject_Z (Qfloor p)) (1 # 2)).
  { apply Qcompare_comp; [lra|reflexivity]. }
  rewrite Ec. reflexivity.
Qed.

Lemma ToUint8Clamp_Fin (p q : Q) :
  p == q -> JS.ToUint8Clamp (JS.Fin p) = JS.ToUint8Clamp (JS.Fin q).
Proof. intros E. unfold JS.ToUint8Clamp. rewrite E. reflexivity. Qed.

Lemma colorIndex_segment (s : Q) :
  0 <= s ->
  exists c, colorIndex (JS.Fin s) = JS.Fin c /\
            c == inject_Z (Z.min 3 (Qfloor s)) /\ (0 <= Z.min 3 (Qfloor s))%Z.
Proof.
  intros Hs. unfold colorIndex. cbn [JS.floor JS.min JS.max].
  eexists. split; [reflexivity|].
  assert (Hz : (0 <= Qfloor s)%Z).
  { change 0%Z with (Qfloor 0). apply Qfloor_resp_le. exact Hs. }
  split; [|lia].
  assert (E3 : colorCountForIndex == inject_Z 3) by reflexivity.
  set (z := Qfloor s) in *.
  assert (Hm : Qmin colorCountForIndex (inject_Z z) == inject_Z (Z.min 3 z)).
  { destruct (Q.min_spec colorCountForIndex (inject_Z z)) as [[Hm Em]|[Hm Em]];
      rewrite Em.
    - rewrite E3 in Hm. rewrite <- Zlt_Qlt in Hm. rewrite Z.min_l by lia. exact E3.
    - rewrite E3 in Hm. rewrite <- Zle_Qle in Hm. rewrite Z.min_r by lia. reflexivity. }
  destruct (Q.max_spec 0 (Qmin colorCountForIndex (inject_Z z))) as [[Hx Ex]|[Hx Ex]];
    rewrite Ex.
  - exact Hm.
  - rewrite Hm in Hx. change 0 with (inject_Z 0) in Hx. rewrite <- Zle_Qle in Hx.
    replace (Z.min 3 z) with 0%Z by lia. reflexivity.
Qed.

(** X16.  The gradient is piecewise linear through the five control
    colours.  For a value [q] in [[0, 1]] the segment is
    [k = min(3, floor(4 q))], the position in it is [t = 4 q - k], which
    lies in [[0, 1]], and each colour byte stored is the clamped rounding
    of [colors[k][ch] * (1 - t) + colors[k+1][ch] * t]. *)
Theorem gradient_is_piecewise_linear (q : Q) (outArray : list Z) (base ch : nat) :
  0 <= q -> q <= 1 -> (ch < 3)%nat -> (base + 3 < length outArray)%nat ->
  let k := Z.to_nat (Z.min 3 (Qfloor (q * 4))) in
  let t := q * 4 - inject_Z (Z.of_nat k) in
  0 <= t /\ t <= 1 /\
  exists out c0 c1,
    interpolateColor JS.ToUint8Clamp (JS.Fin q) outArray base = Some out /\
    nth_error colors k = Some c0 /\ nth_error colors (S k) = Some c1 /\
    nth (base + ch) out 0%Z
    = JS.ToUint8Clamp (JS.Fin (nth ch c0 0 * (1 - t) + nth ch c1 0 * t)).
Proof.
  intros Hq0 Hq1 Hch Hb k t.
  assert (Hs0 : 0 <= q * 4) by lra.
  destruct (colorIndex_segment (q * 4) Hs0) as (c & Ec & Ek & Hk0).
  set (z := Z.min 3 (Qfloor (q * 4))) in *.
  assert (Hk3 : (z <= 3)%Z) by (unfold z; lia).
  assert (Ekz : inject_Z (Z.of_nat k) == inject_Z z).
  { unfold k. rewrite Z2Nat.id by exact Hk0. reflexivity. }
  assert (Hfl : inject_Z (Qfloor (q * 4)) <= q * 4) by apply Qfloor_le.
  assert (Hfu : q * 4 < inject_Z (Qfloor (q * 4) + 1)) by apply Qlt_floor.
  assert (Ht : 0 <= t /\ t <= 1).
  { unfold t. rewrite Ekz. unfold z.
    destruct (Z.min_spec 3 (Qfloor (q * 4))) as [[Hlt E]|[Hle E]]; rewrite E.
    - change (inject_Z 3) with 3. split; [|lra].
      assert (H3 : inject_Z 3 <= inject_Z (Qfloor (q * 4))) by (rewrite <- Zle_Qle; lia).
      change (inject_Z 3) with 3 in H3. lra.
    - rewrite inject_Z_plus in Hfu. change (inject_Z 1) with 1 in Hfu. lra. }
  split; [apply Ht|]. split; [apply Ht|].
  assert (E0 : JS.array_index (JS.Fin c) = Some k).
  { apply array_index_integer; assumption. }
  assert (E1 : JS.array_index (JS.Fin (c + 1)) = Some (S k)).
  { replace (S k) with (Z.to_nat (z + 1)) by (unfold k; lia).
    apply array_index_integer; [|lia].
    rewrite inject_Z_plus, Ek. reflexivity. }
  assert (H0 : exists c0, nth_error colors k = Some c0).
  { destruct (nth_error colors k) eqn:E; [eauto|].
    apply nth_error_None in E. simpl in E. lia. }
  assert (H1 : exists c1, nth_error colors (S k) = Some c1).
  { destruct (nth_error colors (S k)) eqn:E; [eauto|].
    apply nth_error_None in E. simpl in E. lia. }
  destruct H0 as (c0 & Hc0). destruct H1 as (c1 & Hc1).
  unfold interpolateColor, colors_at.
  cbn [JS.mul].
  assert (Es : colorIndex (JS.Fin (q * colorCountForScale)) = JS.Fin c) by exact Ec.
  rewrite Es. cbn [JS.add JS.sub JS.mul]. rewrite E0, E1, Hc0, Hc1.
  do 3 eexists. split; [reflexivity|]. split; [reflexivity|]. split; [reflexivity|].
  assert (Et : q * colorCountForScale - c == t).
  { unfold t. rewrite Ekz, Ek. unfold colorCountForScale. simpl. ring. }
  assert (Hbyte : forall x,
            JS.ToUint8Clamp
              (JS.Fin (nth x c0 0 * (1 - (q * colorCountForScale - c))
                       + nth x c1 0 * (q * colorCountForScale - c)))
            = JS.ToUint8Clamp (JS.Fin (nth x c0 0 * (1 - t) + nth x c1 0 * t))).
  { intros x. apply ToUint8Clamp_Fin. rewrite Et. reflexivity. }
  destruct ch as [|[|[|ch]]]; [| | |lia].
  - rewrite Nat.add_0_r.
    rewrite !nth_store_other by lia.
    rewrite nth_store_same by lia. apply Hbyte.
  - rewrite nth_store_other by lia.
    rewrite nth_store_other by lia.
    rewrite nth_store_same by (rewrite store_length; lia). apply Hbyte.
  - rewrite nth_store_other by lia.
    rewrite nth_store_same by (rewrite !store_length; lia). apply Hbyte.
Qed.

End GradientFacts.

(** ** The raster waterfall *)

Section RasterMore.
Import WaterfallPlot WaterfallPlot.Raster RasterInv.

Lemma begin_draw_wf v st :
  wf st ->
  wf (begin_draw v st) /\ hc (begin_draw v st) = hc st /\
  dataToDraw (begin_draw v st) = dataToDraw st.
Proof.
  intros (Hn & Hl & Hp). unfold begin_draw, wf.
  destruct (dataToDraw st) as [d|] eqn:Ed.
  - destruct (_ =? _)%nat;
      cbn [hc slices slicePtr lastDrawnCenterFreq dataToDraw cv length];
      repeat split; try assumption; lia.
  - cbn [hc slices slicePtr lastDrawnCenterFreq dataToDraw cv].
    repeat split; assumption.
Qed.

Lemma performDraw_wf v st :
  wf st ->
  exists st' ops, performDraw v st = Some (st', ops) /\ wf st' /\ hc st' = hc st.
Proof.
  intros Hwf.
  destruct (begin_draw_wf v st Hwf) as ((Hn & Hl & Hp) & Hhc & Hd).
  unfold performDraw.
  destruct (dataToDraw (begin_draw v st)) as [d|] eqn:Ed.
  - destruct (Nat.eqb_spec (length (bundle_buffer d)) 0) as [E0|E0].
    + do 2 eexists. split; [reflexivity|]. split; [|exact Hhc].
      repeat split; assumption.
    + destruct (write_slice_spec d (begin_draw v st))
        as (st2 & data & Ews & H2hc & _ & _ & _ & H2len & H2p & _); try assumption; [lia|].
      rewrite Ews. cbn [bind].
      destruct (paint_total v (canvas_height (cv st)) (Some (d, data)) st2)
        as (st3 & ops & Ep & H3hc & H3s & H3p & _).
      rewrite Ep. exists st3, ops. split; [reflexivity|].
      unfold wf. rewrite H3hc, H3s, H3p, H2hc, H2len, H2p.
      split; [|congruence].
      split; [exact Hn|]. split; [lia|].
      destruct (_ <? _)%nat; [exact Hp|].
      apply Nat.mod_upper_bound. lia.
  - destruct (paint_total v (canvas_height (cv st)) None (begin_draw v st))
      as (st3 & ops & Ep & H3hc & H3s & H3p & _).
    rewrite Ep. exists st3, ops. split; [reflexivity|].
    unfold wf. rewrite H3hc, H3s, H3p. split; [|exact Hhc].
    repeat split; assumption.
Qed.


(** X18.  A frame of another width restarts the raster history: when a
    frame that is not empty arrives whose length differs from the canvas
    width, the canvas takes that width, and the ring afterwards holds
    this frame alone, with the cursor at 0. *)
Theorem raster_width_change_restarts (v : view) (b : fftBundle) (st : state) :
  wf st ->
  (0 < length (bundle_buffer b))%nat ->
  canvas_width (cv st) <> length (bundle_buffer b) ->
  exists st' ops img,
    newData v b st = Some (st', ops) /\
    slices st' = [(img, bundle_freq b)] /\
    slicePtr st' = 0%nat /\
    canvas_width (cv st') = length (bundle_buffer b).
Proof.
  intros (Hn & Hl & Hp) Hw Hne.
  unfold newData, performDraw.
  set (st0 := mkState (hc st) (slices st) (slicePtr st) (lastDrawnCenterFreq st)
                (Some b) (cv st)).
  assert (E1 : begin_draw v st0 =
               mkState (hc st) [] 0 (lastDrawnCenterFreq st) (Some b)
                 (mkCanvas (length (bundle_buffer b))
                    (canvas_height (commonBeforeDraw (hc st) v (cv st))) true)).
  { unfold begin_draw, st0.
    cbn [hc slices slicePtr lastDrawnCenterFreq dataToDraw cv].
    rewrite commonBeforeDraw_width.
    destruct (Nat.eqb_spec (canvas_width (cv st)) (length (bundle_buffer b)));
      [contradiction|reflexivity]. }
  rewrite E1. cbn [dataToDraw].
  destruct (Nat.eqb_spec (length (bundle_buffer b)) 0) as [E0|_]; [lia|].
  set (st1 := mkState (hc st) [] 0 (lastDrawnCenterFreq st) (Some b) _).
  destruct (write_slice_spec b st1)
    as (st2 & data & Ews & H2hc & _ & H2cv & _ & H2len & H2p & H2slot & _);
    [exact Hw|exact Hn|simpl; lia|exact Hn|].
  rewrite Ews. cbn [bind].
  destruct (paint_total v (canvas_height (cv st0)) (Some (b, data)) st2)
    as (st3 & ops & Ep & _ & H3s & H3p & _ & H3w).
  rewrite Ep. exists st3, ops, data. split; [reflexivity|].
  unfold write_cursor, st1 in H2slot, H2len, H2p.
  cbn [hc slices slicePtr length] in H2slot, H2len, H2p.
  destruct (Nat.ltb_spec 0 (hc st)) as [_|Hbad]; [|lia].
  rewrite H3s, H3p, H3w, H2cv, H2p.
  split; [|split; reflexivity].
  assert (Hlen1 : length (slices st2) = 1%nat) by lia.
  clear H2len.
  destruct (slices st2) as [|s0 [|s1 rest]]; simpl in Hlen1, H2slot.
  - discriminate.
  - injection H2slot as ->. reflexivity.
  - discriminate.
Qed.

Lemma slot_nat (i p n : nat) :
  (0 < n)%nat ->
  Z.to_nat (mod_Z (Z.of_nat i + Z.of_nat p) (Z.of_nat n)) = ((i + p) mod n)%nat.
Proof.
  intros Hn. rewrite mod_Z_is_modulo by lia.
  rewrite <- Nat2Z.inj_add, <- Nat2Z.inj_mod. apply Nat2Z.id.
Qed.

Lemma repaint_loop_rows m : forall st vcf os w y0 ops yl,
  (m <= length (slices st))%nat ->
  repaint_loop m (length (slices st)) st vcf os w y0 = Some (ops, yl) ->
  (forall i, (i < m)%nat ->
     (length (slices st) - i < canvas_height (cv st))%nat ->
     exists sl,
       nth_error (slices st) ((i + slicePtr st) mod length (slices st)) = Some sl /\
       In (putImageData (fst sl) (paint_x (snd sl) vcf os)
             (JS.of_nat (length (slices st) - i))) ops) /\
  (forall img dx dy, In (putImageData img dx dy) ops ->
     exists y, dy = JS.of_nat y /\ (1 <= y)%nat).
Proof.
  induction m as [|i IH]; intros st vcf os w y0 ops yl Hm E.
  - simpl in E. injection E as <- <-. split; [intros; lia|intros ? ? ? []].
  - simpl in E. rewrite slot_nat in E by lia.
    destruct (nth_error (slices st) _) as [sl|] eqn:Esl; [|discriminate].
    cbn [bind] in E.
    destruct (Nat.leb_spec (canvas_height (cv st)) (length (slices st) - i)) as [Hbrk|Hgo].
    + injection E as <- <-. split; [intros; lia|intros ? ? ? []].
    + destruct (repaint_loop i (length (slices st)) st vcf os w
                  (Some (length (slices st) - i)%nat)) as [[ops' yl']|] eqn:Er;
        [|discriminate].
      cbn [bind] in E. injection E as <- <-.
      destruct (IH st vcf os w _ ops' yl' ltac:(lia) Er) as (IH1 & IH2).
      split.
      * intros k Hk Hrow. destruct (Nat.eq_dec k i) as [->|Hne].
        -- exists sl. split; [exact Esl|]. right. left. reflexivity.
        -- destruct (IH1 k ltac:(lia) Hrow) as (sl' & Hs' & Hin).
           exists sl'. split; [exact Hs'|]. right. right. exact Hin.
      * intros img dx dy [Hin|[Hin|Hin]].
        -- discriminate.
        -- injection Hin as _ _ <-. exists (length (slices st) - i)%nat.
           split; [reflexivity|lia].
        -- eapply IH2. exact Hin.
Qed.

Lemma ring_slot (L n y : nat) :
  (0 < n)%nat -> (1 <= y)%nat -> (y <= n)%nat -> (n <= L)%nat ->
  ((n - y + L mod n) mod n = (L - y) mod n)%nat.
Proof.
  intros Hn Hy Hyn HL.
  pose proof (Nat.div_mod_eq L n) as HD.
  pose proof (Nat.mod_upper_bound L n ltac:(lia)) as Hr.
  rewrite <- (Nat.Div0.mod_add (n - y + L mod n) (L / n) n).
  rewrite <- (Nat.Div0.mod_add (L - y) 1 n).
  f_equal. nia.
Qed.


End RasterMore.

(** ** The GPU waterfall on screen *)

Section ShaderFacts.
Import WaterfallPlot WaterfallPlot.GL WaterfallShader.

Lemma Qfloor_unique (y : Q) (z : Z) :
  inject_Z z <= y -> y < inject_Z (z + 1) -> Qfloor y = z.
Proof.
  intros Hl Hu.
  pose proof (Qfloor_le y) as Fl. pose proof (Qlt_floor y) as Fu.
  assert (H1 : inject_Z (Qfloor y) < inject_Z (z + 1)) by lra.
  assert (H2 : inject_Z z < inject_Z (Qfloor y + 1)) by lra.
  rewrite <- Zlt_Qlt in H1, H2. lia.
Qed.

Lemma Qfloor_shift (N : Z) (e : Q) :
  0 <= e -> e < 1 -> Qfloor (inject_Z N + e) = N.
Proof.
  intros H0 H1. apply Qfloor_unique.
  - lra.
  - rewrite inject_Z_plus. change (inject_Z 1) with 1. lra.
Qed.

Lemma Qfloor_div_shift (N n : Z) (e : Q) :
  (0 < n)%Z -> 0 <= e -> e < 1 ->
  Qfloor ((inject_Z N + e) / inject_Z n) = (N / n)%Z.
Proof.
  intros Hn H0 H1.
  assert (Hn' : 0 < inject_Z n) by (apply inject_Z_sign; exact Hn).
  pose proof (Z.div_mod N n ltac:(lia)) as HD.
  pose proof (Z.mod_pos_bound N n Hn) as HR.
  assert (EN : inject_Z N == inject_Z n * inject_Z (N / n) + inject_Z (N mod n)).
  { rewrite <- inject_Z_mult, <- inject_Z_plus, <- HD. reflexivity. }
  assert (Hr0 : 0 <= inject_Z (N mod n)) by (apply inject_Z_sign; lia).
  assert (Hr1 : inject_Z (N mod n) + 1 <= inject_Z n).
  { change 1 with (inject_Z 1). rewrite <- inject_Z_plus, <- Zle_Qle. lia. }
  apply Qfloor_unique.
  - apply Qle_shift_div_l; [exact Hn'|]. rewrite EN. nra.
  - apply Qlt_shift_div_r; [exact Hn'|].
    rewrite inject_Z_plus, EN. change (inject_Z 1) with 1. nra.
Qed.

Lemma commonBeforeDraw_height n v c :
  canvas_height (commonBeforeDraw n v c) = Nat.min (canvas_offsetHeight v) n.
Proof.
  unfold commonBeforeDraw.
  destruct (Nat.eqb_spec (Nat.min (canvas_offsetHeight v) n) (canvas_height c));
    [symmetry; assumption|reflexivity].
Qed.


End ShaderFacts.

(** ** Receiver marks *)

Section MarksFacts.
Import ReceiverMarks.

(** X21.  The overlay canvases line up with the scale.  When the canvas
    is as wide as the viewport, the margin [draw] gives it plus the
    canvas coordinate of a frequency is the CSS offset [freqToCSSLeft]
    gives that frequency; the hair for it is stroked through the middle
    of the pixel column under that offset. *)
Theorem overlay_alignment (sv : SpectrumView.state) (w freq : Q) :
  ~ SpectrumView.pixelsPerHertz sv == 0 ->
  ~ SpectrumView.pixelWidth sv == 0 ->
  w == SpectrumView.getVisiblePixelWidth sv ->
  let lvf := SpectrumView.leftVisibleFreq sv in
  let rvf := SpectrumView.rightVisibleFreq sv in
  style_marginLeft sv + freqToCoord lvf rvf w freq
    == SpectrumView.freqToCSSLeft sv freq /\
  exists x, drawHair lvf rvf w freq = hair x /\
    x == inject_Z (Qfloor (SpectrumView.freqToCSSLeft sv freq
                           - style_marginLeft sv)) + (1 # 2).
Proof.
  intros Hp Hw Ew lvf rvf.
  assert (E : style_marginLeft sv + freqToCoord lvf rvf w freq
              == SpectrumView.freqToCSSLeft sv freq).
  { unfold style_marginLeft, freqToCoord, PlotDraw.freqToCoord, lvf, rvf,
      SpectrumView.freqToCSSLeft, SpectrumView.leftVisibleFreq,
      SpectrumView.rightVisibleFreq.
    rewrite Ew. unfold SpectrumView.getVisiblePixelWidth.
    field. split; [exact Hp|].
    intros H. apply Hw.
    assert (Hd : (SpectrumView.cacheScrollLeft sv + SpectrumView.pixelWidth sv)
                 / SpectrumView.pixelsPerHertz sv
                 - SpectrumView.cacheScrollLeft sv / SpectrumView.pixelsPerHertz sv
                 == SpectrumView.pixelWidth sv / SpectrumView.pixelsPerHertz sv)
      by (field; exact Hp).
    assert (Hz : SpectrumView.pixelWidth sv / SpectrumView.pixelsPerHertz sv == 0)
      by lra.
    assert (Hm : SpectrumView.pixelWidth sv
                 == SpectrumView.pixelWidth sv / SpectrumView.pixelsPerHertz sv
                    * SpectrumView.pixelsPerHertz sv) by (field; exact Hp).
    rewrite Hm, Hz. ring. }
  split; [exact E|].
  eexists. split; [reflexivity|].
  assert (Ef : freqToCoord lvf rvf w freq
               == SpectrumView.freqToCSSLeft sv freq - style_marginLeft sv) by lra.
  rewrite Ef. reflexivity.
Qed.

(** X22.  The squelch hair is never shorter than 30 pixels: a shorter
    span is widened about its middle, a span of 30 pixels or more is
    left alone, and the hair covers the span it was made from. *)
Theorem squelch_hair_is_wide (squelchL squelchR : Q) :
  let span := squelch_span squelchL squelchR in
  30 <= snd span - fst span /\
  fst span + snd span == squelchL + squelchR /\
  (squelchL <= squelchR -> fst span <= squelchL /\ squelchR <= snd span) /\
  (30 <= squelchR - squelchL -> span = (squelchL, squelchR)).
Proof.
  unfold squelch_span.
  destruct (Qlt_le_dec (squelchR - squelchL) 30) as [H|H]; cbn [fst snd].
  - split; [|split; [|split]].
    + assert (E : (squelchR + squelchL) / 2 + 30 / 2
                  - ((squelchR + squelchL) / 2 - 30 / 2) == 30) by field.
      rewrite E. apply Qle_refl.
    + field.
    + intros Hle.
      assert (E1 : (squelchR + squelchL) / 2 - 30 / 2
                   == (squelchR + squelchL - 30) * (1 # 2)) by field.
      assert (E2 : (squelchR + squelchL) / 2 + 30 / 2
                   == (squelchR + squelchL + 30) * (1 # 2)) by field.
      rewrite E1, E2. split; lra.
    + intros H30. exfalso. lra.
  - split; [exact H|]. split; [reflexivity|]. split; [|reflexivity].
    intros _. split; apply Qle_refl.
Qed.

Lemma draw_receivers_app lvf rvf w yZero yScale : forall pre now post,
  exists now',
    draw_receivers lvf rvf w yZero yScale now (pre ++ post)
    = draw_receivers lvf rvf w yZero yScale now pre
      ++ draw_receivers lvf rvf w yZero yScale now' post /\
    (forall f, (forall r, In r pre -> band_filter_shape r = None) ->
       now = Some f -> now' = Some f).
Proof.
  induction pre as [|r pre IH]; intros now post.
  - exists now. split; [reflexivity|]. intros f _ E. exact E.
  - destruct (draw_receiver lvf rvf w yZero yScale now r) as [now1 marks] eqn:E1.
    destruct (IH now1 post) as (now' & E & Hkeep).
    exists now'. split.
    + cbn [draw_receivers app]. rewrite E1, E, app_assoc. reflexivity.
    + intros f Hnone Hnow. apply Hkeep.
      * intros r' Hr'. apply Hnone. right. exact Hr'.
      * unfold draw_receiver in E1. rewrite (Hnone r (or_introl eq_refl)) in E1.
        injection E1 as <- _. exact Hnow.
Qed.

(** X23.  A receiver without a band filter is drawn with the filter of
    the receiver before it.  When a receiver with the filter [f] is
    followed, directly or after others that have none, by a receiver
    without a [band_filter_shape] cell, the two bands of [f] are drawn
    around the later receiver's frequency as well. *)
Theorem band_filter_is_carried_over (lvf rvf w : Q) (yZero yScale : JS.number)
    (now : option band_filter) (pre mid post : list receiver)
    (r1 r2 : receiver) (f : band_filter) :
  band_filter_shape r1 = Some f ->
  (forall r, In r mid -> band_filter_shape r = None) ->
  band_filter_shape r2 = None ->
  let marks :=
    draw_receivers lvf rvf w yZero yScale now
      (pre ++ r1 :: mid ++ r2 :: post) in
  In (drawBand lvf rvf w (rec_freq r2 + low f - width f / 2)
                         (rec_freq r2 + high f + width f / 2)) marks /\
  In (drawBand lvf rvf w (rec_freq r2 + low f + width f / 2)
                         (rec_freq r2 + high f - width f / 2)) marks.
Proof.
  intros H1 Hmid H2 marks. unfold marks.
  destruct (draw_receivers_app lvf rvf w yZero yScale pre now
              (r1 :: mid ++ r2 :: post)) as (now1 & -> & _).
  cbn [draw_receivers].
  destruct (draw_receiver lvf rvf w yZero yScale now1 r1) as [now2 m1] eqn:E1.
  assert (Hn2 : now2 = Some f).
  { unfold draw_receiver in E1. rewrite H1 in E1. injection E1 as <- _. reflexivity. }
  destruct (draw_receivers_app lvf rvf w yZero yScale mid now2 (r2 :: post))
    as (now3 & -> & Hkeep).
  specialize (Hkeep f Hmid Hn2). subst now3.
  cbn [draw_receivers].
  unfold draw_receiver. rewrite H2. cbv beta iota zeta.
  split; apply in_or_app; right; apply in_or_app; right;
    apply in_or_app; right; apply in_or_app; left; apply in_or_app; left;
    simpl; auto.
Qed.

Lemma draw_receivers_squelch lvf rvf w yZero yScale : forall rs now l r y,
  In (squelch_line l r y) (draw_receivers lvf rvf w yZero yScale now rs) ->
  exists threshold,
    y = JS.add (JS.floor (JS.add yZero (JS.mul (JS.Fin threshold) yScale)))
               (JS.Fin (1 # 2)).
Proof.
  induction rs as [|r0 rs IH]; intros now l r y Hin; [destruct Hin|].
  simpl in Hin. apply in_app_or in Hin. destruct Hin as [Hin|Hin].
  - apply in_app_or in Hin. destruct Hin as [Hin|Hin].
    + destruct (match band_filter_shape r0 with Some f => Some f | None => now end);
        simpl in Hin; [destruct Hin as [Hin|[Hin|[]]]|destruct Hin]; discriminate.
    + apply in_app_or in Hin. destruct Hin as [Hin|Hin].
      * destruct (squelch_threshold r0) as [thr|]; [|destruct Hin].
        destruct Hin as [Hin|[]]. injection Hin as _ _ <-.
        exists thr. reflexivity.
      * destruct Hin as [Hin|[]]. discriminate.
  - eapply IH. exact Hin.
Qed.


End MarksFacts.

(** ** The knob *)

Section KnobFacts.
Import Knob.

Lemma Qfloor_add_Z (x : Q) (c : Z) : Qfloor (x + inject_Z c) = (Qfloor x + c)%Z.
Proof.
  pose proof (Qfloor_le x) as Fl. pose proof (Qlt_floor x) as Fu.
  rewrite inject_Z_plus in Fu. change (inject_Z 1) with 1 in Fu.
  apply Qfloor_unique.
  - rewrite inject_Z_plus. lra.
  - rewrite !inject_Z_plus. change (inject_Z 1) with 1. lra.
Qed.

Lemma Qfloor_div_Z (x : Q) (n : Z) :
  (0 < n)%Z -> Qfloor (x / inject_Z n) = (Qfloor x / n)%Z.
Proof.
  intros Hn.
  pose proof (Qfloor_le x) as Fl. pose proof (Qlt_floor x) as Fu.
  rewrite inject_Z_plus in Fu. change (inject_Z 1) with 1 in Fu.
  assert (E : x / inject_Z n
              == (inject_Z (Qfloor x) + (x - inject_Z (Qfloor x))) / inject_Z n).
  { assert (Hn' : 0 < inject_Z n) by (apply inject_Z_sign; exact Hn).
    field. lra. }
  rewrite E. apply Qfloor_div_shift; [exact Hn|lra|lra].
Qed.

Lemma pow10_pos (i : nat) : (0 < 10 ^ Z.of_nat i)%Z.
Proof. apply Z.pow_pos_nonneg; lia. Qed.

Lemma Qfloor_pow10 (x : Q) (i j : nat) :
  (i <= j)%nat ->
  Qfloor (x / inject_Z (10 ^ Z.of_nat j))
  = (Qfloor (x / inject_Z (10 ^ Z.of_nat i)) / 10 ^ Z.of_nat (j - i))%Z.
Proof.
  intros Hij.
  pose proof (pow10_pos i) as Hi. pose proof (pow10_pos (j - i)) as Hd.
  rewrite <- Qfloor_div_Z by exact Hd.
  assert (Ep : (10 ^ Z.of_nat j = 10 ^ Z.of_nat i * 10 ^ Z.of_nat (j - i))%Z).
  { rewrite <- Z.pow_add_r by lia. f_equal. lia. }
  assert (E : x / inject_Z (10 ^ Z.of_nat j)
              == x / inject_Z (10 ^ Z.of_nat i) / inject_Z (10 ^ Z.of_nat (j - i))).
  { rewrite Ep, inject_Z_mult.
    assert (H1 : 0 < inject_Z (10 ^ Z.of_nat i)) by (apply inject_Z_sign; exact Hi).
    assert (H2 : 0 < inject_Z (10 ^ Z.of_nat (j - i))) by (apply inject_Z_sign; exact Hd).
    field. split; lra. }
  rewrite E. reflexivity.
Qed.

Lemma scale_is_one (i : nat) :
  Qeq_bool (inject_Z (10 ^ Z.of_nat i)) 1 = true <-> i = 0%nat.
Proof.
  split.
  - intros H. apply Qeq_bool_iff in H.
    change 1 with (inject_Z 1) in H. apply -> inject_Z_injective in H.
    destruct i as [|i]; [reflexivity|exfalso].
    rewrite Nat2Z.inj_succ, Z.pow_succ_r in H by lia.
    pose proof (pow10_pos i). lia.
  - intros ->. reflexivity.
Qed.

(** X25.  Typing a digit into place [i] of the knob sets that decimal
    digit of the magnitude and no other: the sign is kept, every other
    place keeps its digit, and typing into the units place also clears
    the fraction. *)
Theorem digit_entry_sets_digit (i : nat) (ch : Ascii.ascii) (input : Z) (v : number) :
  0 <= magnitude v ->
  parseInt ch = Some input ->
  exists v',
    keypress None i ch v = Some v' /\
    negative v' = negative v /\
    0 <= magnitude v' /\
    digit_at i (magnitude v') = input /\
    (forall j, j <> i -> digit_at j (magnitude v') = digit_at j (magnitude v)) /\
    (i = 0%nat -> magnitude v' == inject_Z (Qfloor (magnitude v'))).
Proof.
  intros Hm Hin.
  assert (Hd : (0 <= input <= 9)%Z /\
               ((ch =? "-") || (ch =? "_"))%char = false /\
               ((ch =? "+") || (ch =? "="))%char = false).
  { unfold parseInt in Hin.
    destruct ((48 <=? Z.of_nat (nat_of_ascii ch))
              && (Z.of_nat (nat_of_ascii ch) <=? 57))%Z eqn:Eb; [|discriminate].
    injection Hin as <-.
    apply andb_true_iff in Eb. destruct Eb as [E1 E2].
    apply Z.leb_le in E1, E2. split; [lia|].
    split; apply orb_false_iff; split; apply Ascii.eqb_neq; intros ->;
      simpl in E1, E2; lia. }
  destruct Hd as (Hd & Hs1 & Hs2).
  unfold keypress. rewrite Hs1, Hs2, Hin. unfold clamp.
  set (m := magnitude v) in *.
  set (S := inject_Z (10 ^ Z.of_nat i)).
  assert (HS : 0 < S) by (apply inject_Z_sign, pow10_pos).
  set (F := Qfloor (m / S)).
  assert (HF : (0 <= F)%Z).
  { change 0%Z with (Qfloor 0). apply Qfloor_resp_le.
    apply Qle_shift_div_l; [exact HS|]. lra. }
  set (cur := if Qeq_bool S 1 then JS.rem (m / S) 10
              else JS.rem (inject_Z F) 10).
  set (m' := m + (inject_Z input - cur) * S).
  pose proof (Z.div_mod F 10 ltac:(lia)) as HD.
  pose proof (Z.mod_pos_bound F 10 ltac:(lia)) as HR.
  (* the new magnitude, place [i] and above *)
  assert (Hnew : Qfloor (m' / S) = (10 * (F / 10) + input)%Z /\
                 (i = 0%nat -> m' == inject_Z (10 * (F / 10) + input)) /\
                 (i <> 0%nat -> m' == m + inject_Z (input - F mod 10) * S)).
  { destruct (Qeq_bool S 1) eqn:ES.
    - assert (Ei : i = 0%nat) by (apply scale_is_one; exact ES).
      apply Qeq_bool_iff in ES.
      assert (Ecur : cur == m / S - 10 * inject_Z (F / 10)).
      { unfold cur, JS.rem.
        assert (Et : JS.Qtrunc (m / S / 10) = (F / 10)%Z).
        { rewrite Qtrunc_nonneg.
          - change 10 with (inject_Z 10). rewrite Qfloor_div_Z by lia. reflexivity.
          - apply Qle_shift_div_l; [reflexivity|].
            rewrite Qmult_0_l. apply Qle_shift_div_l; [exact HS|]. lra. }
        rewrite Et. reflexivity. }
      assert (Em : m' == inject_Z (10 * (F / 10) + input)).
      { unfold m'. rewrite Ecur, inject_Z_plus, inject_Z_mult.
        change (inject_Z 10) with 10. rewrite ES. field. }
      split; [|split; [intros _; exact Em|intros Hne; contradiction]].
      assert (E1 : m' / S == inject_Z (10 * (F / 10) + input)).
      { rewrite Em, ES. field. }
      rewrite E1. apply Qfloor_Z.
    - assert (Ei : i <> 0%nat).
      { intros E0. apply scale_is_one in E0. fold S in E0. congruence. }
      assert (Ecur : cur == inject_Z (F mod 10)).
      { unfold cur. change 10 with (inject_Z 10) at 1.
        rewrite rem_inject_Z by lia. unfold JS.remZ.
        rewrite Z.rem_mod_nonneg by lia. reflexivity. }
      assert (Em : m' == m + inject_Z (input - F mod 10) * S).
      { unfold m'. rewrite Ecur. unfold Z.sub.
        rewrite inject_Z_plus, inject_Z_opp. ring. }
      split; [|split; [intros E0; contradiction|intros _; exact Em]].
      assert (E1 : m' / S == m / S + inject_Z (input - F mod 10)).
      { rewrite Em. field. lra. }
      rewrite E1, Qfloor_add_Z. fold F. lia. }
  destruct Hnew as (Hfl & Hint & Hshift).
  assert (Hm' : 0 <= m').
  { assert (H0 : 0 <= m' / S).
    { eapply Qle_trans; [|apply Qfloor_le]. rewrite Hfl.
      apply inject_Z_sign. lia. }
    assert (E : m' == m' / S * S) by (field; lra).
    rewrite E. nra. }
  assert (Eof : of_Q m' = mkNumber false m').
  { unfold of_Q. destruct (Qlt_le_dec m' 0) as [Hlt|_]; [exfalso; lra|reflexivity]. }
  rewrite Eof.
  exists (if negative v then neg (mkNumber false m') else mkNumber false m').
  split; [reflexivity|].
  assert (Emag : magnitude (if negative v then neg (mkNumber false m')
                            else mkNumber false m') = m')
    by (destruct (negative v); reflexivity).
  rewrite Emag.
  split; [destruct (negative v); reflexivity|].
  split; [exact Hm'|].
  split.
  { unfold digit_at. fold S. rewrite Hfl.
    rewrite Z.add_comm, Z.mul_comm, Z.mod_add by lia.
    apply Z.mod_small. lia. }
  split.
  - intros j Hj. unfold digit_at.
    destruct (Nat.lt_ge_cases i j) as [Hlt|Hge].
    + rewrite (Qfloor_pow10 m' i j), (Qfloor_pow10 m i j) by lia.
      fold S. fold F. rewrite Hfl.
      replace (Z.of_nat (j - i)) with (Z.succ (Z.of_nat (j - i - 1))) by lia.
      rewrite Z.pow_succ_r by lia.
      pose proof (pow10_pos (j - i - 1)) as Hp.
      rewrite <- !Z.div_div by lia.
      replace ((10 * (F / 10) + input) / 10)%Z with (F / 10)%Z; [reflexivity|].
      rewrite Z.add_comm, Z.mul_comm, Z.div_add by lia.
      rewrite (Z.div_small input 10) by lia. reflexivity.
    + assert (Hji : (j < i)%nat) by lia.
      assert (Ei : i <> 0%nat) by lia.
      specialize (Hshift Ei).
      assert (Ep : (10 ^ Z.of_nat i
                    = 10 ^ Z.of_nat (i - j - 1) * 10 * 10 ^ Z.of_nat j)%Z).
      { replace (Z.of_nat i) with (Z.of_nat (i - j - 1) + 1 + Z.of_nat j)%Z at 1 by lia.
        rewrite !Z.pow_add_r by lia. rewrite Z.pow_1_r. reflexivity. }
      pose proof (pow10_pos j) as Hpj.
      assert (HSj : 0 < inject_Z (10 ^ Z.of_nat j)) by (apply inject_Z_sign; exact Hpj).
      assert (E : m' / inject_Z (10 ^ Z.of_nat j)
                  == m / inject_Z (10 ^ Z.of_nat j)
                     + inject_Z ((input - F mod 10) * 10 ^ Z.of_nat (i - j - 1) * 10)).
      { rewrite Hshift. unfold S. rewrite Ep, !inject_Z_mult. field. lra. }
      rewrite E, Qfloor_add_Z. apply Z.mod_add. lia.
  - intros E0. rewrite (Hint E0), Qfloor_Z. reflexivity.
Qed.

End KnobFacts.

(** ** The frequency scale *)

Section ScaleFacts.
Import FreqScale.

Lemma widen_spec (Min : Q) (f : nat) : forall step,
  0 < step ->
  Min <= step * inject_Z (10 ^ Z.of_nat f) ->
  exists s k,
    widen (S f) step Min = Some s /\
    s == step * inject_Z (10 ^ Z.of_nat k) /\
    Min <= s /\
    (k = 0%nat \/ s / 10 < Min).
Proof.
  induction f as [|f IH]; intros step Hs HM.
  - exists step, 0%nat.
    change (inject_Z (10 ^ Z.of_nat 0)) with 1 in *.
    cbn [widen].
    destruct (Qlt_le_dec step Min) as [Hlt|Hle]; [exfalso; lra|].
    split; [reflexivity|]. split; [ring|]. split; [exact Hle|left; reflexivity].
  - cbn [widen]. destruct (Qlt_le_dec step Min) as [Hlt|Hle].
    + destruct (IH (step * scale_coarse)) as (s & k & E & Es & Hm & Hk).
      { unfold scale_coarse. lra. }
      { rewrite Nat2Z.inj_succ, Z.pow_succ_r, inject_Z_mult in HM by lia.
        unfold scale_coarse. change (inject_Z 10) with 10 in HM. lra. }
      exists s, (S k). split; [exact E|]. split.
      * rewrite Es, Nat2Z.inj_succ, Z.pow_succ_r, inject_Z_mult by lia.
        unfold scale_coarse. change (inject_Z 10) with 10. ring.
      * split; [exact Hm|]. right. destruct Hk as [->|Hk]; [|exact Hk].
        change (inject_Z (10 ^ Z.of_nat 0)) with 1 in Es.
        unfold scale_coarse in Es.
        assert (E10 : s / 10 == step) by (rewrite Es; field).
        rewrite E10. exact Hlt.
    + exists step, 0%nat.
      change (inject_Z (10 ^ Z.of_nat 0)) with 1.
      split; [reflexivity|]. split; [ring|]. split; [exact Hle|left; reflexivity].
Qed.

(** X26.  The spacing of the scale's numbers.  As long as sixty pixels
    are less than 1e308 Hz wide, the step found is a power of ten, or a
    half or a quarter of one; the numbers are then at least [labelWidth]
    pixels apart, and less than two and a half times that when a step of
    1 Hz would be too narrow. *)
Theorem label_step (sv : SpectrumView.state) :
  SpectrumView.prepared sv ->
  0 < SpectrumView.pixelsPerHertz sv ->
  0 < SpectrumView.bandwidth sv ->
  MinHzPerLabel sv <= inject_Z (10 ^ 308) ->
  exists step k,
    choose_step (MinHzPerLabel sv) = Some step /\
    (step == inject_Z (10 ^ Z.of_nat k) \/
     step == inject_Z (10 ^ Z.of_nat k) / 2 \/
     step == inject_Z (10 ^ Z.of_nat k) / 4) /\
    MinHzPerLabel sv <= step /\
    labelWidth <= SpectrumView.freqToCSSLength sv step /\
    (1 < MinHzPerLabel sv ->
     SpectrumView.freqToCSSLength sv step < (5 # 2) * labelWidth).
Proof.
  intros Hprep Hp HB HM.
  destruct (prepared_fields sv Hprep) as (Eb & _).
  set (Min := MinHzPerLabel sv) in *.
  destruct (widen_spec Min 308 1) as (s & k & E & Es & Hm & Hk);
    [reflexivity| |].
  { rewrite Qmult_1_l. exact HM. }
  rewrite Qmult_1_l in Es.
  assert (Hs : MinHzPerLabel sv <= narrow s Min /\
               (1 < Min -> narrow s Min < (5 # 2) * Min) /\
               (narrow s Min == s \/ narrow s Min == s / 2 \/
                narrow s Min == s / 4)).
  { fold Min. unfold narrow, scale_fine1, scale_fine2.
    assert (Hk' : 1 < Min -> s / 10 < Min).
    { intros H1. destruct Hk as [->|Hk]; [|exact Hk].
      change (inject_Z (10 ^ Z.of_nat 0)) with 1 in Es. exfalso. lra. }
    destruct (Qlt_le_dec Min (s / 4)) as [H4|H4].
    - split; [lra|]. split; [|right; right; reflexivity].
      intros H1. specialize (Hk' H1).
      assert (E4 : s / 4 == (5 # 2) * (s / 10)) by field. lra.
    - destruct (Qlt_le_dec Min (s / 2)) as [H2|H2].
      + split; [lra|]. split; [|right; left; reflexivity].
        intros H1. assert (E2 : s / 2 == 2 * (s / 4)) by field. lra.
      + split; [exact Hm|]. split; [|left; reflexivity].
        intros H1. assert (E2 : s == 2 * (s / 2)) by field. lra. }
  destruct Hs as (Hge & Hlt & Hform).
  exists (narrow s Min), k.
  split; [unfold choose_step; rewrite E; reflexivity|].
  split.
  { destruct Hform as [F|[F|F]]; rewrite F, Es;
      [left|right; left|right; right]; reflexivity. }
  split; [exact Hge|].
  assert (EM : Min * SpectrumView.pixelsPerHertz sv == labelWidth).
  { unfold Min, MinHzPerLabel, SpectrumView.getTotalPixelWidth.
    rewrite <- Eb. field. split; lra. }
  unfold SpectrumView.freqToCSSLength.
  split.
  - rewrite <- EM. fold Min in Hge. nra.
  - intros H1. specialize (Hlt H1). rewrite <- EM. nra.
Qed.

Lemma ticks_nth upper step : forall sanity i j t,
  nth_error (ticks sanity i upper step) j = Some t ->
  t == i + inject_Z (Z.of_nat j) * step /\ t <= upper /\ (j < sanity)%nat.
Proof.
  induction sanity as [|s IH]; intros i j t H.
  - destruct j; discriminate.
  - cbn [ticks] in H. destruct (Qle_bool i upper) eqn:Ei.
    2:{ destruct j; discriminate. }
    destruct j as [|j].
    + injection H as <-. split; [simpl; ring|].
      split; [apply Qle_bool_iff; exact Ei|lia].
    + destruct (IH _ _ _ H) as (Et & Hu & Hj).
      split; [|split; [exact Hu|lia]].
      rewrite Et, Nat2Z.inj_succ. unfold Z.succ. rewrite inject_Z_plus.
      change (inject_Z 1) with 1. ring.
Qed.

Lemma ticks_complete upper step : forall sanity i j,
  0 <= step -> (j < sanity)%nat ->
  i + inject_Z (Z.of_nat j) * step <= upper ->
  exists t, nth_error (ticks sanity i upper step) j = Some t.
Proof.
  induction sanity as [|s IH]; intros i j Hs Hj Hu; [lia|].
  assert (Hj0 : 0 <= inject_Z (Z.of_nat j)) by (apply inject_Z_sign; lia).
  cbn [ticks].
  assert (Ei : Qle_bool i upper = true) by (apply Qle_bool_iff; nra).
  rewrite Ei. destruct j as [|j]; [eexists; reflexivity|].
  apply IH; [exact Hs|lia|].
  rewrite Nat2Z.inj_succ in Hu. unfold Z.succ in Hu. rewrite inject_Z_plus in Hu.
  change (inject_Z 1) with 1 in Hu. lra.
Qed.

(** X27.  The numbers on the scale are the multiples of the step from
    the last one at or below [lower] up to [upper], in order and without
    gaps, but never more than 1000 of them. *)
Theorem scale_numbers_are_multiples (lower upper step : Q) (j : nat) :
  0 < step ->
  let first := step * inject_Z (Qfloor (lower / step)) in
  first <= lower /\ lower < first + step /\
  (forall t, nth_error (numbers lower upper step) j = Some t ->
     t == step * inject_Z (Qfloor (lower / step) + Z.of_nat j) /\
     t <= upper /\ (j < 1000)%nat) /\
  ((j < 1000)%nat -> first + inject_Z (Z.of_nat j) * step <= upper ->
   exists t, nth_error (numbers lower upper step) j = Some t).
Proof.
  intros Hs first.
  assert (E0 : lower - mod_ lower step == first).
  { rewrite mod_floor by exact Hs. unfold first. ring. }
  pose proof (Qfloor_le (lower / step)) as Fl.
  pose proof (Qlt_floor (lower / step)) as Fu.
  rewrite inject_Z_plus in Fu. change (inject_Z 1) with 1 in Fu.
  assert (El : lower == lower / step * step) by (field; lra).
  split; [unfold first; nra|]. split; [unfold first; nra|]. split.
  - intros t Ht. apply ticks_nth in Ht. destruct Ht as (Et & Hu & Hj).
    split; [|split; assumption].
    rewrite Et, E0, inject_Z_plus. unfold first. ring.
  - intros Hj Hu. apply ticks_complete; [lra|exact Hj|].
    rewrite E0. exact Hu.
Qed.

End ScaleFacts.

(** ** The [Map] shim *)

Section MapFacts.
Import MapShim.

Variable K V : Type.
Variable K_eq_dec : forall x y : K, {x = y} + {x <> y}.

Local Abbreviation indexOf := (indexOf K_eq_dec).
Local Abbreviation get := (get K_eq_dec).
Local Abbreviation set := (set K_eq_dec).
Local Abbreviation delete := (delete K_eq_dec).

Lemma store_app {A : Type} (pre : list A) (x e : A) (post : list A) :
  store (pre ++ x :: post) (length pre) e = pre ++ e :: post.
Proof. induction pre as [|a pre IH]; simpl; [reflexivity|]. rewrite IH. reflexivity. Qed.

Lemma indexOf_split (m : t K V) (k : K) (i : nat) :
  indexOf m k = Some i ->
  exists pre v post,
    m = pre ++ (k, v) :: post /\ length pre = i /\ ~ In k (map fst pre).
Proof.
  revert i. induction m as [|[k0 v0] m IH]; intros i H; simpl in H; [discriminate|].
  destruct (K_eq_dec k0 k) as [->|Hne].
  - injection H as <-. exists [], v0, m. repeat split. intros [].
  - destruct (indexOf m k) as [j|] eqn:Ej; [|discriminate].
    injection H as <-.
    destruct (IH j eq_refl) as (pre & v & post & -> & Hl & Hn).
    exists ((k0, v0) :: pre), v, post. split; [reflexivity|].
    split; [simpl; lia|]. simpl. intros [E|Hin]; [contradiction|]. apply Hn. exact Hin.
Qed.

Lemma indexOf_None (m : t K V) (k : K) :
  indexOf m k = None <-> ~ In k (map fst m).
Proof.
  induction m as [|[k0 v0] m IH]; simpl.
  - split; [intros _ []|reflexivity].
  - destruct (K_eq_dec k0 k) as [->|Hne].
    + split; [discriminate|]. intros H. exfalso. apply H. left. reflexivity.
    + destruct (indexOf m k) as [j|] eqn:Ej; simpl.
      * split; [discriminate|]. intros H. exfalso.
        assert (Hn : ~ In k (map fst m)) by (intros Hin; apply H; right; exact Hin).
        apply IH in Hn. discriminate.
      * split; [|reflexivity]. intros _ [E|Hin]; [contradiction|].
        destruct IH as [IH _]. apply (IH eq_refl). exact Hin.
Qed.

Lemma indexOf_app (pre : t K V) (k : K) (v : V) (post : t K V) :
  ~ In k (map fst pre) -> indexOf (pre ++ (k, v) :: post) k = Some (length pre).
Proof.
  induction pre as [|[k0 v0] pre IH]; intros Hn; simpl.
  - destruct (K_eq_dec k k); [reflexivity|contradiction].
  - destruct (K_eq_dec k0 k) as [->|Hne].
    + exfalso. apply Hn. left. reflexivity.
    + rewrite IH; [reflexivity|]. intros Hin. apply Hn. right. exact Hin.
Qed.

Lemma get_In (m : t K V) (k : K) (v : V) :
  wf m -> (get m k = Some v <-> In (k, v) m).
Proof.
  intros Hwf. unfold get. split.
  - destruct (indexOf m k) as [i|] eqn:Ei; [|discriminate].
    destruct (indexOf_split m k i Ei) as (pre & v0 & post & -> & Hl & Hn).
    rewrite <- Hl, nth_error_app2, Nat.sub_diag by lia. simpl.
    intros H. injection H as <-. apply in_or_app. right. left. reflexivity.
  - intros Hin. apply in_split in Hin. destruct Hin as (pre & post & ->).
    assert (Hn : ~ In k (map fst pre)).
    { unfold MapShim.wf in Hwf. rewrite map_app in Hwf. simpl in Hwf.
      apply NoDup_remove_2 in Hwf. intros Hin. apply Hwf.
      apply in_or_app. left. exact Hin. }
    rewrite indexOf_app by exact Hn.
    rewrite nth_error_app2, Nat.sub_diag by lia. reflexivity.
Qed.

Lemma get_None (m : t K V) (k : K) :
  get m k = None <-> ~ In k (map fst m).
Proof.
  unfold get. destruct (indexOf m k) as [i|] eqn:Ei.
  - destruct (indexOf_split m k i Ei) as (pre & v0 & post & -> & Hl & Hn).
    rewrite <- Hl, nth_error_app2, Nat.sub_diag by lia. simpl.
    split; [discriminate|]. intros H. exfalso. apply H.
    rewrite map_app. apply in_or_app. right. left. reflexivity.
  - split; [intros _; apply indexOf_None; exact Ei|reflexivity].
Qed.

Lemma set_present (pre : t K V) (k : K) (v0 v : V) (post : t K V) :
  ~ In k (map fst pre) ->
  set (pre ++ (k, v0) :: post) k v = pre ++ (k, v) :: post.
Proof.
  intros Hn. unfold set. rewrite indexOf_app by exact Hn.
  rewrite nth_error_app2, Nat.sub_diag by lia. simpl.
  apply store_app.
Qed.

Lemma set_absent (m : t K V) (k : K) (v : V) :
  ~ In k (map fst m) -> set m k v = m ++ [(k, v)].
Proof.
  intros Hn. unfold set. apply indexOf_None in Hn. rewrite Hn. reflexivity.
Qed.

Lemma delete_present (pre : t K V) (k : K) (v0 : V) (post : t K V) :
  ~ In k (map fst pre) ->
  snd (delete (pre ++ (k, v0) :: post) k) = true /\
  Permutation (fst (delete (pre ++ (k, v0) :: post) k)) (pre ++ post) /\
  length (fst (delete (pre ++ (k, v0) :: post) k)) = length (pre ++ post).
Proof.
  intros Hn. unfold delete. rewrite indexOf_app by exact Hn.
  cbn [fst snd]. split; [reflexivity|].
  rewrite length_app. simpl length.
  replace (length pre + S (length post) - 1)%nat with (length pre + length post)%nat by lia.
  destruct (Nat.ltb_spec (length pre) (length pre + length post)) as [Hlt|Hge].
  - destruct post as [|p post] using rev_ind; [simpl in Hlt; lia|]. clear IHpost.
    rewrite length_app in *. simpl length in *.
    assert (El : nth_error (pre ++ (k, v0) :: post ++ [p])
                   (length pre + (length post + 1)) = Some p).
    { rewrite nth_error_app2 by lia.
      replace (length pre + (length post + 1) - length pre)%nat
        with (S (length post)) by lia.
      simpl. rewrite nth_error_app2, Nat.sub_diag by lia. reflexivity. }
    rewrite El, store_app.
    assert (Ef : firstn (length pre + (length post + 1)) (pre ++ p :: post ++ [p])
                 = pre ++ p :: post).
    { change (pre ++ p :: post ++ [p]) with (pre ++ (p :: post) ++ [p]).
      rewrite app_assoc.
      replace (length pre + (length post + 1))%nat
        with (length (pre ++ p :: post) + 0)%nat
        by (rewrite length_app; simpl; lia).
      rewrite firstn_app_2. simpl. rewrite app_nil_r. reflexivity. }
    rewrite Ef. split.
    + apply Permutation_app_head. apply Permutation_cons_append.
    + rewrite !length_app. simpl. rewrite ?length_app. simpl. lia.
  - assert (post = []) by (destruct post; [reflexivity|simpl in Hge; lia]). subst post.
    assert (Ef : firstn (length pre) (pre ++ [(k, v0)]) = pre).
    { rewrite firstn_app, firstn_all, Nat.sub_diag. simpl. apply app_nil_r. }
    simpl length. rewrite Nat.add_0_r, Ef, app_nil_r. split; reflexivity.
Qed.

Lemma wf_split (pre : t K V) (k : K) (v : V) (post : t K V) :
  wf (pre ++ (k, v) :: post) ->
  ~ In k (map fst pre) /\ ~ In k (map fst post) /\ wf (pre ++ post).
Proof.
  unfold MapShim.wf. rewrite !map_app. simpl. intros H.
  pose proof (NoDup_remove_1 _ _ _ H) as H1.
  pose proof (NoDup_remove_2 _ _ _ H) as H2.
  split; [|split; [|exact H1]]; intros Hin; apply H2; apply in_or_app; auto.
Qed.

Lemma option_ext {A : Type} (x y : option A) :
  (forall a, x = Some a <-> y = Some a) -> x = y.
Proof.
  intros H. destruct x as [a|], y as [b|]; try reflexivity.
  - symmetry. apply H. reflexivity.
  - symmetry. apply H. reflexivity.
  - apply H. reflexivity.
Qed.

Lemma wf_perm (m m' : t K V) : Permutation m m' -> wf m -> wf m'.
Proof.
  intros Hp. unfold MapShim.wf. apply Permutation_NoDup.
  apply Permutation_map. exact Hp.
Qed.

(** X28.  The shim behaves as a map.  From a map without repeated keys,
    [set] and [delete] give one again; [get] finds what [set] stored and
    nothing after [delete], and leaves the other keys as they were;
    [delete] tells whether the key was there, and [size] follows. *)
Theorem map_shim_laws (m : t K V) (k k' : K) (v : V) :
  wf m ->
  wf (@empty K V) /\
  wf (set m k v) /\ wf (fst (delete m k)) /\
  get (set m k v) k = Some v /\
  get (fst (delete m k)) k = None /\
  (k' <> k -> get (set m k v) k' = get m k' /\
              get (fst (delete m k)) k' = get m k') /\
  (snd (delete m k) = true <-> get m k <> None) /\
  size (set m k v)
    = match get m k with
      | Some _ => size m
      | None => S (size m)
      end /\
  size (fst (delete m k))
    = match get m k with
      | Some _ => (size m - 1)%nat
      | None => size m
      end.
Proof.
  intros Hwf. split; [constructor|].
  destruct (indexOf m k) as [i|] eqn:Ei.
  - destruct (indexOf_split m k i Ei) as (pre & v0 & post & -> & Hl & Hn).
    destruct (wf_split _ _ _ _ Hwf) as (_ & Hnp & Hwf').
    destruct (delete_present pre k v0 post Hn) as (Hd1 & Hd2 & Hd3).
    rewrite (set_present pre k v0 v post Hn).
    assert (Hws : wf (pre ++ (k, v) :: post)).
    { unfold MapShim.wf in *. rewrite map_app in *. exact Hwf. }
    assert (Hwd : wf (fst (delete (pre ++ (k, v0) :: post) k))).
    { eapply wf_perm; [symmetry; exact Hd2|exact Hwf']. }
    assert (Hg : get (pre ++ (k, v0) :: post) k = Some v0).
    { apply get_In; [exact Hwf|]. apply in_or_app. right. left. reflexivity. }
    split; [exact Hws|]. split; [exact Hwd|].
    split. { apply get_In; [exact Hws|]. apply in_or_app. right. left. reflexivity. }
    split.
    { apply get_None. intros Hin.
      apply (Permutation_in _ (Permutation_map fst Hd2)) in Hin.
      rewrite map_app in Hin. apply in_app_or in Hin. tauto. }
    split.
    { intros Hne. split; apply option_ext; intros a.
      - rewrite !get_In by assumption. rewrite !in_app_iff. simpl.
        split; (intros [H|[H|H]]; [left; exact H|injection H as E _; congruence|
                                   right; right; exact H]).
      - rewrite !get_In by assumption. split.
        + intros H. apply (Permutation_in _ Hd2) in H.
          rewrite in_app_iff in *. simpl. tauto.
        + intros H. apply (Permutation_in _ (Permutation_sym Hd2)).
          rewrite in_app_iff in *. simpl in H.
          destruct H as [H|[H|H]]; [left; exact H|injection H as E _; congruence|
                                     right; exact H]. }
    rewrite Hg. split; [split; [discriminate|intros _; exact Hd1]|].
    unfold size. rewrite Hd3, !length_app. simpl. split; lia.
  - assert (Hn : ~ In k (map fst m)) by (apply indexOf_None; exact Ei).
    assert (Hg : get m k = None) by (apply get_None; exact Hn).
    rewrite (set_absent m k v Hn).
    assert (Ed : delete m k = (m, false)) by (unfold delete; rewrite Ei; reflexivity).
    rewrite Ed. cbn [fst snd].
    assert (Hws : wf (m ++ [(k, v)])).
    { unfold MapShim.wf in *. rewrite map_app. simpl.
      apply NoDup_app_remove_l with (l := []). simpl.
      eapply Permutation_NoDup; [apply Permutation_cons_append|].
      constructor; assumption. }
    split; [exact Hws|]. split; [exact Hwf|].
    split. { apply get_In; [exact Hws|]. apply in_or_app. right. left. reflexivity. }
    split; [exact Hg|].
    split.
    { intros Hne. split; [|reflexivity]. apply option_ext. intros a.
      rewrite !get_In by assumption. rewrite in_app_iff. simpl.
      split; [intros [H|[H|[]]]; [exact H|injection H as E _; congruence]|
              intros H; left; exact H]. }
    rewrite Hg. split; [split; [discriminate|intros H; contradiction]|].
    unfold size. rewrite length_app. simpl. split; lia.
Qed.

End MapFacts.

(** ** The cache of visible items *)

Section CacheFacts.
Import VisibleItemCache.

Variable K : Type.
Variable K_eq_dec : forall x y : K, {x = y} + {x <> y}.
Variable maker : K -> bool.

Lemma child_registered (st : state K) (id : nat) :
  consistent st -> In id (childNodes st) ->
  exists e, nth_error (heap st) id = Some e /\ parentNode e = true /\
            In (my_cacheKey e, id) (cache st) /\ (id < length (heap st))%nat.
Proof.
  intros (H1 & H2 & H3 & H4 & H5) Hin.
  destruct (H2 id Hin) as (e & He & Hp).
  exists e. split; [exact He|]. split; [exact Hp|]. split.
  - apply (Permutation_in _ (Permutation_sym H4)) in Hin.
    apply in_map_iff in Hin. destruct Hin as ([k id'] & E & Hin). simpl in E. subst id'.
    destruct (H5 k id Hin) as (e' & He' & Hk). rewrite He in He'. injection He' as <-.
    rewrite Hk. exact Hin.
  - apply nth_error_Some. congruence.
Qed.

Lemma cached_is_child (st : state K) (k : K) (id : nat) :
  consistent st -> In (k, id) (cache st) -> In id (childNodes st).
Proof.
  intros (H1 & H2 & H3 & H4 & H5) Hin.
  apply (Permutation_in _ H4). apply in_map_iff. exists (k, id). auto.
Qed.

Lemma cache_entry_unique (st : state K) (k : K) (id id' : nat) :
  consistent st -> In (k, id) (cache st) -> In (k, id') (cache st) -> id = id'.
Proof.
  intros (H1 & H2 & H3 & H4 & H5) Ha Hb.
  apply (get_In K nat K_eq_dec _ _ _ H3) in Ha.
  apply (get_In K nat K_eq_dec _ _ _ H3) in Hb. congruence.
Qed.

Lemma remove_nth_app (pre : list nat) (x : nat) (post : list nat) :
  remove_nth (length pre) (pre ++ x :: post) = pre ++ post.
Proof.
  unfold remove_nth.
  rewrite firstn_app, firstn_all, Nat.sub_diag. simpl firstn. rewrite app_nil_r.
  replace (S (length pre)) with (length (pre ++ [x])) by (rewrite length_app; simpl; lia).
  change (pre ++ x :: post) with (pre ++ [x] ++ post). rewrite app_assoc.
  rewrite skipn_app, skipn_all, Nat.sub_diag. reflexivity.
Qed.

Lemma flush_loop_spec : forall (pre post : list nat) (st : state K),
  consistent st ->
  childNodes st = pre ++ post ->
  exists st',
    flush_loop K_eq_dec (length pre) st = Return st' /\
    consistent st' /\
    count st' = count st /\
    childNodes st' = filter (in_use st) pre ++ post /\
    (forall id, In id pre -> in_use st id = true -> in_use st' id = false) /\
    (forall id, ~ In id pre -> nth_error (heap st') id = nth_error (heap st) id) /\
    (forall k id, In (k, id) (cache st') <->
       In (k, id) (cache st) /\ (In id pre -> in_use st id = true)).
Proof.
  induction pre as [|x pre IH] using rev_ind; intros post st Hc Hch.
  - exists st. cbn [length flush_loop filter app].
    split; [reflexivity|]. split; [exact Hc|]. split; [reflexivity|].
    split; [exact Hch|]. split; [intros id []|]. split; [reflexivity|].
    intros k id. split; [intros H; split; [exact H|intros []]|intros [H _]; exact H].
  - rewrite length_app. cbn [length]. rewrite Nat.add_1_r. cbn [flush_loop].
    rewrite <- app_assoc in Hch. cbn [app] in Hch.
    assert (Hx : In x (childNodes st)).
    { rewrite Hch. apply in_or_app. right. left. reflexivity. }
    destruct (child_registered st x Hc Hx) as (e & He & Hp & Hreg & Hlt).
    pose proof Hc as (H1 & H2 & H3 & H4 & H5).
    assert (Hnd : NoDup (pre ++ x :: post)) by (rewrite <- Hch; exact H1).
    assert (Hxpre : ~ In x pre).
    { intros Hin. apply (NoDup_remove_2 _ _ _ Hnd). apply in_or_app. left. exact Hin. }
    assert (Hxpost : ~ In x post).
    { intros Hin. apply (NoDup_remove_2 _ _ _ Hnd). apply in_or_app. right. exact Hin. }
    assert (Enth : nth_error (childNodes st) (length pre) = Some x).
    { rewrite Hch, nth_error_app2, Nat.sub_diag by lia. reflexivity. }
    unfold flush_step. rewrite Enth, He.
    assert (Hux : in_use st x = my_inUse e) by (unfold in_use; rewrite He; reflexivity).
    destruct (my_inUse e) eqn:Eu.
    + (* in use: the mark is cleared *)
      set (st1 := mkState (store (heap st) x (mkElement (my_cacheKey e) false (parentNode e)))
                    (childNodes st) (cache st) (count st)).
      assert (Hother : forall id, id <> x ->
                nth_error (heap st1) id = nth_error (heap st) id).
      { intros id Hne. unfold st1. cbn [heap]. rewrite nth_error_store.
        destruct (Nat.eqb_spec x id); [congruence|reflexivity]. }
      assert (Hsame : nth_error (heap st1) x
                      = Some (mkElement (my_cacheKey e) false (parentNode e))).
      { unfold st1. cbn [heap]. rewrite nth_error_store, Nat.eqb_refl.
        destruct (Nat.ltb_spec x (length (heap st))); [reflexivity|lia]. }
      assert (Hc1 : consistent st1).
      { split; [exact H1|]. split; [|split; [exact H3|split; [exact H4|]]].
        - intros id Hin. change (In id (childNodes st)) in Hin.
          destruct (Nat.eq_dec id x) as [->|Hne].
          + eexists. split; [exact Hsame|exact Hp].
          + rewrite (Hother id Hne). apply H2. exact Hin.
        - intros k id Hin. change (In (k, id) (cache st)) in Hin.
          destruct (Nat.eq_dec id x) as [->|Hne].
          + eexists. split; [exact Hsame|]. cbn [my_cacheKey].
            destruct (H5 k x Hin) as (e' & He' & Hk). congruence.
          + rewrite (Hother id Hne). apply H5. exact Hin. }
      destruct (IH (x :: post) st1 Hc1 Hch)
        as (st' & El & Hc' & Hcnt & Hch' & Huse & Hheap & Hcache).
      assert (Hiu : forall id, id <> x -> in_use st1 id = in_use st id).
      { intros id Hne. unfold in_use. rewrite (Hother id Hne). reflexivity. }
      exists st'. split; [exact El|]. split; [exact Hc'|].
      split; [exact Hcnt|]. split.
      { rewrite Hch', filter_app. cbn [filter]. rewrite Hux.
        rewrite <- app_assoc. cbn [app]. f_equal.
        apply filter_ext_in. intros id Hin. apply Hiu. intros ->. contradiction. }
      split.
      { intros id Hin Hu. apply in_app_or in Hin. destruct Hin as [Hin|[<-|[]]].
        - apply Huse; [exact Hin|]. rewrite Hiu; [exact Hu|]. intros ->. contradiction.
        - unfold in_use. rewrite (Hheap x Hxpre), Hsame. reflexivity. }
      split.
      { intros id Hn. rewrite Hheap.
        - apply Hother. intros ->. apply Hn. apply in_or_app. right. left. reflexivity.
        - intros Hin. apply Hn. apply in_or_app. left. exact Hin. }
      intros k id. rewrite Hcache. unfold st1 at 1. cbn [cache].
      split; intros [Hin Hu]; (split; [exact Hin|]).
      * intros Hpre. apply in_app_or in Hpre. destruct Hpre as [Hpre|[<-|[]]].
        -- rewrite <- Hiu; [apply Hu; exact Hpre|]. intros ->. contradiction.
        -- exact Hux.
      * intros Hpre. rewrite Hiu; [|intros ->; contradiction].
        apply Hu. apply in_or_app. left. exact Hpre.
    + (* not in use: the element is removed *)
      set (st1 := mkState (store (heap st) x (mkElement (my_cacheKey e) false false))
                    (remove_nth (length pre) (childNodes st))
                    (fst (MapShim.delete K_eq_dec (cache st) (my_cacheKey e)))
                    (count st)).
      assert (Hch1 : childNodes st1 = pre ++ post).
      { unfold st1. cbn [childNodes]. rewrite Hch. apply remove_nth_app. }
      assert (Hother : forall id, id <> x ->
                nth_error (heap st1) id = nth_error (heap st) id).
      { intros id Hne. unfold st1. cbn [heap]. rewrite nth_error_store.
        destruct (Nat.eqb_spec x id); [congruence|reflexivity]. }
      destruct (in_split _ _ Hreg) as (pc & qc & Ecache).
      assert (Hwf : MapShim.wf (pc ++ (my_cacheKey e, x) :: qc))
        by (rewrite <- Ecache; exact H3).
      destruct (wf_split K nat _ _ _ _ Hwf) as (Hkp & Hkq & Hwf').
      destruct (delete_present K nat K_eq_dec pc (my_cacheKey e) x qc Hkp)
        as (_ & Hperm & _).
      rewrite <- Ecache in Hperm.
      assert (Hcache1 : forall k id, In (k, id) (cache st1) <->
                In (k, id) (cache st) /\ id <> x).
      { intros k id. unfold st1. cbn [cache]. split.
        - intros Hin. apply (Permutation_in _ Hperm) in Hin.
          assert (Hin' : In (k, id) (cache st)).
          { rewrite Ecache. apply in_app_or in Hin. apply in_or_app.
            destruct Hin; [left|right; right]; assumption. }
          split; [exact Hin'|]. intros ->.
          destruct (H5 k x Hin') as (e' & He' & Hk). rewrite He in He'.
          injection He' as <-. subst k.
          apply in_app_or in Hin. destruct Hin as [Hin|Hin].
          + apply Hkp. apply in_map_iff. exists (my_cacheKey e, x). auto.
          + apply Hkq. apply in_map_iff. exists (my_cacheKey e, x). auto.
        - intros [Hin Hne]. apply (Permutation_in _ (Permutation_sym Hperm)).
          rewrite Ecache in Hin. apply in_app_or in Hin. apply in_or_app.
          destruct Hin as [Hin|[Hin|Hin]]; [left; exact Hin| |right; exact Hin].
          injection Hin as _ E. congruence. }
      assert (Hc1 : consistent st1).
      { unfold consistent. rewrite Hch1.
        split; [apply (NoDup_remove_1 _ _ _ Hnd)|].
        split.
        { intros id Hin.
          assert (Hne : id <> x).
          { intros ->. apply in_app_or in Hin. tauto. }
          rewrite (Hother id Hne). apply H2. rewrite Hch.
          apply in_app_or in Hin. apply in_or_app.
          destruct Hin; [left|right; right]; assumption. }
        split.
        { unfold st1. cbn [cache]. eapply wf_perm; [symmetry; exact Hperm|exact Hwf']. }
        split.
        { unfold st1. cbn [cache].
          apply Permutation_cons_inv with (a := x).
          transitivity (map snd (cache st)).
          - rewrite Ecache at 2. rewrite (Permutation_map snd Hperm).
            rewrite !map_app. cbn [map snd]. apply Permutation_middle.
          - rewrite H4, Hch. symmetry. apply Permutation_middle. }
        intros k id Hin. apply Hcache1 in Hin. destruct Hin as [Hin Hne].
        rewrite (Hother id Hne). apply H5. exact Hin. }
      destruct (IH post st1 Hc1 Hch1)
        as (st' & El & Hc' & Hcnt & Hch' & Huse & Hheap & Hcache).
      assert (Hiu : forall id, id <> x -> in_use st1 id = in_use st id).
      { intros id Hne. unfold in_use. rewrite (Hother id Hne). reflexivity. }
      exists st'. split; [exact El|]. split; [exact Hc'|].
      split; [exact Hcnt|]. split.
      { rewrite Hch', filter_app. cbn [filter]. rewrite Hux, app_nil_r. f_equal.
        apply filter_ext_in. intros id Hin. apply Hiu. intros ->. contradiction. }
      split.
      { intros id Hin Hu. apply in_app_or in Hin. destruct Hin as [Hin|[<-|[]]].
        - apply Huse; [exact Hin|]. rewrite Hiu; [exact Hu|]. intros ->. contradiction.
        - congruence. }
      split.
      { intros id Hn. rewrite Hheap.
        - apply Hother. intros ->. apply Hn. apply in_or_app. right. left. reflexivity.
        - intros Hin. apply Hn. apply in_or_app. left. exact Hin. }
      intros k id. rewrite Hcache, Hcache1.
      split.
      * intros [[Hin Hne] Hu]. split; [exact Hin|].
        intros Hpre. apply in_app_or in Hpre. destruct Hpre as [Hpre|[E|[]]].
        -- rewrite <- Hiu; [apply Hu; exact Hpre|exact Hne].
        -- congruence.
      * intros [Hin Hu].
        assert (Hne : id <> x).
        { intros ->. rewrite Hux in Hu. discriminate Hu.
          apply in_or_app. right. left. reflexivity. }
        split; [split; [exact Hin|exact Hne]|].
        intros Hpre. rewrite Hiu by exact Hne.
        apply Hu. apply in_or_app. left. exact Hpre.
Qed.

Lemma NoDup_snoc {A : Type} (l : list A) (x : A) :
  NoDup (l ++ [x]) <-> NoDup l /\ ~ In x l.
Proof.
  split.
  - intros H. split.
    + apply NoDup_remove_1 in H. rewrite app_nil_r in H. exact H.
    + apply NoDup_remove_2 in H. rewrite app_nil_r in H. exact H.
  - intros [H1 H2]. eapply Permutation_NoDup; [apply Permutation_cons_append|].
    constructor; assumption.
Qed.

Lemma filter_flip (f g : nat -> bool) (l : list nat) (x : nat) :
  NoDup l -> In x l -> f x = false -> g x = true ->
  (forall y, y <> x -> g y = f y) ->
  length (filter g l) = S (length (filter f l)).
Proof.
  intros Hnd Hin Hf Hg Hext.
  apply in_split in Hin. destruct Hin as (l1 & l2 & ->).
  pose proof (NoDup_remove_2 _ _ _ Hnd) as Hx.
  rewrite !filter_app. cbn [filter]. rewrite Hf, Hg.
  rewrite !length_app. cbn [length].
  rewrite (filter_ext_in g f l1), (filter_ext_in g f l2); [lia| |];
    intros y Hy; apply Hext; intros ->; apply Hx; apply in_or_app; auto.
Qed.

Lemma child_key_cached (st : state K) (id : nat) (e : element K) :
  consistent st -> In id (childNodes st) -> nth_error (heap st) id = Some e ->
  In (my_cacheKey e) (map fst (cache st)).
Proof.
  intros Hc Hin He.
  destruct (child_registered st id Hc Hin) as (e' & He' & _ & Hreg & _).
  rewrite He in He'. injection He' as <-.
  apply in_map_iff. exists (my_cacheKey e, id). auto.
Qed.

Lemma during_start (st0 : state K) :
  idle st0 -> during K_eq_dec maker st0 [] st0.
Proof.
  intros (Hc & Hcnt & Hidle).
  assert (Hf : filter (in_use st0) (childNodes st0) = []).
  { induction (childNodes st0) as [|a l IH]; [reflexivity|].
    cbn [filter]. rewrite (Hidle a (or_introl eq_refl)). apply IH.
    intros id Hin. apply Hidle. right. exact Hin. }
  split; [exact Hc|]. split; [exact Hcnt|]. split.
  { intros id e Hin He. specialize (Hidle id Hin). unfold in_use in Hidle.
    rewrite He in Hidle. rewrite Hidle. split; [discriminate|intros []]. }
  split. { intros k. split; [intros H; left; exact H|intros [H|[[] _]]; exact H]. }
  split; [intros k id H; exact H|].
  rewrite Hf, Hcnt. split; [apply Nat.le_refl|].
  split; [intros _; split; constructor|reflexivity].
Qed.

Lemma during_add (st0 st : state K) (keys : list K) (key : K) :
  during K_eq_dec maker st0 keys st ->
  exists st' r,
    add K_eq_dec maker key st = Return (st', r) /\
    during K_eq_dec maker st0 (keys ++ [key]) st'.
Proof.
  intros (Hc & Hcnt & Huse & Hkeys & Hreuse & Hle & Hiff).
  pose proof Hc as (H1 & H2 & H3 & H4 & H5).
  assert (Hlen : length (keys ++ [key]) = S (length keys))
    by (rewrite length_app; simpl; lia).
  assert (Hacc : forall P : Prop,
            ~ In key keys -> accepted K_eq_dec maker st0 key ->
            (P <-> NoDup keys /\ Forall (accepted K_eq_dec maker st0) keys) ->
            (P <-> NoDup (keys ++ [key])
                   /\ Forall (accepted K_eq_dec maker st0) (keys ++ [key]))).
  { intros P Hn Ha HP. rewrite HP, NoDup_snoc, Forall_app.
    split; [intros [Hd Hf]; repeat split; try assumption; constructor; [exact Ha|constructor]|].
    intros [[Hd _] [Hf _]]. split; assumption. }
  unfold add.
  destruct (MapShim.get K_eq_dec (cache st) key) as [id|] eqn:Eg.
  - (* the key is cached *)
    assert (Hreg : In (key, id) (cache st)) by (apply (get_In K nat K_eq_dec); assumption).
    assert (Hin : In id (childNodes st)) by (eapply cached_is_child; eassumption).
    destruct (child_registered st id Hc Hin) as (e & He & Hp & _ & Hlt).
    assert (Hk : my_cacheKey e = key).
    { destruct (H5 key id Hreg) as (e' & He' & Hk). congruence. }
    rewrite He, Hp.
    set (st' := mkState (store (heap st) id (mkElement (my_cacheKey e) true true))
                  (childNodes st) (cache st) (S (count st))).
    exists st', (Some id). split; [reflexivity|].
    assert (Hother : forall id', id' <> id ->
              nth_error (heap st') id' = nth_error (heap st) id').
    { intros id' Hne. unfold st'. cbn [heap]. rewrite nth_error_store.
      destruct (Nat.eqb_spec id id'); [congruence|reflexivity]. }
    assert (Hsame : nth_error (heap st') id = Some (mkElement (my_cacheKey e) true true)).
    { unfold st'. cbn [heap]. rewrite nth_error_store, Nat.eqb_refl.
      destruct (Nat.ltb_spec id (length (heap st))); [reflexivity|lia]. }
    assert (Hiu : forall id', id' <> id -> in_use st' id' = in_use st id').
    { intros id' Hne. unfold in_use. rewrite (Hother id' Hne). reflexivity. }
    assert (Hiu1 : in_use st' id = true) by (unfold in_use; rewrite Hsame; reflexivity).
    assert (Hiu0 : in_use st id = my_inUse e) by (unfold in_use; rewrite He; reflexivity).
    assert (Hkey_other : forall id' e', In id' (childNodes st) -> id' <> id ->
              nth_error (heap st) id' = Some e' -> my_cacheKey e' <> key).
    { intros id' e' Hin' Hne He' Ek.
      destruct (child_registered st id' Hc Hin') as (e'' & He'' & _ & Hreg' & _).
      rewrite He' in He''. injection He'' as <-. rewrite Ek in Hreg'.
      apply Hne. eapply cache_entry_unique; eassumption. }
    split.
    { split; [exact H1|]. split; [|split; [exact H3|split; [exact H4|]]].
      - intros id' Hin'. change (In id' (childNodes st)) in Hin'.
        destruct (Nat.eq_dec id' id) as [->|Hne].
        + eexists. split; [exact Hsame|reflexivity].
        + rewrite (Hother id' Hne). apply H2. exact Hin'.
      - intros k id' Hin'. change (In (k, id') (cache st)) in Hin'.
        destruct (Nat.eq_dec id' id) as [->|Hne].
        + eexists. split; [exact Hsame|]. cbn [my_cacheKey].
          destruct (H5 k id Hin') as (e' & He' & Hk'). congruence.
        + rewrite (Hother id' Hne). apply H5. exact Hin'. }
    split; [unfold st'; cbn [count]; rewrite Hlen, Hcnt; reflexivity|].
    split.
    { intros id' e' Hin' He'. change (In id' (childNodes st)) in Hin'.
      destruct (Nat.eq_dec id' id) as [->|Hne].
      - rewrite Hsame in He'. injection He' as <-. cbn [my_inUse my_cacheKey].
        rewrite Hk. split; [intros _; apply in_or_app; right; left; reflexivity|reflexivity].
      - rewrite (Hother id' Hne) in He'.
        rewrite (Huse id' e' Hin' He'), in_app_iff. cbn [In].
        pose proof (Hkey_other id' e' Hin' Hne He'). intuition congruence. }
    split.
    { intros k. change (cache st') with (cache st). rewrite Hkeys, in_app_iff. cbn [In].
      split; [intuition|].
      intros [H|[[H|[H|[]]] Hm]]; [left; exact H|right; split; assumption|].
      subst k. apply Hkeys. apply in_map_iff. exists (key, id). auto. }
    split; [exact Hreuse|].
    change (childNodes st') with (childNodes st). change (count st') with (S (count st)).
    destruct (my_inUse e) eqn:Eu.
    + (* a second call for the same key *)
      assert (Hdup : In key keys) by (rewrite <- Hk; apply (Huse id e Hin He); exact Eu).
      assert (Ef : filter (in_use st') (childNodes st) = filter (in_use st) (childNodes st)).
      { apply filter_ext_in. intros id' Hin'.
        destruct (Nat.eq_dec id' id) as [->|Hne]; [congruence|apply Hiu; exact Hne]. }
      rewrite Ef. split; [lia|].
      split; [intros E; lia|].
      intros [Hnd _]. apply NoDup_snoc in Hnd. tauto.
    + assert (Hfresh : ~ In key keys).
      { intros Hd. rewrite <- Hk in Hd. apply (Huse id e Hin He) in Hd. congruence. }
      assert (Ef : length (filter (in_use st') (childNodes st))
                   = S (length (filter (in_use st) (childNodes st)))).
      { apply filter_flip with (x := id); assumption. }
      rewrite Ef. split; [lia|].
      apply Hacc; [exact Hfresh| |].
      * assert (Hc0 : In key (map fst (cache st))).
        { apply in_map_iff. exists (key, id). auto. }
        apply Hkeys in Hc0. destruct Hc0 as [Hc0|[Hc0 _]]; [|contradiction].
        left. intros En. apply (get_None K nat K_eq_dec) in En. contradiction.
      * rewrite <- Hiff. split; lia.
  - (* the key is not cached *)
    assert (Hnew : ~ In key (map fst (cache st))) by (apply (get_None K nat K_eq_dec); exact Eg).
    assert (Hkey_child : forall id' e', In id' (childNodes st) ->
              nth_error (heap st) id' = Some e' -> my_cacheKey e' <> key).
    { intros id' e' Hin' He' Ek. apply Hnew. rewrite <- Ek.
      eapply child_key_cached; eassumption. }
    assert (Huse' : forall st' : state K,
              heap st' = heap st -> childNodes st' = childNodes st ->
              forall id e, In id (childNodes st') -> nth_error (heap st') id = Some e ->
                (my_inUse e = true <-> In (my_cacheKey e) (keys ++ [key]))).
    { intros st' Eh Ec id e Hin He. rewrite Ec in Hin. rewrite Eh in He.
      rewrite (Huse id e Hin He), in_app_iff. cbn [In].
      pose proof (Hkey_child id e Hin He). intuition congruence. }
    destruct (maker key) eqn:Em.
    + (* a new element *)
      set (id := length (heap st)).
      set (st' := mkState (heap st ++ [mkElement key true true])
                    (childNodes st ++ [id])
                    (MapShim.set K_eq_dec (cache st) key id) (S (count st))).
      exists st', (Some id). split; [reflexivity|].
      assert (Ecache : cache st' = cache st ++ [(key, id)]).
      { unfold st'. cbn [cache]. apply set_absent. exact Hnew. }
      assert (Hold : forall id', In id' (childNodes st) ->
                nth_error (heap st') id' = nth_error (heap st) id' /\ id' <> id).
      { intros id' Hin'.
        destruct (child_registered st id' Hc Hin') as (_ & _ & _ & _ & Hlt).
        split; [|unfold id; lia].
        unfold st'. cbn [heap]. apply nth_error_app1. exact Hlt. }
      assert (Hsame : nth_error (heap st') id = Some (mkElement key true true)).
      { unfold st', id. cbn [heap]. rewrite nth_error_app2, Nat.sub_diag by lia. reflexivity. }
      assert (Hidnew : ~ In id (childNodes st)).
      { intros Hin'. destruct (Hold id Hin') as [_ Hne]. congruence. }
      assert (Hfresh : ~ In key keys).
      { intros Hd. apply Hnew. apply Hkeys. right. split; assumption. }
      split.
      { split. { apply NoDup_snoc. split; assumption. }
        split.
        { intros id' Hin'. change (In id' (childNodes st ++ [id])) in Hin'.
          apply in_app_or in Hin'. destruct Hin' as [Hin'|[<-|[]]].
          - destruct (Hold id' Hin') as [-> _]. apply H2. exact Hin'.
          - eexists. split; [exact Hsame|reflexivity]. }
        split.
        { rewrite Ecache. unfold MapShim.wf. rewrite map_app. cbn [map fst].
          apply NoDup_snoc. split; assumption. }
        split.
        { rewrite Ecache, map_app. cbn [map snd].
          change (childNodes st') with (childNodes st ++ [id]).
          apply Permutation_app_tail. exact H4. }
        intros k id' Hin'. rewrite Ecache in Hin'.
        apply in_app_or in Hin'. destruct Hin' as [Hin'|[E|[]]].
        - destruct (Hold id' (cached_is_child st k id' Hc Hin')) as [-> _].
          apply H5. exact Hin'.
        - injection E as <- <-. eexists. split; [exact Hsame|reflexivity]. }
      split; [unfold st'; cbn [count]; rewrite Hlen, Hcnt; reflexivity|].
      split.
      { intros id' e' Hin' He'. change (In id' (childNodes st ++ [id])) in Hin'.
        apply in_app_or in Hin'. destruct Hin' as [Hin'|[<-|[]]].
        - destruct (Hold id' Hin') as [Eo _]. rewrite Eo in He'.
          rewrite (Huse id' e' Hin' He'), in_app_iff. cbn [In].
          pose proof (Hkey_child id' e' Hin' He'). intuition congruence.
        - rewrite Hsame in He'. injection He' as <-. cbn [my_inUse my_cacheKey].
          split; [intros _; apply in_or_app; right; left; reflexivity|reflexivity]. }
      split.
      { intros k. rewrite Ecache, map_app, !in_app_iff. cbn [map fst In].
        rewrite Hkeys. split.
        - intros [[H|[H Hm]]|[<-|[]]]; [left; exact H|right; split; [left; exact H|exact Hm]|].
          right. split; [right; left; reflexivity|exact Em].
        - intros [H|[[H|[<-|[]]] Hm]]; [left; left; exact H|left; right; split; assumption|].
          right. left. reflexivity. }
      split.
      { intros k id' Hin'. rewrite Ecache. apply in_or_app. left. apply Hreuse. exact Hin'. }
      change (childNodes st') with (childNodes st ++ [id]).
      change (count st') with (S (count st)).
      assert (Ef : length (filter (in_use st') (childNodes st ++ [id]))
                   = S (length (filter (in_use st) (childNodes st)))).
      { rewrite filter_app. cbn [filter].
        assert (E1 : in_use st' id = true) by (unfold in_use; rewrite Hsame; reflexivity).
        rewrite E1, length_app. cbn [length].
        rewrite (filter_ext_in (in_use st') (in_use st)); [lia|].
        intros id' Hin'. unfold in_use. destruct (Hold id' Hin') as [-> _]. reflexivity. }
      rewrite Ef. split; [lia|].
      apply Hacc; [exact Hfresh|right; exact Em|].
      rewrite <- Hiff. split; lia.
    + (* [maker] declines *)
      set (st' := mkState (heap st) (childNodes st) (cache st) (S (count st))).
      exists st', None. split; [reflexivity|].
      split; [exact Hc|].
      split; [unfold st'; cbn [count]; rewrite Hlen, Hcnt; reflexivity|].
      split; [apply (Huse' st'); reflexivity|].
      split.
      { intros k. change (cache st') with (cache st). rewrite Hkeys, in_app_iff. cbn [In].
        split; [intuition|].
        intros [H|[[H|[H|[]]] Hm]]; [left; exact H|right; split; assumption|].
        subst k. congruence. }
      split; [exact Hreuse|].
      change (childNodes st') with (childNodes st). change (count st') with (S (count st)).
      change (filter (in_use st') (childNodes st)) with (filter (in_use st) (childNodes st)).
      split; [lia|]. split; [intros E; lia|].
      intros [_ Hf]. apply Forall_app in Hf. destruct Hf as [_ Hf].
      apply Forall_inv in Hf. destruct Hf as [Hf|Hf]; [|congruence].
      exfalso. apply Hf. apply (get_None K nat K_eq_dec).
      intros Hin. apply Hnew. apply Hkeys. left. exact Hin.
Qed.

Lemma during_adds (st0 : state K) : forall (keys pre : list K) (st : state K),
  during K_eq_dec maker st0 pre st ->
  exists st',
    adds K_eq_dec maker keys st = Return st' /\
    during K_eq_dec maker st0 (pre ++ keys) st'.
Proof.
  induction keys as [|key keys IH]; intros pre st Hd.
  - exists st. rewrite app_nil_r. split; [reflexivity|exact Hd].
  - destruct (during_add st0 st pre key Hd) as (st1 & r & Ea & Hd1).
    destruct (IH (pre ++ [key]) st1 Hd1) as (st' & Es & Hd').
    exists st'. cbn [adds]. rewrite Ea. split; [exact Es|].
    rewrite <- app_assoc in Hd'. exact Hd'.
Qed.

Lemma cycle_cases (st0 : state K) (keys : list K) :
  idle st0 ->
  (NoDup keys /\ Forall (accepted K_eq_dec maker st0) keys /\
   exists st',
     cycle K_eq_dec maker keys st0 = Return st' /\ idle st' /\
     (forall k, MapShim.get K_eq_dec (cache st') k <> None <-> In k keys) /\
     (forall k id, In k keys ->
        MapShim.get K_eq_dec (cache st0) k = Some id ->
        MapShim.get K_eq_dec (cache st') k = Some id) /\
     length (childNodes st') = length keys) \/
  (~ (NoDup keys /\ Forall (accepted K_eq_dec maker st0) keys) /\
   cycle K_eq_dec maker keys st0 = Throw oops3).
Proof.
  intros Hidle.
  pose proof Hidle as (Hc0 & _ & _).
  destruct (during_adds st0 keys [] st0 (during_start st0 Hidle)) as (st1 & Ea & Hd).
  cbn [app] in Hd.
  destruct Hd as (Hc & Hcnt & Huse & Hkeys & Hreuse & Hle & Hiff).
  destruct (flush_loop_spec (childNodes st1) [] st1 Hc (eq_sym (app_nil_r _)))
    as (st2 & El & Hc2 & Hcnt2 & Hch2 & Huse2 & _ & Hcache2).
  rewrite app_nil_r in Hch2.
  pose proof Hc2 as (_ & _ & Hwf2 & Hperm2 & H52).
  pose proof Hc as (_ & _ & _ & _ & H51).
  assert (Hsize : MapShim.size (cache st2) = length (childNodes st2)).
  { unfold MapShim.size. rewrite <- (length_map snd). apply Permutation_length. exact Hperm2. }
  unfold cycle. rewrite Ea. unfold flush. rewrite El, Hsize, Nat.eqb_refl.
  cbn [negb]. rewrite orb_false_r.
  destruct (Nat.eqb_spec (length (childNodes st2)) (count st2)) as [E|E];
    rewrite Hch2, Hcnt2 in E; cbn [negb].
  - left. apply Hiff in E as HE. destruct HE as [Hnd Hall].
    split; [exact Hnd|]. split; [exact Hall|].
    set (st3 := mkState (heap st2) (childNodes st2) (cache st2) 0).
    exists st3. split; [reflexivity|].
    assert (Hkept : forall k id, In (k, id) (cache st1) -> In k keys ->
              In (k, id) (cache st2)).
    { intros k id Hin Hk. apply Hcache2. split; [exact Hin|]. intros Hch.
      destruct (H51 k id Hin) as (e & He & Ek).
      unfold in_use. rewrite He. apply (Huse id e Hch He). rewrite Ek. exact Hk. }
    split.
    { split; [exact Hc2|]. split; [reflexivity|].
      intros id Hin. change (In id (childNodes st2)) in Hin.
      change (in_use st3 id) with (in_use st2 id).
      rewrite Hch2 in Hin. apply filter_In in Hin. destruct Hin as [Hin Hu].
      apply Huse2; assumption. }
    split.
    { intros k. change (cache st3) with (cache st2).
      split.
      - intros Hg.
        assert (Hin : In k (map fst (cache st2))).
        { destruct (in_dec K_eq_dec k (map fst (cache st2))) as [H|H]; [exact H|].
          apply (get_None K nat K_eq_dec) in H. contradiction. }
        apply in_map_iff in Hin. destruct Hin as ([k' id] & Ek & Hin). simpl in Ek. subst k'.
        apply Hcache2 in Hin. destruct Hin as [Hin Hu].
        pose proof (cached_is_child st1 k id Hc Hin) as Hch.
        destruct (H51 k id Hin) as (e & He & Ek).
        rewrite <- Ek. apply (Huse id e Hch He).
        specialize (Hu Hch). unfold in_use in Hu. rewrite He in Hu. exact Hu.
      - intros Hk Hg. apply (get_None K nat K_eq_dec) in Hg. apply Hg.
        assert (Hin : In k (map fst (cache st1))).
        { apply Hkeys. rewrite Forall_forall in Hall.
          destruct (Hall k Hk) as [Ha|Ha].
          - left. destruct (in_dec K_eq_dec k (map fst (cache st0))) as [H|H]; [exact H|].
            apply (get_None K nat K_eq_dec) in H. contradiction.
          - right. split; assumption. }
        apply in_map_iff in Hin. destruct Hin as ([k' id] & Ek & Hin). simpl in Ek. subst k'.
        apply in_map_iff. exists (k, id). split; [reflexivity|].
        apply Hkept; assumption. }
    split.
    { intros k id Hk Hg. change (cache st3) with (cache st2).
      apply (get_In K nat K_eq_dec); [exact Hwf2|].
      apply Hkept; [|exact Hk]. apply Hreuse.
      apply (get_In K nat K_eq_dec); [apply Hc0|exact Hg]. }
    change (childNodes st3) with (childNodes st2). rewrite Hch2, E. exact Hcnt.
  - right. split; [intros H; apply E; apply Hiff; exact H|]. reflexivity.
Qed.

(** X29.  One draw with keys that are distinct and accepted.  From an
    idle cache, adding such keys and flushing returns normally and
    leaves the cache idle again; it then holds exactly the keys added,
    one child each, and a key that was cached before is still bound to
    the element it had.  The cache is idle when it is constructed. *)
Theorem cache_cycle_keeps_added (st0 : state K) (keys : list K) :
  idle st0 ->
  NoDup keys ->
  Forall (accepted K_eq_dec maker st0) keys ->
  idle (@init K) /\
  exists st',
    cycle K_eq_dec maker keys st0 = Return st' /\ idle st' /\
    (forall k, MapShim.get K_eq_dec (cache st') k <> None <-> In k keys) /\
    (forall k id, In k keys ->
       MapShim.get K_eq_dec (cache st0) k = Some id ->
       MapShim.get K_eq_dec (cache st') k = Some id) /\
    length (childNodes st') = length keys.
Proof.
  intros Hidle Hnd Hall. split.
  - split; [|split; [reflexivity|intros id []]].
    split; [constructor|]. split; [intros id []|]. split; [constructor|].
    split; [constructor|intros k id []].
  - destruct (cycle_cases st0 keys Hidle) as [(_ & _ & H)|(Hn & _)]; [exact H|].
    exfalso. apply Hn. split; assumption.
Qed.

(** X30.  [flush] throws ['oops3'] exactly when a key was added twice or
    [maker] declined one.  From an idle cache a draw never fails in any
    other way, and it fails in this one if and only if the keys added
    were not distinct or not all accepted: [count] has then counted a
    call that put no element in use. *)
Theorem flush_throws_on_miscount (st0 : state K) (keys : list K) :
  idle st0 ->
  (cycle K_eq_dec maker keys st0 = Throw oops3 <->
   ~ (NoDup keys /\ Forall (accepted K_eq_dec maker st0) keys)) /\
  cycle K_eq_dec maker keys st0 <> Throw oops /\
  cycle K_eq_dec maker keys st0 <> Throw TypeError.
Proof.
  intros Hidle.
  destruct (cycle_cases st0 keys Hidle)
    as [(Hnd & Hall & st' & E & _)|(Hn & E)]; rewrite E.
  - split; [|split; discriminate].
    split; [discriminate|]. intros Hn. exfalso. apply Hn. split; assumption.
  - split; [|split; discriminate].
    split; [intros _; exact Hn|reflexivity].
Qed.

End CacheFacts.

(** ** Instances, continued *)

Lemma pixel_frequency_inverse_witness :
  SpectrumView.freqToCSSLeft Sample.view (ClickTune.freq Sample.view 250)
  == 250 + SpectrumView.container_scrollLeft Sample.view.
Proof.
  destruct (pixel_frequency_inverse Sample.view 250 100000000) as [H _].
  - vm_compute. discriminate.
  - exact H.
Defined.

Lemma visible_span_witness :
  SpectrumView.rightVisibleFreq Sample.view - SpectrumView.leftVisibleFreq Sample.view
  == SpectrumView.bandwidth Sample.view / SpectrumView.zoom Sample.view.
Proof.
  destruct (visible_span Sample.view 100000000) as [H _].
  - reflexivity.
  - vm_compute. discriminate.
  - vm_compute. discriminate.
  - vm_compute. discriminate.
  - exact H.
Defined.

Lemma zoom_out_resets_scroll_witness :
  SpectrumView.virtualScroll
    (SpectrumView.changeZoom Sample.exp2 Sample.view 2000 250) == 0.
Proof.
  destruct (zoom_out_resets_scroll Sample.exp2 Sample.view 2000 250) as (_ & H & _).
  - vm_compute. discriminate.
  - exact H.
Defined.

Lemma zero_delta_is_identity_witness :
  SpectrumView.zoom (SpectrumView.changeZoom Sample.exp2 Sample.view 0 250)
  == SpectrumView.zoom Sample.view.
Proof.
  destruct (zero_delta_is_identity Sample.exp2 Sample.view 250) as [H _].
  - intros x Hx. unfold Sample.exp2. rewrite Hx. reflexivity.
  - reflexivity.
  - reflexivity.
  - reflexivity.
  - vm_compute. discriminate.
  - vm_compute. discriminate.
  - split; vm_compute; discriminate.
  - exact H.
Defined.

Lemma nan_frequency_blends_witness :
  SpectrumPlot.lastDrawnCenterFreq
    (SpectrumPlot.commonNewData (1 # 2) Example.frame_nan Sample.average)
  = JS.Fin 100.
Proof.
  destruct (nan_frequency_blends (1 # 2) Example.frame_nan Sample.average [1; 2])
    as [H _]; [reflexivity|reflexivity|reflexivity|exact H].
Defined.

Lemma length_change_resets_witness :
  SpectrumPlot.avg_length
    (SpectrumPlot.commonNewData (1 # 2) Example.frame3 Sample.average)
  = Some 3%nat.
Proof.
  destruct (length_change_resets (1 # 2) Example.frame3 Sample.average)
    as (_ & H & _); [discriminate|exact H].
Defined.

Lemma blend_between_witness :
  SpectrumPlot.avg_at
    (SpectrumPlot.commonNewData (1 # 4) Example.frame_nan Sample.average) 0
  <= Qmax (SpectrumPlot.avg_at Sample.average 0) 3.
Proof.
  destruct (blend_between (1 # 4) Example.frame_nan Sample.average 0) as [_ H].
  - vm_compute. discriminate.
  - vm_compute. discriminate.
  - reflexivity.
  - simpl. lia.
  - exact H.
Defined.

Lemma bin_is_drawn_at_its_frequency_witness :
  let g := PlotDraw.geometry_of Sample.view 500 100 2048 in
  PlotDraw.xZero g + inject_Z 1024 * PlotDraw.xScale g
  == PlotDraw.freqToCoord
       (SpectrumView.leftVisibleFreq Sample.view)
       (SpectrumView.rightVisibleFreq Sample.view) 500
       (SpectrumView.getCenterFreq Sample.view
        - SpectrumView.getBandwidth Sample.view / 2
        + (inject_Z 1024 + (1 # 2))
          * (SpectrumView.getBandwidth Sample.view / inject_Z (Z.of_nat 2048))).
Proof.
  apply (bin_is_drawn_at_its_frequency Sample.view 500 100 2048 1024).
  - lia.
  - vm_compute. discriminate.
Defined.

Lemma level_to_row_witness :
  let g := PlotDraw.geometry_of Sample.view 500 100 2048 in
  PlotDraw.yZero g + SpectrumView.minLevel * PlotDraw.yScale g == 100.
Proof.
  destruct (level_to_row Sample.view 500 100 2048 (-40) (-10)) as (_ & H & _).
  - vm_compute. discriminate.
  - vm_compute. discriminate.
  - exact H.
Defined.

Lemma curve_covers_canvas_witness :
  exists g pts,
    PlotDraw.performDraw Sample.view 500 100 Sample.average = Some (g, pts) /\
    (0 <= PlotDraw.firstPoint g)%Z /\
    (PlotDraw.afterLastPoint g <= 2)%Z.
Proof.
  destruct (curve_covers_canvas Sample.view 500 100 Sample.average [1; 2])
    as (g & pts & E & H0 & H1 & _).
  - reflexivity.
  - simpl. lia.
  - vm_compute. reflexivity.
  - exists g, pts. split; [exact E|]. split; [exact H0|exact H1].
Defined.

Lemma texture_holds_average_witness :
  nth 1 (SpectrumPlot.bufferTexture
           (SpectrumPlot.newData_GL (1 # 2) Example.frame2 Example.gl_plot)) 0%Z
  = 0%Z.
Proof.
  destruct (texture_holds_average (1 # 2) Example.frame2 Example.gl_plot 1)
    as (_ & _ & _ & _ & _ & H & _).
  - exact I.
  - simpl. lia.
  - apply H. vm_compute. discriminate.
Defined.

Lemma vertex_maps_visible_span_witness :
  SpectrumView.getCenterFreq Sample.view - SpectrumView.getBandwidth Sample.view / 2
  + PlotDraw.vertex_x Sample.view (2 * (1 # 2) - 1)
    * SpectrumView.getBandwidth Sample.view
  == SpectrumView.leftVisibleFreq Sample.view
     + (1 # 2) * (SpectrumView.rightVisibleFreq Sample.view
                  - SpectrumView.leftVisibleFreq Sample.view).
Proof.
  apply (vertex_maps_visible_span Sample.view (1 # 2)).
  vm_compute. discriminate.
Defined.

Lemma gradient_is_piecewise_linear_witness :
  exists out,
    WaterfallPlot.interpolateColor JS.ToUint8Clamp (JS.Fin (3 # 8))
      [0; 0; 0; 0]%Z 0 = Some out /\
    nth 1 out 0%Z
    = JS.ToUint8Clamp (JS.Fin (0 * (1 - (1 # 2)) + 200 * (1 # 2))).
Proof.
  destruct (gradient_is_piecewise_linear (3 # 8) [0; 0; 0; 0]%Z 0 1)
    as (_ & _ & out & c0 & c1 & E & E0 & E1 & H).
  - vm_compute. discriminate.
  - vm_compute. discriminate.
  - lia.
  - simpl. lia.
  - exists out. split; [exact E|].
    vm_compute in E0, E1. injection E0 as <-. injection E1 as <-.
    exact H.
Defined.


Lemma raster_width_change_restarts_witness :
  exists st' ops img,
    WaterfallPlot.Raster.newData Sample.view0 Example.frame3 Example.raster
    = Some (st', ops) /\
    WaterfallPlot.Raster.slices st' = [(img, JS.Fin 200)].
Proof.
  destruct (raster_width_change_restarts Sample.view0 Example.frame3 Example.raster)
    as (st' & ops & img & E & Hs & _).
  - unfold RasterInv.wf, Example.raster. simpl. lia.
  - simpl. lia.
  - simpl. lia.
  - exists st', ops, img. split; [exact E|exact Hs].
Defined.



Lemma overlay_alignment_witness :
  ReceiverMarks.style_marginLeft Sample.view
  + ReceiverMarks.freqToCoord
      (SpectrumView.leftVisibleFreq Sample.view)
      (SpectrumView.rightVisibleFreq Sample.view) 500 100000000
  == SpectrumView.freqToCSSLeft Sample.view 100000000.
Proof.
  destruct (overlay_alignment Sample.view 500 100000000) as [H _].
  - vm_compute. discriminate.
  - vm_compute. discriminate.
  - reflexivity.
  - exact H.
Defined.

Lemma band_filter_is_carried_over_witness :
  In (ReceiverMarks.drawBand 99750000 100250000 500
        (100200000 + -3000 - 1000 / 2) (100200000 + 3000 + 1000 / 2))
     (ReceiverMarks.draw_receivers 99750000 100250000 500 JS.NaN JS.NaN None
        [Example.with_filter; Example.without_filter]).
Proof.
  destruct (band_filter_is_carried_over 99750000 100250000 500 JS.NaN JS.NaN None
              [] [] [] Example.with_filter Example.without_filter Example.filter)
    as [H _].
  - reflexivity.
  - intros r [].
  - reflexivity.
  - exact H.
Defined.

Lemma digit_entry_sets_digit_witness :
  exists v',
    Knob.keypress None 2 "7"%char Example.knob_value = Some v' /\
    Knob.digit_at 2 (Knob.magnitude v') = 7%Z /\
    Knob.digit_at 3 (Knob.magnitude v') = 1%Z.
Proof.
  destruct (digit_entry_sets_digit 2 "7"%char 7 Example.knob_value)
    as (v' & E & _ & _ & Hd & Hother & _).
  - vm_compute. discriminate.
  - reflexivity.
  - exists v'. split; [exact E|]. split; [exact Hd|].
    rewrite (Hother 3%nat) by lia. reflexivity.
Defined.

Lemma label_step_witness :
  exists step,
    FreqScale.choose_step (FreqScale.MinHzPerLabel Sample.view) = Some step /\
    FreqScale.labelWidth <= SpectrumView.freqToCSSLength Sample.view step.
Proof.
  destruct (label_step Sample.view) as (step & k & E & _ & _ & H & _).
  - reflexivity.
  - reflexivity.
  - reflexivity.
  - vm_compute. discriminate.
  - exists step. split; [exact E|exact H].
Defined.

Lemma scale_numbers_are_multiples_witness :
  exists t, nth_error (FreqScale.numbers 99500000 100500000 250000) 1 = Some t.
Proof.
  destruct (scale_numbers_are_multiples 99500000 100500000 250000 1)
    as (_ & _ & _ & H).
  - reflexivity.
  - apply H; [lia|vm_compute; discriminate].
Defined.

Lemma map_shim_laws_witness :
  MapShim.get Z.eq_dec (MapShim.set Z.eq_dec Example.one_entry 7%Z 1%nat) 7%Z
  = Some 1%nat.
Proof.
  destruct (map_shim_laws Z nat Z.eq_dec Example.one_entry 7%Z 5%Z 1%nat)
    as (_ & _ & _ & H & _).
  - repeat constructor. intros [].
  - exact H.
Defined.

Lemma cache_cycle_keeps_added_witness :
  exists st',
    VisibleItemCache.cycle Z.eq_dec Example.accept_all [1; 2]%Z
      VisibleItemCache.init = VisibleItemCache.Return st' /\
    length (VisibleItemCache.childNodes st') = 2%nat.
Proof.
  assert (Hidle : VisibleItemCache.idle (@VisibleItemCache.init Z)).
  { split; [|split; [reflexivity|intros id []]].
    split; [constructor|]. split; [intros id []|]. split; [constructor|].
    split; [constructor|intros k id []]. }
  destruct (cache_cycle_keeps_added Z Z.eq_dec Example.accept_all
              VisibleItemCache.init [1; 2]%Z)
    as (_ & st' & E & _ & _ & _ & Hl).
  - exact Hidle.
  - repeat constructor; simpl; intuition discriminate.
  - repeat constructor; right; reflexivity.
  - exists st'. split; [exact E|exact Hl].
Defined.

Lemma flush_throws_on_miscount_witness :
  VisibleItemCache.cycle Z.eq_dec Example.accept_all [1; 1]%Z
    VisibleItemCache.init = VisibleItemCache.Throw VisibleItemCache.oops3.
Proof.
  destruct (flush_throws_on_miscount Z Z.eq_dec Example.accept_all
              VisibleItemCache.init [1; 1]%Z) as ([_ H] & _).
  - split; [|split; [reflexivity|intros id []]].
    split; [constructor|]. split; [intros id []|]. split; [constructor|].
    split; [constructor|intros k id []].
  - apply H. intros [Hnd _]. inversion Hnd as [|x l Hn _]. apply Hn. left. reflexivity.
Defined.
